(** * PhishShield: a shallow embedding of the detection pipeline

    The development follows the Python sources of the repository:

    - [app/utils/text_norm.py]      the index-safe text normalizer
    - [app/core/extractors.py]      URL extraction and cleaning
    - [app/core/types.py]           rules, evidence, hits, results
    - [app/core/rule_engine.py]     rule pack loading, matching, context rules
    - [app/services/cache.py], [app/services/url_reputation.py]
    - [app/core/scoring.py]         aggregation, score, severity, action
    - [app/core/analyzer.py]        the orchestrator
    - [app/api/schemas.py], [app/api/routes.py]   the request contract and
      the analyze route

    A Python [str] is a sequence of Unicode code points and is modelled as a
    list of code points; offsets and lengths are natural numbers; Python
    [int]s that may be negative (weights, scores) are integers. *)

From Stdlib Require Import String Ascii.
From Stdlib Require Import List Bool Arith NArith ZArith Lia Permutation Sorted.
From Stdlib Require Import Reals Lra.
Import ListNotations.

Set Implicit Arguments.

(* ================================================================== *)
(** * Python strings *)
(* ================================================================== *)

Module PyStr.

(** A character is its Unicode code point. *)
Definition char := N.
Definition pystr := list char.

(** An ASCII literal as a Python string. *)
Definition lit (s : string) : pystr := List.map N_of_ascii (list_ascii_of_string s).

Definition char_in (c : char) (cs : pystr) : bool := existsb (N.eqb c) cs.

Fixpoint str_eqb (a b : pystr) : bool :=
  match a, b with
  | [], [] => true
  | x :: a', y :: b' => N.eqb x y && str_eqb a' b'
  | _, _ => false
  end.

Definition str_in (s : pystr) (l : list pystr) : bool := existsb (str_eqb s) l.

(** [text[i:j]] for non-negative [i], [j]; Python clips at the end of the text. *)
Definition slice (text : pystr) (i j : nat) : pystr := firstn (j - i) (skipn i text).

(** [s.startswith(p)] *)
Fixpoint startswith (s p : pystr) {struct p} : bool :=
  match p, s with
  | [], _ => true
  | x :: p', y :: s' => N.eqb x y && startswith s' p'
  | _ :: _, [] => false
  end.

(** [s.endswith(p)] *)
Definition endswith (s p : pystr) : bool := startswith (rev s) (rev p).

(** [hay.find(needle, start)]: the scan, [hay] being the suffix that starts
    at index [i]. *)
Fixpoint find_at (hay needle : pystr) (i : nat) : option nat :=
  if startswith hay needle then Some i
  else match hay with
       | [] => None
       | _ :: rest => find_at rest needle (S i)
       end.

(** [hay.find(needle, start)], with [None] for Python's [-1]. *)
Definition find (hay needle : pystr) (start : nat) : option nat :=
  if start <=? length hay then find_at (skipn start hay) needle start else None.

(** [needle in hay] *)
Definition contains (hay needle : pystr) : bool :=
  match find hay needle 0 with Some _ => true | None => false end.

(** [str.isspace] on one character: the characters [str.strip()] removes and
    the regex class [\s] matches on [str] patterns. *)
Definition is_space (c : char) : bool :=
  ((9 <=? c) && (c <=? 13) || (28 <=? c) && (c <=? 32)
   || (c =? 0x85) || (c =? 0xA0) || (c =? 0x1680)
   || (0x2000 <=? c) && (c <=? 0x200A)
   || (c =? 0x2028) || (c =? 0x2029) || (c =? 0x202F)
   || (c =? 0x205F) || (c =? 0x3000))%N.

Fixpoint lstrip_by (p : char -> bool) (s : pystr) : pystr :=
  match s with
  | c :: s' => if p c then lstrip_by p s' else s
  | [] => []
  end.

Definition rstrip_by (p : char -> bool) (s : pystr) : pystr :=
  rev (lstrip_by p (rev s)).

Definition strip_by (p : char -> bool) (s : pystr) : pystr :=
  rstrip_by p (lstrip_by p s).

(** [s.strip()] *)
Definition strip (s : pystr) : pystr := strip_by is_space s.

(** [s.strip(chars)] *)
Definition strip_chars (chars s : pystr) : pystr :=
  strip_by (fun c => char_in c chars) s.

(** [sep.join(parts)] *)
Fixpoint join (sep : pystr) (parts : list pystr) : pystr :=
  match parts with
  | [] => []
  | [p] => p
  | p :: rest => p ++ sep ++ join sep rest
  end.

(** ** Lowercasing

    [str.lower()] applies the full Unicode lowercase mapping to every
    character.  The simple (one to one) mapping is given here for ASCII and
    Latin-1, the blocks the English rule keywords and the URL scheme test
    live in; every other character is left as it is, which is what Python
    does for caseless scripts such as Hebrew.  The capitals of the other
    cased scripts (Greek, Cyrillic and the like) and the context rule of the
    final sigma are not covered.  The full mapping changes the length at one
    character only, U+0130 (LATIN CAPITAL LETTER I WITH DOT ABOVE), whose
    lowercase is the two characters U+0069 U+0307 (SpecialCasing.txt). *)
Definition lower_simple (c : char) : char :=
  (if (65 <=? c) && (c <=? 90) then c + 32
   else if (192 <=? c) && (c <=? 222) && negb (c =? 215) then c + 32
   else c)%N.

Definition lower_full (c : char) : pystr :=
  if (c =? 0x130)%N then [0x69%N; 0x307%N] else [lower_simple c].

(** [s.lower()] *)
Definition lower (s : pystr) : pystr := flat_map lower_full s.

End PyStr.
Import PyStr.

(* ================================================================== *)
(** * app/utils/text_norm.py *)
(* ================================================================== *)

(** [_ZERO_WIDTH]: zero width space, non-joiner, joiner, and the BOM. *)
Definition _ZERO_WIDTH : pystr := [0x200B; 0x200C; 0x200D; 0xFEFF]%N.

(** [normalize_for_matching(text)] *)
Definition normalize_for_matching (text : pystr) : pystr :=
  match text with
  | [] => []
  | _ =>
      let out := List.map (fun ch => if char_in ch _ZERO_WIDTH then 32%N else ch) text in
      lower out
  end.

(* ================================================================== *)
(** * app/core/types.py *)
(* ================================================================== *)

Inductive Severity := low | medium | high.

Inductive Action := allow | verify_out_of_band | report | block.

Module PatternType.
Inductive t := keyword | regex.
End PatternType.

(** [Literal["any", "all"]] *)
Inductive MatchMode := match_any | match_all.

Module RulePattern.
Record t := mk {
  type : PatternType.t;
  value : pystr;
  flags : option pystr;
  label : option pystr }.
End RulePattern.

Module RuleWhen.
Record t := mk {
  match_ : MatchMode;
  any_keywords : list pystr;
  regex : list pystr;
  patterns : list RulePattern.t }.
End RuleWhen.

Module Rule.
Record t := mk {
  id : pystr;
  title : pystr;
  weight : Z;
  severity : Severity;
  when : RuleWhen.t;
  explain : pystr;
  action : Action;
  tags : list pystr;
  enabled : bool }.
End Rule.

Module Evidence.
Record t := mk {
  kind : PatternType.t;
  pattern : pystr;
  match_ : pystr;
  start : nat;
  end_ : nat;
  snippet : pystr;
  label : option pystr }.

(** [_validate_span]: the model validator accepts the record. *)
Definition _validate_span (ev : t) : bool := start ev <=? end_ ev.
End Evidence.

Module RuleHit.
Record t := mk {
  rule_id : pystr;
  title : pystr;
  weight : Z;
  severity : Severity;
  action : Action;
  explain : pystr;
  tags : list pystr;
  evidence : list Evidence.t }.

(** [_ensure_evidence] *)
Definition _ensure_evidence (h : t) : bool :=
  match evidence h with [] => false | _ => true end.
End RuleHit.

Module TextHighlight.
Record t := mk {
  start : nat;
  end_ : nat;
  rule_id : pystr;
  label : pystr }.
End TextHighlight.

Module AnalysisResult.
Record t := mk {
  score : Z;
  severity : Severity;
  action : Action;
  recommendations : list pystr;
  hits : list RuleHit.t;
  highlights : list TextHighlight.t }.
End AnalysisResult.

(* ================================================================== *)
(** * app/core/context.py *)
(* ================================================================== *)

Module AnalysisContext.
Record t := mk {
  urls : list pystr;
  domains : list pystr;
  emails : list pystr;
  phones : list pystr }.
End AnalysisContext.

(* ================================================================== *)
(** * Library models: [re] character classes and [urllib.parse.urlsplit] *)
(* ================================================================== *)

Module Lib.

(** [c] lies in one of the ranges of the table, bounds included. *)
Definition in_ranges (c : char) (table : list (N * N)) : bool :=
  existsb (fun r => (fst r <=? c) && (c <=? snd r))%N table.

(** The characters of the regex class [\w] on [str] patterns, the
    alphanumeric characters ([str.isalnum]) and the underscore, as ranges of
    code points.  The table is that of Unicode 14.0, the version of the
    character database that CPython 3.11 carries. *)
Definition word_ranges : list (N * N) :=
  [(0x30, 0x39); (0x41, 0x5A); (0x5F, 0x5F); (0x61, 0x7A); (0xAA, 0xAA);
   (0xB2, 0xB3); (0xB5, 0xB5); (0xB9, 0xBA); (0xBC, 0xBE); (0xC0, 0xD6);
   (0xD8, 0xF6); (0xF8, 0x2C1); (0x2C6, 0x2D1); (0x2E0, 0x2E4); (0x2EC, 0x2EC);
   (0x2EE, 0x2EE); (0x370, 0x374); (0x376, 0x377); (0x37A, 0x37D); (0x37F, 0x37F);
   (0x386, 0x386); (0x388, 0x38A); (0x38C, 0x38C); (0x38E, 0x3A1); (0x3A3, 0x3F5);
   (0x3F7, 0x481); (0x48A, 0x52F); (0x531, 0x556); (0x559, 0x559); (0x560, 0x588);
   (0x5D0, 0x5EA); (0x5EF, 0x5F2); (0x620, 0x64A); (0x660, 0x669); (0x66E, 0x66F);
   (0x671, 0x6D3); (0x6D5, 0x6D5); (0x6E5, 0x6E6); (0x6EE, 0x6FC); (0x6FF, 0x6FF);
   (0x710, 0x710); (0x712, 0x72F); (0x74D, 0x7A5); (0x7B1, 0x7B1); (0x7C0, 0x7EA);
   (0x7F4, 0x7F5); (0x7FA, 0x7FA); (0x800, 0x815); (0x81A, 0x81A); (0x824, 0x824);
   (0x828, 0x828); (0x840, 0x858); (0x860, 0x86A); (0x870, 0x887); (0x889, 0x88E);
   (0x8A0, 0x8C9); (0x904, 0x939); (0x93D, 0x93D); (0x950, 0x950); (0x958, 0x961);
   (0x966, 0x96F); (0x971, 0x980); (0x985, 0x98C); (0x98F, 0x990); (0x993, 0x9A8);
   (0x9AA, 0x9B0); (0x9B2, 0x9B2); (0x9B6, 0x9B9); (0x9BD, 0x9BD); (0x9CE, 0x9CE);
   (0x9DC, 0x9DD); (0x9DF, 0x9E1); (0x9E6, 0x9F1); (0x9F4, 0x9F9); (0x9FC, 0x9FC);
   (0xA05, 0xA0A); (0xA0F, 0xA10); (0xA13, 0xA28); (0xA2A, 0xA30); (0xA32, 0xA33);
   (0xA35, 0xA36); (0xA38, 0xA39); (0xA59, 0xA5C); (0xA5E, 0xA5E); (0xA66, 0xA6F);
   (0xA72, 0xA74); (0xA85, 0xA8D); (0xA8F, 0xA91); (0xA93, 0xAA8); (0xAAA, 0xAB0);
   (0xAB2, 0xAB3); (0xAB5, 0xAB9); (0xABD, 0xABD); (0xAD0, 0xAD0); (0xAE0, 0xAE1);
   (0xAE6, 0xAEF); (0xAF9, 0xAF9); (0xB05, 0xB0C); (0xB0F, 0xB10); (0xB13, 0xB28);
   (0xB2A, 0xB30); (0xB32, 0xB33); (0xB35, 0xB39); (0xB3D, 0xB3D); (0xB5C, 0xB5D);
   (0xB5F, 0xB61); (0xB66, 0xB6F); (0xB71, 0xB77); (0xB83, 0xB83); (0xB85, 0xB8A);
   (0xB8E, 0xB90); (0xB92, 0xB95); (0xB99, 0xB9A); (0xB9C, 0xB9C); (0xB9E, 0xB9F);
   (0xBA3, 0xBA4); (0xBA8, 0xBAA); (0xBAE, 0xBB9); (0xBD0, 0xBD0); (0xBE6, 0xBF2);
   (0xC05, 0xC0C); (0xC0E, 0xC10); (0xC12, 0xC28); (0xC2A, 0xC39); (0xC3D, 0xC3D);
   (0xC58, 0xC5A); (0xC5D, 0xC5D); (0xC60, 0xC61); (0xC66, 0xC6F); (0xC78, 0xC7E);
   (0xC80, 0xC80); (0xC85, 0xC8C); (0xC8E, 0xC90); (0xC92, 0xCA8); (0xCAA, 0xCB3);
   (0xCB5, 0xCB9); (0xCBD, 0xCBD); (0xCDD, 0xCDE); (0xCE0, 0xCE1); (0xCE6, 0xCEF);
   (0xCF1, 0xCF2); (0xD04, 0xD0C); (0xD0E, 0xD10); (0xD12, 0xD3A); (0xD3D, 0xD3D);
   (0xD4E, 0xD4E); (0xD54, 0xD56); (0xD58, 0xD61); (0xD66, 0xD78); (0xD7A, 0xD7F);
   (0xD85, 0xD96); (0xD9A, 0xDB1); (0xDB3, 0xDBB); (0xDBD, 0xDBD); (0xDC0, 0xDC6);
   (0xDE6, 0xDEF); (0xE01, 0xE30); (0xE32, 0xE33); (0xE40, 0xE46); (0xE50, 0xE59);
   (0xE81, 0xE82); (0xE84, 0xE84); (0xE86, 0xE8A); (0xE8C, 0xEA3); (0xEA5, 0xEA5);
   (0xEA7, 0xEB0); (0xEB2, 0xEB3); (0xEBD, 0xEBD); (0xEC0, 0xEC4); (0xEC6, 0xEC6);
   (0xED0, 0xED9); (0xEDC, 0xEDF); (0xF00, 0xF00); (0xF20, 0xF33); (0xF40, 0xF47);
   (0xF49, 0xF6C); (0xF88, 0xF8C); (0x1000, 0x102A); (0x103F, 0x1049); (0x1050, 0x1055);
   (0x105A, 0x105D); (0x1061, 0x1061); (0x1065, 0x1066); (0x106E, 0x1070); (0x1075, 0x1081);
   (0x108E, 0x108E); (0x1090, 0x1099); (0x10A0, 0x10C5); (0x10C7, 0x10C7); (0x10CD, 0x10CD);
   (0x10D0, 0x10FA); (0x10FC, 0x1248); (0x124A, 0x124D); (0x1250, 0x1256); (0x1258, 0x1258);
   (0x125A, 0x125D); (0x1260, 0x1288); (0x128A, 0x128D); (0x1290, 0x12B0); (0x12B2, 0x12B5);
   (0x12B8, 0x12BE); (0x12C0, 0x12C0); (0x12C2, 0x12C5); (0x12C8, 0x12D6); (0x12D8, 0x1310);
   (0x1312, 0x1315); (0x1318, 0x135A); (0x1369, 0x137C); (0x1380, 0x138F); (0x13A0, 0x13F5);
   (0x13F8, 0x13FD); (0x1401, 0x166C); (0x166F, 0x167F); (0x1681, 0x169A); (0x16A0, 0x16EA);
   (0x16EE, 0x16F8); (0x1700, 0x1711); (0x171F, 0x1731); (0x1740, 0x1751); (0x1760, 0x176C);
   (0x176E, 0x1770); (0x1780, 0x17B3); (0x17D7, 0x17D7); (0x17DC, 0x17DC); (0x17E0, 0x17E9);
   (0x17F0, 0x17F9); (0x1810, 0x1819); (0x1820, 0x1878); (0x1880, 0x1884); (0x1887, 0x18A8);
   (0x18AA, 0x18AA); (0x18B0, 0x18F5); (0x1900, 0x191E); (0x1946, 0x196D); (0x1970, 0x1974);
   (0x1980, 0x19AB); (0x19B0, 0x19C9); (0x19D0, 0x19DA); (0x1A00, 0x1A16); (0x1A20, 0x1A54);
   (0x1A80, 0x1A89); (0x1A90, 0x1A99); (0x1AA7, 0x1AA7); (0x1B05, 0x1B33); (0x1B45, 0x1B4C);
   (0x1B50, 0x1B59); (0x1B83, 0x1BA0); (0x1BAE, 0x1BE5); (0x1C00, 0x1C23); (0x1C40, 0x1C49);
   (0x1C4D, 0x1C7D); (0x1C80, 0x1C88); (0x1C90, 0x1CBA); (0x1CBD, 0x1CBF); (0x1CE9, 0x1CEC);
   (0x1CEE, 0x1CF3); (0x1CF5, 0x1CF6); (0x1CFA, 0x1CFA); (0x1D00, 0x1DBF); (0x1E00, 0x1F15);
   (0x1F18, 0x1F1D); (0x1F20, 0x1F45); (0x1F48, 0x1F4D); (0x1F50, 0x1F57); (0x1F59, 0x1F59);
   (0x1F5B, 0x1F5B); (0x1F5D, 0x1F5D); (0x1F5F, 0x1F7D); (0x1F80, 0x1FB4); (0x1FB6, 0x1FBC);
   (0x1FBE, 0x1FBE); (0x1FC2, 0x1FC4); (0x1FC6, 0x1FCC); (0x1FD0, 0x1FD3); (0x1FD6, 0x1FDB);
   (0x1FE0, 0x1FEC); (0x1FF2, 0x1FF4); (0x1FF6, 0x1FFC); (0x2070, 0x2071); (0x2074, 0x2079);
   (0x207F, 0x2089); (0x2090, 0x209C); (0x2102, 0x2102); (0x2107, 0x2107); (0x210A, 0x2113);
   (0x2115, 0x2115); (0x2119, 0x211D); (0x2124, 0x2124); (0x2126, 0x2126); (0x2128, 0x2128);
   (0x212A, 0x212D); (0x212F, 0x2139); (0x213C, 0x213F); (0x2145, 0x2149); (0x214E, 0x214E);
   (0x2150, 0x2189); (0x2460, 0x249B); (0x24EA, 0x24FF); (0x2776, 0x2793); (0x2C00, 0x2CE4);
   (0x2CEB, 0x2CEE); (0x2CF2, 0x2CF3); (0x2CFD, 0x2CFD); (0x2D00, 0x2D25); (0x2D27, 0x2D27);
   (0x2D2D, 0x2D2D); (0x2D30, 0x2D67); (0x2D6F, 0x2D6F); (0x2D80, 0x2D96); (0x2DA0, 0x2DA6);
   (0x2DA8, 0x2DAE); (0x2DB0, 0x2DB6); (0x2DB8, 0x2DBE); (0x2DC0, 0x2DC6); (0x2DC8, 0x2DCE);
   (0x2DD0, 0x2DD6); (0x2DD8, 0x2DDE); (0x2E2F, 0x2E2F); (0x3005, 0x3007); (0x3021, 0x3029);
   (0x3031, 0x3035); (0x3038, 0x303C); (0x3041, 0x3096); (0x309D, 0x309F); (0x30A1, 0x30FA);
   (0x30FC, 0x30FF); (0x3105, 0x312F); (0x3131, 0x318E); (0x3192, 0x3195); (0x31A0, 0x31BF);
   (0x31F0, 0x31FF); (0x3220, 0x3229); (0x3248, 0x324F); (0x3251, 0x325F); (0x3280, 0x3289);
   (0x32B1, 0x32BF); (0x3400, 0x4DBF); (0x4E00, 0xA48C); (0xA4D0, 0xA4FD); (0xA500, 0xA60C);
   (0xA610, 0xA62B); (0xA640, 0xA66E); (0xA67F, 0xA69D); (0xA6A0, 0xA6EF); (0xA717, 0xA71F);
   (0xA722, 0xA788); (0xA78B, 0xA7CA); (0xA7D0, 0xA7D1); (0xA7D3, 0xA7D3); (0xA7D5, 0xA7D9);
   (0xA7F2, 0xA801); (0xA803, 0xA805); (0xA807, 0xA80A); (0xA80C, 0xA822); (0xA830, 0xA835);
   (0xA840, 0xA873); (0xA882, 0xA8B3); (0xA8D0, 0xA8D9); (0xA8F2, 0xA8F7); (0xA8FB, 0xA8FB);
   (0xA8FD, 0xA8FE); (0xA900, 0xA925); (0xA930, 0xA946); (0xA960, 0xA97C); (0xA984, 0xA9B2);
   (0xA9CF, 0xA9D9); (0xA9E0, 0xA9E4); (0xA9E6, 0xA9FE); (0xAA00, 0xAA28); (0xAA40, 0xAA42);
   (0xAA44, 0xAA4B); (0xAA50, 0xAA59); (0xAA60, 0xAA76); (0xAA7A, 0xAA7A); (0xAA7E, 0xAAAF);
   (0xAAB1, 0xAAB1); (0xAAB5, 0xAAB6); (0xAAB9, 0xAABD); (0xAAC0, 0xAAC0); (0xAAC2, 0xAAC2);
   (0xAADB, 0xAADD); (0xAAE0, 0xAAEA); (0xAAF2, 0xAAF4); (0xAB01, 0xAB06); (0xAB09, 0xAB0E);
   (0xAB11, 0xAB16); (0xAB20, 0xAB26); (0xAB28, 0xAB2E); (0xAB30, 0xAB5A); (0xAB5C, 0xAB69);
   (0xAB70, 0xABE2); (0xABF0, 0xABF9); (0xAC00, 0xD7A3); (0xD7B0, 0xD7C6); (0xD7CB, 0xD7FB);
   (0xF900, 0xFA6D); (0xFA70, 0xFAD9); (0xFB00, 0xFB06); (0xFB13, 0xFB17); (0xFB1D, 0xFB1D);
   (0xFB1F, 0xFB28); (0xFB2A, 0xFB36); (0xFB38, 0xFB3C); (0xFB3E, 0xFB3E); (0xFB40, 0xFB41);
   (0xFB43, 0xFB44); (0xFB46, 0xFBB1); (0xFBD3, 0xFD3D); (0xFD50, 0xFD8F); (0xFD92, 0xFDC7);
   (0xFDF0, 0xFDFB); (0xFE70, 0xFE74); (0xFE76, 0xFEFC); (0xFF10, 0xFF19); (0xFF21, 0xFF3A);
   (0xFF41, 0xFF5A); (0xFF66, 0xFFBE); (0xFFC2, 0xFFC7); (0xFFCA, 0xFFCF); (0xFFD2, 0xFFD7);
   (0xFFDA, 0xFFDC); (0x10000, 0x1000B); (0x1000D, 0x10026); (0x10028, 0x1003A); (0x1003C, 0x1003D);
   (0x1003F, 0x1004D); (0x10050, 0x1005D); (0x10080, 0x100FA); (0x10107, 0x10133); (0x10140, 0x10178);
   (0x1018A, 0x1018B); (0x10280, 0x1029C); (0x102A0, 0x102D0); (0x102E1, 0x102FB); (0x10300, 0x10323);
   (0x1032D, 0x1034A); (0x10350, 0x10375); (0x10380, 0x1039D); (0x103A0, 0x103C3); (0x103C8, 0x103CF);
   (0x103D1, 0x103D5); (0x10400, 0x1049D); (0x104A0, 0x104A9); (0x104B0, 0x104D3); (0x104D8, 0x104FB);
   (0x10500, 0x10527); (0x10530, 0x10563); (0x10570, 0x1057A); (0x1057C, 0x1058A); (0x1058C, 0x10592);
   (0x10594, 0x10595); (0x10597, 0x105A1); (0x105A3, 0x105B1); (0x105B3, 0x105B9); (0x105BB, 0x105BC);
   (0x10600, 0x10736); (0x10740, 0x10755); (0x10760, 0x10767); (0x10780, 0x10785); (0x10787, 0x107B0);
   (0x107B2, 0x107BA); (0x10800, 0x10805); (0x10808, 0x10808); (0x1080A, 0x10835); (0x10837, 0x10838);
   (0x1083C, 0x1083C); (0x1083F, 0x10855); (0x10858, 0x10876); (0x10879, 0x1089E); (0x108A7, 0x108AF);
   (0x108E0, 0x108F2); (0x108F4, 0x108F5); (0x108FB, 0x1091B); (0x10920, 0x10939); (0x10980, 0x109B7);
   (0x109BC, 0x109CF); (0x109D2, 0x10A00); (0x10A10, 0x10A13); (0x10A15, 0x10A17); (0x10A19, 0x10A35);
   (0x10A40, 0x10A48); (0x10A60, 0x10A7E); (0x10A80, 0x10A9F); (0x10AC0, 0x10AC7); (0x10AC9, 0x10AE4);
   (0x10AEB, 0x10AEF); (0x10B00, 0x10B35); (0x10B40, 0x10B55); (0x10B58, 0x10B72); (0x10B78, 0x10B91);
   (0x10BA9, 0x10BAF); (0x10C00, 0x10C48); (0x10C80, 0x10CB2); (0x10CC0, 0x10CF2); (0x10CFA, 0x10D23);
   (0x10D30, 0x10D39); (0x10E60, 0x10E7E); (0x10E80, 0x10EA9); (0x10EB0, 0x10EB1); (0x10F00, 0x10F27);
   (0x10F30, 0x10F45); (0x10F51, 0x10F54); (0x10F70, 0x10F81); (0x10FB0, 0x10FCB); (0x10FE0, 0x10FF6);
   (0x11003, 0x11037); (0x11052, 0x1106F); (0x11071, 0x11072); (0x11075, 0x11075); (0x11083, 0x110AF);
   (0x110D0, 0x110E8); (0x110F0, 0x110F9); (0x11103, 0x11126); (0x11136, 0x1113F); (0x11144, 0x11144);
   (0x11147, 0x11147); (0x11150, 0x11172); (0x11176, 0x11176); (0x11183, 0x111B2); (0x111C1, 0x111C4);
   (0x111D0, 0x111DA); (0x111DC, 0x111DC); (0x111E1, 0x111F4); (0x11200, 0x11211); (0x11213, 0x1122B);
   (0x11280, 0x11286); (0x11288, 0x11288); (0x1128A, 0x1128D); (0x1128F, 0x1129D); (0x1129F, 0x112A8);
   (0x112B0, 0x112DE); (0x112F0, 0x112F9); (0x11305, 0x1130C); (0x1130F, 0x11310); (0x11313, 0x11328);
   (0x1132A, 0x11330); (0x11332, 0x11333); (0x11335, 0x11339); (0x1133D, 0x1133D); (0x11350, 0x11350);
   (0x1135D, 0x11361); (0x11400, 0x11434); (0x11447, 0x1144A); (0x11450, 0x11459); (0x1145F, 0x11461);
   (0x11480, 0x114AF); (0x114C4, 0x114C5); (0x114C7, 0x114C7); (0x114D0, 0x114D9); (0x11580, 0x115AE);
   (0x115D8, 0x115DB); (0x11600, 0x1162F); (0x11644, 0x11644); (0x11650, 0x11659); (0x11680, 0x116AA);
   (0x116B8, 0x116B8); (0x116C0, 0x116C9); (0x11700, 0x1171A); (0x11730, 0x1173B); (0x11740, 0x11746);
   (0x11800, 0x1182B); (0x118A0, 0x118F2); (0x118FF, 0x11906); (0x11909, 0x11909); (0x1190C, 0x11913);
   (0x11915, 0x11916); (0x11918, 0x1192F); (0x1193F, 0x1193F); (0x11941, 0x11941); (0x11950, 0x11959);
   (0x119A0, 0x119A7); (0x119AA, 0x119D0); (0x119E1, 0x119E1); (0x119E3, 0x119E3); (0x11A00, 0x11A00);
   (0x11A0B, 0x11A32); (0x11A3A, 0x11A3A); (0x11A50, 0x11A50); (0x11A5C, 0x11A89); (0x11A9D, 0x11A9D);
   (0x11AB0, 0x11AF8); (0x11C00, 0x11C08); (0x11C0A, 0x11C2E); (0x11C40, 0x11C40); (0x11C50, 0x11C6C);
   (0x11C72, 0x11C8F); (0x11D00, 0x11D06); (0x11D08, 0x11D09); (0x11D0B, 0x11D30); (0x11D46, 0x11D46);
   (0x11D50, 0x11D59); (0x11D60, 0x11D65); (0x11D67, 0x11D68); (0x11D6A, 0x11D89); (0x11D98, 0x11D98);
   (0x11DA0, 0x11DA9); (0x11EE0, 0x11EF2); (0x11FB0, 0x11FB0); (0x11FC0, 0x11FD4); (0x12000, 0x12399);
   (0x12400, 0x1246E); (0x12480, 0x12543); (0x12F90, 0x12FF0); (0x13000, 0x1342E); (0x14400, 0x14646);
   (0x16800, 0x16A38); (0x16A40, 0x16A5E); (0x16A60, 0x16A69); (0x16A70, 0x16ABE); (0x16AC0, 0x16AC9);
   (0x16AD0, 0x16AED); (0x16B00, 0x16B2F); (0x16B40, 0x16B43); (0x16B50, 0x16B59); (0x16B5B, 0x16B61);
   (0x16B63, 0x16B77); (0x16B7D, 0x16B8F); (0x16E40, 0x16E96); (0x16F00, 0x16F4A); (0x16F50, 0x16F50);
   (0x16F93, 0x16F9F); (0x16FE0, 0x16FE1); (0x16FE3, 0x16FE3); (0x17000, 0x187F7); (0x18800, 0x18CD5);
   (0x18D00, 0x18D08); (0x1AFF0, 0x1AFF3); (0x1AFF5, 0x1AFFB); (0x1AFFD, 0x1AFFE); (0x1B000, 0x1B122);
   (0x1B150, 0x1B152); (0x1B164, 0x1B167); (0x1B170, 0x1B2FB); (0x1BC00, 0x1BC6A); (0x1BC70, 0x1BC7C);
   (0x1BC80, 0x1BC88); (0x1BC90, 0x1BC99); (0x1D2E0, 0x1D2F3); (0x1D360, 0x1D378); (0x1D400, 0x1D454);
   (0x1D456, 0x1D49C); (0x1D49E, 0x1D49F); (0x1D4A2, 0x1D4A2); (0x1D4A5, 0x1D4A6); (0x1D4A9, 0x1D4AC);
   (0x1D4AE, 0x1D4B9); (0x1D4BB, 0x1D4BB); (0x1D4BD, 0x1D4C3); (0x1D4C5, 0x1D505); (0x1D507, 0x1D50A);
   (0x1D50D, 0x1D514); (0x1D516, 0x1D51C); (0x1D51E, 0x1D539); (0x1D53B, 0x1D53E); (0x1D540, 0x1D544);
   (0x1D546, 0x1D546); (0x1D54A, 0x1D550); (0x1D552, 0x1D6A5); (0x1D6A8, 0x1D6C0); (0x1D6C2, 0x1D6DA);
   (0x1D6DC, 0x1D6FA); (0x1D6FC, 0x1D714); (0x1D716, 0x1D734); (0x1D736, 0x1D74E); (0x1D750, 0x1D76E);
   (0x1D770, 0x1D788); (0x1D78A, 0x1D7A8); (0x1D7AA, 0x1D7C2); (0x1D7C4, 0x1D7CB); (0x1D7CE, 0x1D7FF);
   (0x1DF00, 0x1DF1E); (0x1E100, 0x1E12C); (0x1E137, 0x1E13D); (0x1E140, 0x1E149); (0x1E14E, 0x1E14E);
   (0x1E290, 0x1E2AD); (0x1E2C0, 0x1E2EB); (0x1E2F0, 0x1E2F9); (0x1E7E0, 0x1E7E6); (0x1E7E8, 0x1E7EB);
   (0x1E7ED, 0x1E7EE); (0x1E7F0, 0x1E7FE); (0x1E800, 0x1E8C4); (0x1E8C7, 0x1E8CF); (0x1E900, 0x1E943);
   (0x1E94B, 0x1E94B); (0x1E950, 0x1E959); (0x1EC71, 0x1ECAB); (0x1ECAD, 0x1ECAF); (0x1ECB1, 0x1ECB4);
   (0x1ED01, 0x1ED2D); (0x1ED2F, 0x1ED3D); (0x1EE00, 0x1EE03); (0x1EE05, 0x1EE1F); (0x1EE21, 0x1EE22);
   (0x1EE24, 0x1EE24); (0x1EE27, 0x1EE27); (0x1EE29, 0x1EE32); (0x1EE34, 0x1EE37); (0x1EE39, 0x1EE39);
   (0x1EE3B, 0x1EE3B); (0x1EE42, 0x1EE42); (0x1EE47, 0x1EE47); (0x1EE49, 0x1EE49); (0x1EE4B, 0x1EE4B);
   (0x1EE4D, 0x1EE4F); (0x1EE51, 0x1EE52); (0x1EE54, 0x1EE54); (0x1EE57, 0x1EE57); (0x1EE59, 0x1EE59);
   (0x1EE5B, 0x1EE5B); (0x1EE5D, 0x1EE5D); (0x1EE5F, 0x1EE5F); (0x1EE61, 0x1EE62); (0x1EE64, 0x1EE64);
   (0x1EE67, 0x1EE6A); (0x1EE6C, 0x1EE72); (0x1EE74, 0x1EE77); (0x1EE79, 0x1EE7C); (0x1EE7E, 0x1EE7E);
   (0x1EE80, 0x1EE89); (0x1EE8B, 0x1EE9B); (0x1EEA1, 0x1EEA3); (0x1EEA5, 0x1EEA9); (0x1EEAB, 0x1EEBB);
   (0x1F100, 0x1F10C); (0x1FBF0, 0x1FBF9); (0x20000, 0x2A6DF); (0x2A700, 0x2B738); (0x2B740, 0x2B81D);
   (0x2B820, 0x2CEA1); (0x2CEB0, 0x2EBE0); (0x2F800, 0x2FA1D); (0x30000, 0x3134A)]%N.

Definition is_word (c : char) : bool := in_ranges c word_ranges.

(** The characters of the regex class [\d] on [str] patterns, the decimal
    digits of every script ([str.isdecimal]), as ranges of code points, from
    the same version of the character database. *)
Definition digit_ranges : list (N * N) :=
  [(0x30, 0x39); (0x660, 0x669); (0x6F0, 0x6F9); (0x7C0, 0x7C9); (0x966, 0x96F);
   (0x9E6, 0x9EF); (0xA66, 0xA6F); (0xAE6, 0xAEF); (0xB66, 0xB6F); (0xBE6, 0xBEF);
   (0xC66, 0xC6F); (0xCE6, 0xCEF); (0xD66, 0xD6F); (0xDE6, 0xDEF); (0xE50, 0xE59);
   (0xED0, 0xED9); (0xF20, 0xF29); (0x1040, 0x1049); (0x1090, 0x1099); (0x17E0, 0x17E9);
   (0x1810, 0x1819); (0x1946, 0x194F); (0x19D0, 0x19D9); (0x1A80, 0x1A89); (0x1A90, 0x1A99);
   (0x1B50, 0x1B59); (0x1BB0, 0x1BB9); (0x1C40, 0x1C49); (0x1C50, 0x1C59); (0xA620, 0xA629);
   (0xA8D0, 0xA8D9); (0xA900, 0xA909); (0xA9D0, 0xA9D9); (0xA9F0, 0xA9F9); (0xAA50, 0xAA59);
   (0xABF0, 0xABF9); (0xFF10, 0xFF19); (0x104A0, 0x104A9); (0x10D30, 0x10D39); (0x11066, 0x1106F);
   (0x110F0, 0x110F9); (0x11136, 0x1113F); (0x111D0, 0x111D9); (0x112F0, 0x112F9); (0x11450, 0x11459);
   (0x114D0, 0x114D9); (0x11650, 0x11659); (0x116C0, 0x116C9); (0x11730, 0x11739); (0x118E0, 0x118E9);
   (0x11950, 0x11959); (0x11C50, 0x11C59); (0x11D50, 0x11D59); (0x11DA0, 0x11DA9); (0x16A60, 0x16A69);
   (0x16AC0, 0x16AC9); (0x16B50, 0x16B59); (0x1D7CE, 0x1D7FF); (0x1E140, 0x1E149); (0x1E2F0, 0x1E2F9);
   (0x1E950, 0x1E959); (0x1FBF0, 0x1FBF9)]%N.

Definition is_digit (c : char) : bool := in_ranges c digit_ranges.

(** A pattern letter [l] (lowercase ASCII) against a text character under
    [re.IGNORECASE]: both cases, and for [s] the long s U+017F that the
    engine folds to it. *)
Definition ci_letter (l c : char) : bool :=
  ((c =? l) || (c =? l - 32) || (l =? 115) && (c =? 0x17F))%N.

(** [urlsplit(url)]: the parts the extractors read. *)
Record SplitResult := mkSplit {
  scheme : pystr;
  netloc : pystr }.

Definition scheme_char (c : char) : bool :=
  ((48 <=? c) && (c <=? 57) || (65 <=? c) && (c <=? 90) || (97 <=? c) && (c <=? 122)
   || (c =? 43) || (c =? 45) || (c =? 46))%N.

Definition ascii_alpha (c : char) : bool :=
  ((65 <=? c) && (c <=? 90) || (97 <=? c) && (c <=? 122))%N.

(** The longest prefix of [s] whose characters all fail [stop]. *)
Fixpoint take_until (stop : char -> bool) (s : pystr) : pystr :=
  match s with
  | [] => []
  | c :: s' => if stop c then [] else c :: take_until stop s'
  end.

(** [urlsplit]: leading C0 controls and spaces are stripped, tab and
    newline characters removed, the scheme split off at the first colon when
    it is made of scheme characters, and the network location read between
    [//] and the first of [/ ? #].  [None] stands for the [ValueError] of an
    unbalanced square bracket in the network location.  The NFKC check of
    non-ASCII network locations and the validation of a bracketed IPv6
    literal are not modelled: such locations are accepted. *)
Definition urlsplit (url0 : pystr) : option SplitResult :=
  let url := filter (fun c => negb ((c =? 9) || (c =? 10) || (c =? 13))%N)
                    (lstrip_by (fun c => (c <=? 32)%N) url0) in
  let '(sch, rest) :=
    match find url [58%N] 0 with
    | Some (S i') =>
        let i := S i' in
        if ascii_alpha (hd 0%N url) && forallb scheme_char (firstn i url)
        then (lower (firstn i url), skipn (S i) url)
        else ([], url)
    | _ => ([], url)
    end in
  if startswith rest [47; 47]%N then
    let nl := take_until (fun c => char_in c [47; 63; 35]%N) (skipn 2 rest) in
    let has_open := char_in 91%N nl in
    let has_close := char_in 93%N nl in
    if xorb has_open has_close then None
    else Some (mkSplit sch nl)
  else Some (mkSplit sch []).

(** [s.rpartition(sep)[2]]: what follows the last [sep], or all of [s]. *)
Fixpoint after_last (sep : char) (s : pystr) : pystr :=
  match s with
  | [] => []
  | c :: s' =>
      if char_in sep s' then after_last sep s'
      else if (c =? sep)%N then s' else s
  end.

(** [s.partition(sep)[2]]: what follows the first [sep], or nothing. *)
Fixpoint after_first (sep : char) (s : pystr) : pystr :=
  match s with
  | [] => []
  | c :: s' => if (c =? sep)%N then s' else after_first sep s'
  end.

(** [SplitResult.hostname]; [None] when there is no host. *)
Definition hostname (r : SplitResult) : option pystr :=
  let hostinfo := after_last 64%N (netloc r) in
  let host :=
    if char_in 91%N hostinfo
    then take_until (N.eqb 93) (after_first 91%N hostinfo)
    else take_until (N.eqb 58) hostinfo in
  match host with
  | [] => None
  | _ =>
      let name := take_until (N.eqb 37) host in
      Some (lower name ++ skipn (length name) host)
  end.

End Lib.

(* ================================================================== *)
(** * app/core/extractors.py *)
(* ================================================================== *)

(** The two quote characters and the angle, square, round and curly brackets. *)
Definition _WRAPPING_CHARS : pystr := [34; 39; 60; 62; 91; 93; 40; 41; 123; 125]%N.

(** Full stop, comma, semicolon, colon, exclamation and question mark, and
    the ellipsis U+2026. *)
Definition _TRAILING_PUNCT : pystr := [46; 44; 59; 58; 33; 63; 0x2026]%N.

Definition _SHORTENER_DOMAINS : list pystr :=
  List.map lit
    ["bit.ly"; "t.co"; "tinyurl.com"; "goo.gl"; "ow.ly"; "is.gd"; "buff.ly";
     "cutt.ly"; "rebrand.ly"; "shorturl.at"]%string.

(** The class [[^\s<>\]]] of [_URL_RE]. *)
Definition url_body_char (c : char) : bool :=
  negb (is_space c || (c =? 60) || (c =? 62) || (c =? 93))%N.

(** One attempt of [_URL_RE], [(?i)\bhttps?://[^\s<>\]]+], at the head of
    [s], [prev] being the character before it: the length of the match.
    The word boundary holds when [prev] is absent or not a word character,
    the first pattern character being a letter. *)
Definition _URL_RE_match (prev : option char) (s : pystr) : option nat :=
  let boundary := match prev with None => true | Some p => negb (Lib.is_word p) end in
  match s with
  | h :: t1 :: t2 :: p :: rest =>
      if boundary && Lib.ci_letter 104%N h && Lib.ci_letter 116%N t1
         && Lib.ci_letter 116%N t2 && Lib.ci_letter 112%N p
      then
        let '(n, rest') :=
          match rest with
          | c :: rest1 => if Lib.ci_letter 115%N c then (5, rest1) else (4, rest)
          | [] => (4, rest)
          end in
        if startswith rest' [58; 47; 47]%N then
          let body := Lib.take_until (fun c => negb (url_body_char c)) (skipn 3 rest') in
          match body with
          | [] => None
          | _ => Some (n + 3 + length body)
          end
        else None
      else None
  | _ => None
  end.

(** [_URL_RE.finditer(text)]: the spans of the successive matches.  [s] is
    the text from index [i] on, [skip] the number of characters still inside
    the last match. *)
Fixpoint _URL_RE_scan (prev : option char) (s : pystr) (i skip : nat) : list (nat * nat) :=
  match s with
  | [] => []
  | c :: rest =>
      match skip with
      | S k => _URL_RE_scan (Some c) rest (S i) k
      | 0 =>
          match _URL_RE_match prev s with
          | Some n => (i, i + n) :: _URL_RE_scan (Some c) rest (S i) (n - 1)
          | None => _URL_RE_scan (Some c) rest (S i) 0
          end
      end
  end.

Definition _URL_RE_finditer (text : pystr) : list (nat * nat) :=
  _URL_RE_scan None text 0 0.

(** [_strip_balanced_wrappers(s)].  At most one pair can apply, the opening
    characters being distinct, so the iteration order of the set of pairs
    does not show. *)
Definition _strip_balanced_wrappers (s : pystr) : pystr :=
  if length s <? 2 then s
  else
    let pairs := [(40, 41); (91, 93); (123, 125); (60, 62); (34, 34); (39, 39)]%N in
    match List.find (fun lr => startswith s [fst lr] && endswith s [snd lr]) pairs with
    | Some _ => strip (slice s 1 (length s - 1))
    | None => s
    end.

(** [_clean_url(url)]; the empty string rejects the candidate. *)
Definition _clean_url (url : pystr) : pystr :=
  match url with
  | [] => []
  | _ =>
      let s := strip url in
      let s := strip_chars _WRAPPING_CHARS s in
      let s := rstrip_by (fun c => char_in c _TRAILING_PUNCT) s in
      let s := rstrip_by (fun c => char_in c _WRAPPING_CHARS) s in
      let s := _strip_balanced_wrappers s in
      if negb (startswith (lower s) (lit "http://") || startswith (lower s) (lit "https://"))
      then []
      else
        match Lib.urlsplit s with
        | None => []
        | Some parts =>
            match Lib.netloc parts with
            | [] => []
            | _ => s
            end
        end
  end.

(** The loop of [extract_emails]: keep each candidate once, in order of
    first appearance ([seen] holds what [out] holds). *)
Fixpoint unique_in_order (cands : list pystr) (out : list pystr) : list pystr :=
  match cands with
  | [] => out
  | c :: rest =>
      if str_in c out then unique_in_order rest out
      else unique_in_order rest (out ++ [c])
  end.

(** The loop shared by the other three extractors, which skip an empty
    candidate: keep the non-empty candidates, each once, in order of first
    appearance. *)
Fixpoint unique_nonempty (cands : list pystr) (out : list pystr) : list pystr :=
  match cands with
  | [] => out
  | c :: rest =>
      match c with
      | [] => unique_nonempty rest out
      | _ => if str_in c out then unique_nonempty rest out
             else unique_nonempty rest (out ++ [c])
      end
  end.

(** [extract_urls(text)] *)
Definition extract_urls (text : pystr) : list pystr :=
  match text with
  | [] => []
  | _ =>
      unique_nonempty
        (List.map (fun se => _clean_url (slice text (fst se) (snd se))) (_URL_RE_finditer text))
        []
  end.

(** [domain_from_url(url)] *)
Definition domain_from_url (url : pystr) : pystr :=
  match url with
  | [] => []
  | _ =>
      match Lib.urlsplit url with
      | None => []
      | Some parts =>
          let host := lower (strip (match Lib.hostname parts with Some h => h | None => [] end)) in
          match host with
          | [] => []
          | _ =>
              let host := if startswith host (lit "www.") then skipn 4 host else host in
              rstrip_by (N.eqb 46) host
          end
      end
  end.

(** [extract_domains(urls)] *)
Definition extract_domains (urls : list pystr) : list pystr :=
  unique_nonempty (List.map domain_from_url urls) [].

(** [_normalize_phone(s)] *)
Definition _normalize_phone (s : pystr) : pystr :=
  match s with
  | [] => []
  | _ =>
      let s := strip s in
      let plus := startswith s [43%N] in
      let digits := filter Lib.is_digit s in
      if length digits <? 9 then []
      else (if plus then [43%N] else []) ++ digits
  end.

Section Extractors.

(** The matches of [_EMAIL_RE.finditer(text)] and [_PHONE_RE.finditer(text)],
    as the matched substrings in order; the two patterns are run by the
    regex library. *)
Variable _EMAIL_RE_finditer : pystr -> list pystr.
Variable _PHONE_RE_finditer : pystr -> list pystr.

(** [extract_emails(text)] *)
Definition extract_emails (text : pystr) : list pystr :=
  match text with
  | [] => []
  | _ => unique_in_order (List.map lower (_EMAIL_RE_finditer text)) []
  end.

(** [extract_phones(text)] *)
Definition extract_phones (text : pystr) : list pystr :=
  match text with
  | [] => []
  | _ =>
      unique_nonempty
        (List.map (fun raw => _normalize_phone (strip raw)) (_PHONE_RE_finditer text)) []
  end.

(** [extract_all(text)] *)
Definition extract_all (text : pystr) : AnalysisContext.t :=
  let urls := extract_urls text in
  let domains := extract_domains urls in
  let emails := extract_emails text in
  let phones := extract_phones text in
  AnalysisContext.mk urls domains emails phones.

End Extractors.

(** [s.split(sep)] for a one-character separator. *)
Fixpoint split_on (sep : char) (s : pystr) : list pystr :=
  match s with
  | [] => [[]]
  | c :: s' =>
      if (c =? sep)%N then [] :: split_on sep s'
      else match split_on sep s' with
           | p :: ps => (c :: p) :: ps
           | [] => [[c]]
           end
  end.

(** [is_shortener_domain(domain)] *)
Definition is_shortener_domain (domain : pystr) : bool :=
  let d := lower (strip domain) in
  let d := if startswith d (lit "www.") then skipn 4 d else d in
  str_in d _SHORTENER_DOMAINS.

(** [is_punycode_domain(domain)] *)
Definition is_punycode_domain (domain : pystr) : bool :=
  contains (lower domain) (lit "xn--").

(** [subdomain_count(domain)] *)
Definition subdomain_count (domain : pystr) : nat :=
  let d := lower (strip_chars [46%N] domain) in
  match d with
  | [] => 0
  | _ => length (filter (fun p => match p with [] => false | _ => true end) (split_on 46%N d))
  end.

(* ================================================================== *)
(** * Python dictionaries and exceptions *)
(* ================================================================== *)

(** A [dict] with string keys, in insertion order. *)
Module Dict.
Section Dict.
Variable V : Type.

Definition t := list (pystr * V).

(** [d.get(key)] *)
Fixpoint get (d : t) (key : pystr) : option V :=
  match d with
  | [] => None
  | (k, v) :: rest => if str_eqb k key then Some v else get rest key
  end.

(** [d[key] = v]: an existing key keeps its place. *)
Fixpoint set (d : t) (key : pystr) (v : V) : t :=
  match d with
  | [] => [(key, v)]
  | (k, v') :: rest =>
      if str_eqb k key then (k, v) :: rest else (k, v') :: set rest key v
  end.

(** [d.pop(key, None)] *)
Fixpoint pop (d : t) (key : pystr) : t :=
  match d with
  | [] => []
  | (k, v) :: rest => if str_eqb k key then rest else (k, v) :: pop rest key
  end.

Definition keys (d : t) : list pystr := List.map fst d.
Definition values (d : t) : list V := List.map snd d.

End Dict.
End Dict.

(** The outcome of a call that may let an exception escape. *)
Inductive py (A : Type) := Ret (a : A) | Exc.
Arguments Ret {A} a.
Arguments Exc {A}.

(* ================================================================== *)
(** * app/services/cache.py *)
(* ================================================================== *)

(** The cache holds Python values that may be [None]: a stored value is an
    [option].  Time stamps are readings of [time.time()], passed in by the
    caller. *)
Module TTLCache.
Section TTLCache.
Variable A : Type.

Record _Entry := mkEntry {
  value : option A;
  expires_at : Z }.

Record t := mk {
  ttl : Z;
  max_items : nat;
  _data : Dict.t _Entry }.

(** [TTLCache(ttl_seconds, max_items)] *)
Definition init (ttl_seconds max_items : Z) : t :=
  mk (Z.max 1 ttl_seconds) (Z.to_nat (Z.max 50 max_items)) [].

(** [get(key)] at clock reading [now]: the value read and the cache after
    the call.  A missing key, an expired entry and a stored [None] all read
    as [None]. *)
Definition get (c : t) (key : pystr) (now : Z) : option A * t :=
  match Dict.get (_data c) key with
  | None => (None, c)
  | Some ent =>
      if (expires_at ent <=? now)%Z
      then (None, mk (ttl c) (max_items c) (Dict.pop (_data c) key))
      else (value ent, c)
  end.

(** [_purge(now, target_size)] *)
Definition _purge (c : t) (now : Z) (target_size : nat) : t :=
  let live := filter (fun kv => negb (expires_at (snd kv) <=? now)%Z) (_data c) in
  if length live <=? target_size then mk (ttl c) (max_items c) live
  else mk (ttl c) (max_items c) (skipn (length live - target_size) live).

(** [set(key, value)] at clock reading [now]. *)
Definition set (c : t) (key : pystr) (v : option A) (now : Z) : t :=
  let c := if max_items c <=? length (_data c)
           then _purge c now (max_items c / 2) else c in
  mk (ttl c) (max_items c) (Dict.set (_data c) key (mkEntry v (now + ttl c))).

End TTLCache.
End TTLCache.

(* ================================================================== *)
(** * app/services/url_reputation.py *)
(* ================================================================== *)

Module ReputationResult.
Record t := mk {
  domain : pystr;
  malicious : Z;
  suspicious : Z;
  harmless : Z;
  undetected : Z }.
End ReputationResult.

(** What the HTTP exchange of one lookup does. *)
Inductive HttpOutcome :=
| HttpFailure
    (** inside the [try] block an exception is raised: the request fails or
        times out, [raise_for_status()] rejects the status, or the body is
        not JSON *)
| Http404
    (** the status is 404 *)
| HttpStats (malicious suspicious harmless undetected : Z)
    (** a JSON object is returned; the four counts are what
        [int(stats.get(..., 0) or 0)] reads from
        [data.attributes.last_analysis_stats] *)
| HttpUnreadable.
    (** JSON is returned from which the statements after the [try] block
        cannot read the counts: they raise *)

(** What the outside world does during one call of [lookup_domain]: the
    clock reading inside [cache.get], the HTTP exchange if one is made, and
    the clock reading inside [cache.set]. *)
Record Exchange := mkExchange {
  clock_get : Z;
  http : HttpOutcome;
  clock_set : Z }.

Module UrlReputationService.

Record t := mk {
  api_key : pystr;
  enabled : bool;
  cache : TTLCache.t ReputationResult.t }.

(** [UrlReputationService(api_key=..., cache=None)], [env] being the value
    of the environment variable [VT_API_KEY]. *)
Definition init (api_key env : option pystr) : t :=
  let key :=
    match api_key with
    | Some ((_ :: _) as k) => k
    | _ => match env with Some ((_ :: _) as k) => k | _ => [] end
    end in
  mk key (match strip key with [] => false | _ => true end) (TTLCache.init ReputationResult.t 3600 2000).

Definition with_cache (s : t) (c : TTLCache.t ReputationResult.t) : t :=
  mk (api_key s) (enabled s) c.

(** [lookup_domain(domain)]: the outcome and the service after the call. *)
Definition lookup_domain (s : t) (x : Exchange) (domain : pystr)
  : py (option ReputationResult.t) * t :=
  let d := lower (strip domain) in
  match d with
  | [] => (Ret None, s)
  | _ =>
      if negb (enabled s) then (Ret None, s)
      else
        let cache_key := lit "vt:domain:" ++ d in
        let '(cached, c1) := TTLCache.get (cache s) cache_key (clock_get x) in
        match cached with
        | Some r => (Ret (Some r), with_cache s c1)
        | None =>
            match http x with
            | Http404 =>
                (Ret None, with_cache s (TTLCache.set c1 cache_key None (clock_set x)))
            | HttpFailure =>
                (Ret None, with_cache s (TTLCache.set c1 cache_key None (clock_set x)))
            | HttpUnreadable => (Exc, with_cache s c1)
            | HttpStats m su h u =>
                let res := ReputationResult.mk d m su h u in
                (Ret (Some res),
                 with_cache s (TTLCache.set c1 cache_key (Some res) (clock_set x)))
            end
        end
  end.

End UrlReputationService.

(* ================================================================== *)
(** * app/core/rule_engine.py *)
(* ================================================================== *)

(** A call that returns a value or raises an error of type [E]. *)
Inductive result (E A : Type) := Ok (a : A) | Err (e : E).
Arguments Ok {E A} a.
Arguments Err {E A} e.

Definition bind {E A B} (r : result E A) (k : A -> result E B) : result E B :=
  match r with
  | Ok a => k a
  | Err e => Err e
  end.

Notation "x <- r ;; k" := (bind r (fun x => k))
  (at level 61, r at next level, right associativity).

(** Run [f] over a list from left to right, stopping at the first error. *)
Fixpoint map_result {E A B} (f : A -> result E B) (l : list A) : result E (list B) :=
  match l with
  | [] => Ok []
  | a :: rest =>
      b <- f a ;;
      bs <- map_result f rest ;;
      Ok (b :: bs)
  end.

Module Re.
(** A compiled pattern ([re.Pattern]): [finditer text] lists the spans
    [m.span()] of the successive matches in [text]; [m.group(0)] is the text
    between them. *)
Record Pattern := mk { finditer : pystr -> list (nat * nat) }.

(** What a call [re.compile(pattern, flags)] does: it returns the compiled
    pattern, raises [re.error], or raises another exception, such as the
    [OverflowError] of a repetition count beyond the limit or a
    [RecursionError]. *)
Inductive CompileOutcome :=
| Compiled (rx : Pattern)
| error
| OtherException.
End Re.

(** A parsed YAML document, as [yaml.safe_load] returns it. *)
#[warnings="-register-all"]
Inductive Yaml :=
| YNull
| YBool (b : bool)
| YInt (z : Z)
| YStr (s : pystr)
| YList (items : list Yaml)
| YMap (entries : list (Yaml * Yaml)).

(** [RulePackError], one constructor per message. *)
Inductive RulePackError :=
| RulePackNotFound (path : pystr)
| FailedToParseYAML (path : pystr)
| NotATopLevelList (got : Yaml)
| RuleNotAMapping (idx : nat) (got : Yaml)
| InvalidRuleSchema (idx : nat) (id : option Yaml) (e : pystr)
| InvalidRegex (rule_id : pystr) (value : pystr)
| RegexCompilationFailed (rule_id : pystr) (value : pystr)
| NoMatchers (rule_id : pystr).

(** What loading raises: a [RulePackError]; the exception of [re.compile]
    that is no [re.error], since [_compile_rule] catches [re.error] alone
    and the other exception reaches the caller as it is ([value] and [flags]
    are the arguments of the call that raised); or the exception of
    [path.exists()], which [from_yaml] calls outside any handler. *)
Inductive LoadError :=
| PackError (e : RulePackError)
| CompileException (value : pystr) (flags : Z)
| PathException (path : pystr).

(** [_FLAG_MAP.get(key, 0)], with [re.IGNORECASE = 2], [re.MULTILINE = 8]
    and [re.DOTALL = 16]. *)
Definition _FLAG_MAP_get (key : pystr) : Z :=
  if str_eqb key (lit "i") then 2
  else if str_eqb key (lit "m") then 8
  else if str_eqb key (lit "s") then 16
  else 0.

(** [_compile_flags(flags)] *)
Definition _compile_flags (flags : option pystr) : Z :=
  match flags with
  | None => Z.lor 2 8
  | Some fl => fold_left (fun value ch => Z.lor value (_FLAG_MAP_get (lower [ch]))) fl 0%Z
  end.

(** [_snippet(text, start, end, window=48)] *)
Definition _snippet (text : pystr) (start end_ : nat) : pystr :=
  let window := 48 in
  let left := Nat.max 0 (start - window) in
  let right := Nat.min (length text) (end_ + window) in
  let prefix := if 0 <? left then [0x2026%N] else [] in
  let suffix := if right <? length text then [0x2026%N] else [] in
  prefix ++ slice text left right ++ suffix.

Record _CompiledPattern := mkCompiledPattern {
  cp_raw : RulePattern.t;
  cp_kind : PatternType.t;
  cp_keyword : option pystr;
  cp_regex : option Re.Pattern }.

Record _CompiledRule := mkCompiledRule {
  cr_rule : Rule.t;
  cr_match_mode : MatchMode;
  cr_patterns : list _CompiledPattern }.

Record RuleEngine := mkRuleEngine {
  _rules : list Rule.t;
  _max_evidence_per_rule : nat;
  _compiled : list _CompiledRule;
  _reputation : UrlReputationService.t }.

(** ** Loading and compiling *)

Section Loading.

(** [re.compile(pattern, flags)] *)
Variable re_compile : pystr -> Z -> Re.CompileOutcome.

(** [Rule.model_validate(item)] on a YAML mapping: the rule, or the
    validation error. *)
Variable Rule_model_validate : list (Yaml * Yaml) -> result pystr Rule.t.

(** [path.exists()], which raises on an [OSError] that it does not take
    for absence, such as a directory on the way that may not be searched;
    and [yaml.safe_load(path.read_text(...))], with [None] when reading or
    parsing raises. *)
Variable path_exists : pystr -> py bool.
Variable load_yaml : pystr -> option Yaml.

(** The environment variable [VT_API_KEY]. *)
Variable VT_API_KEY : option pystr.

(** The patterns [_compile_rule] collects from [rule.when]. *)
Definition effective_patterns (rule : Rule.t) : list RulePattern.t :=
  let w := Rule.when rule in
  flat_map (fun kw => match strip kw with
                      | [] => []
                      | k => [RulePattern.mk PatternType.keyword k None (Some (lit "keyword"))]
                      end) (RuleWhen.any_keywords w)
  ++ flat_map (fun rg => match strip rg with
                         | [] => []
                         | r => [RulePattern.mk PatternType.regex r None (Some (lit "regex"))]
                         end) (RuleWhen.regex w)
  ++ RuleWhen.patterns w.

(** The body of the loop of [_compile_rule] over the patterns. *)
Definition compile_pattern (rule : Rule.t) (p : RulePattern.t)
  : result LoadError _CompiledPattern :=
  match RulePattern.type p with
  | PatternType.keyword =>
      Ok (mkCompiledPattern p PatternType.keyword (Some (lower (RulePattern.value p))) None)
  | PatternType.regex =>
      let flags := _compile_flags (RulePattern.flags p) in
      match re_compile (RulePattern.value p) flags with
      | Re.Compiled rx => Ok (mkCompiledPattern p PatternType.regex None (Some rx))
      | Re.error => Err (PackError (InvalidRegex (Rule.id rule) (RulePattern.value p)))
      | Re.OtherException => Err (CompileException (RulePattern.value p) flags)
      end
  end.

(** [_compile_rule(rule)] *)
Definition _compile_rule (rule : Rule.t) : result LoadError _CompiledRule :=
  compiled <- map_result (compile_pattern rule) (effective_patterns rule) ;;
  match compiled with
  | [] => Err (PackError (NoMatchers (Rule.id rule)))
  | _ => Ok (mkCompiledRule rule (RuleWhen.match_ (Rule.when rule)) compiled)
  end.

(** [RuleEngine(rules, max_evidence_per_rule=...)] *)
Definition RuleEngine_init (rules : list Rule.t) (max_evidence_per_rule : Z)
  : result LoadError RuleEngine :=
  let rules := filter Rule.enabled rules in
  let cap := Z.to_nat (Z.max 1 max_evidence_per_rule) in
  compiled <- map_result _compile_rule rules ;;
  Ok (mkRuleEngine rules cap compiled (UrlReputationService.init None VT_API_KEY)).

(** [item.get('id')] *)
Fixpoint yaml_get (entries : list (Yaml * Yaml)) (key : pystr) : option Yaml :=
  match entries with
  | [] => None
  | (YStr k, v) :: rest => if str_eqb k key then Some v else yaml_get rest key
  | _ :: rest => yaml_get rest key
  end.

(** The loop of [from_yaml] over the entries of the document. *)
Fixpoint validate_items (idx : nat) (items : list Yaml) : result RulePackError (list Rule.t) :=
  match items with
  | [] => Ok []
  | item :: rest =>
      match item with
      | YMap entries =>
          match Rule_model_validate entries with
          | Err e => Err (InvalidRuleSchema idx (yaml_get entries (lit "id")) e)
          | Ok r =>
              rs <- validate_items (S idx) rest ;;
              Ok (r :: rs)
          end
      | _ => Err (RuleNotAMapping idx item)
      end
  end.

(** The check after construction: a regex pattern without a compiled regex. *)
Definition first_uncompiled (compiled : list _CompiledRule) : option RulePackError :=
  List.find (fun _ => true)
    (flat_map (fun cr =>
       flat_map (fun cp =>
         match cp_kind cp, cp_regex cp with
         | PatternType.regex, None =>
             [RegexCompilationFailed (Rule.id (cr_rule cr)) (RulePattern.value (cp_raw cp))]
         | _, _ => []
         end) (cr_patterns cr)) compiled).

(** [RuleEngine.from_yaml(path, max_evidence_per_rule=...)]; PyYAML is
    installed. *)
Definition from_yaml (path : pystr) (max_evidence_per_rule : Z)
  : result LoadError RuleEngine :=
  match path_exists path with
  | Exc => Err (PathException path)
  | Ret false => Err (PackError (RulePackNotFound path))
  | Ret true =>
      match load_yaml path with
      | None => Err (PackError (FailedToParseYAML path))
      | Some (YList items) =>
          match validate_items 0 items with
          | Err e => Err (PackError e)
          | Ok rules =>
              engine <- RuleEngine_init rules max_evidence_per_rule ;;
              match first_uncompiled (_compiled engine) with
              | Some e => Err (PackError e)
              | None => Ok engine
              end
          end
      | Some raw => Err (PackError (NotATopLevelList raw))
      end
  end.

End Loading.

(** ** Matching *)

(** [_to_hit(rule, evidence)] *)
Definition _to_hit (rule : Rule.t) (evidence : list Evidence.t) : RuleHit.t :=
  RuleHit.mk (Rule.id rule) (Rule.title rule) (Rule.weight rule) (Rule.severity rule)
             (Rule.action rule) (Rule.explain rule) (Rule.tags rule) evidence.

(** The [while True] loop of [_find_keyword]: [remaining] is
    [max_per_keyword - count], which bounds the iterations left. *)
Fixpoint _find_keyword_loop (remaining : nat) (text haystack needle : pystr)
    (label : option pystr) (pattern : pystr) (start : nat) : list Evidence.t :=
  match remaining with
  | 0 => []
  | S remaining' =>
      match find haystack needle start with
      | None => []
      | Some idx =>
          let end_ := idx + length needle in
          Evidence.mk PatternType.keyword pattern (slice text idx end_) idx end_
                      (_snippet text idx end_) label
          :: _find_keyword_loop remaining' text haystack needle label pattern end_
      end
  end.

(** [_find_keyword(text, haystack, needle, label=..., pattern=...)], with
    [max_per_keyword = 8]. *)
Definition _find_keyword (text haystack needle : pystr) (label : option pystr)
    (pattern : pystr) : list Evidence.t :=
  match needle with
  | [] => []
  | _ => _find_keyword_loop 8 text haystack needle label pattern 0
  end.

(** The loop of [_find_regex] over the matches, [out] being the evidence
    appended so far. *)
Fixpoint _find_regex_loop (max_per_regex : nat) (text : pystr) (spans : list (nat * nat))
    (label : option pystr) (pattern : pystr) (out : list Evidence.t) : list Evidence.t :=
  match spans with
  | [] => out
  | (s, e) :: rest =>
      if s =? e then _find_regex_loop max_per_regex text rest label pattern out
      else
        let out := out ++ [Evidence.mk PatternType.regex pattern (slice text s e) s e
                                       (_snippet text s e) label] in
        if max_per_regex <=? length out then out
        else _find_regex_loop max_per_regex text rest label pattern out
  end.

(** [_find_regex(text, rx, label=..., pattern=...)], with [max_per_regex = 10]. *)
Definition _find_regex (text : pystr) (rx : Re.Pattern) (label : option pystr)
    (pattern : pystr) : list Evidence.t :=
  _find_regex_loop 10 text (Re.finditer rx text) label pattern [].

(** [_match_one(cp, text, haystack)]; the two assertions hold for every
    pattern [_compile_rule] builds, and a pattern that breaks them yields
    nothing here. *)
Definition _match_one (cp : _CompiledPattern) (text haystack : pystr) : list Evidence.t :=
  match cp_kind cp with
  | PatternType.keyword =>
      match cp_keyword cp with
      | Some kw => _find_keyword text haystack kw (RulePattern.label (cp_raw cp))
                                 (RulePattern.value (cp_raw cp))
      | None => []
      end
  | PatternType.regex =>
      match cp_regex cp with
      | Some rx => _find_regex text rx (RulePattern.label (cp_raw cp))
                               (RulePattern.value (cp_raw cp))
      | None => []
      end
  end.

(** The state of the [all] loop of [match]: the flag [ok], the evidence
    collected, and the patterns handed to [_match_one] so far. *)
Record AllRun := mkAllRun {
  all_ok : bool;
  all_evidence : list Evidence.t;
  all_tested : list _CompiledPattern }.

(** The [all] branch of [match]: the loop over [cr.patterns]. *)
Fixpoint match_all_loop (cap : nat) (cps : list _CompiledPattern) (text haystack : pystr)
    (evidence : list Evidence.t) (tested : list _CompiledPattern) : AllRun :=
  match cps with
  | [] => mkAllRun true evidence tested
  | cp :: rest =>
      let tested := tested ++ [cp] in
      match _match_one cp text haystack with
      | [] => mkAllRun false evidence tested
      | ev0 :: _ =>
          let evidence := evidence ++ [ev0] in
          if cap <=? length evidence then mkAllRun true evidence tested
          else match_all_loop cap rest text haystack evidence tested
      end
  end.

(** The inner loop of the [any] branch: append until the cap is reached. *)
Fixpoint append_until_cap (cap : nat) (evs evidence : list Evidence.t) : list Evidence.t :=
  match evs with
  | [] => evidence
  | ev :: rest =>
      let evidence := evidence ++ [ev] in
      if cap <=? length evidence then evidence
      else append_until_cap cap rest evidence
  end.

(** The [any] branch of [match]: the loop over [cr.patterns]. *)
Fixpoint match_any_loop (cap : nat) (cps : list _CompiledPattern) (text haystack : pystr)
    (evidence : list Evidence.t) : list Evidence.t :=
  match cps with
  | [] => evidence
  | cp :: rest =>
      let evidence := append_until_cap cap (_match_one cp text haystack) evidence in
      if cap <=? length evidence then evidence
      else match_any_loop cap rest text haystack evidence
  end.

(** One iteration of the loop of [match] over the compiled rules: the hit
    the rule adds, if any. *)
Definition match_rule (cap : nat) (cr : _CompiledRule) (text haystack : pystr)
  : option RuleHit.t :=
  match cr_match_mode cr with
  | match_all =>
      let run := match_all_loop cap (cr_patterns cr) text haystack [] [] in
      match all_ok run, all_evidence run with
      | true, _ :: _ => Some (_to_hit (cr_rule cr) (all_evidence run))
      | _, _ => None
      end
  | match_any =>
      match match_any_loop cap (cr_patterns cr) text haystack [] with
      | [] => None
      | evidence => Some (_to_hit (cr_rule cr) evidence)
      end
  end.

(** Part 1 of [match]: the hits of the YAML rules. *)
Definition yaml_hits (engine : RuleEngine) (text haystack : pystr) : list RuleHit.t :=
  flat_map (fun cr =>
              match match_rule (_max_evidence_per_rule engine) cr text haystack with
              | Some h => [h]
              | None => []
              end) (_compiled engine).

(** ** Context rules *)

(** The two loops of [_evidence_for_any_token]: the first non-empty token
    whose lowercase form occurs in the haystack, with the index found. *)
Fixpoint first_located (haystack : pystr) (tokens : list pystr) : option (nat * pystr) :=
  match tokens with
  | [] => None
  | [] :: rest => first_located haystack rest
  | u :: rest =>
      match find haystack (lower u) 0 with
      | Some idx => Some (idx, u)
      | None => first_located haystack rest
      end
  end.

(** [_evidence_for_any_token(text, haystack, urls, domains, kind=kind)] *)
Definition _evidence_for_any_token (text haystack : pystr) (urls domains : list pystr)
    (kind : PatternType.t) : option Evidence.t :=
  match first_located haystack urls with
  | Some (idx, u) =>
      let end_ := idx + length u in
      Some (Evidence.mk kind (lit "context:url") (slice text idx end_) idx end_
                        (_snippet text idx end_) (Some (lit "url")))
  | None =>
      match first_located haystack domains with
      | Some (idx, d) =>
          let end_ := idx + length d in
          Some (Evidence.mk kind (lit "context:domain") (slice text idx end_) idx end_
                            (_snippet text idx end_) (Some (lit "domain")))
      | None => None
      end
  end.

(** The shape shared by the three artifact rules: a hit when some domain
    passes the test and a span can be located. *)
Definition artifact_hit (text haystack : pystr) (ctx : AnalysisContext.t)
    (test : pystr -> bool) (mk_hit : list Evidence.t -> RuleHit.t) : list RuleHit.t :=
  match filter test (AnalysisContext.domains ctx) with
  | [] => []
  | selected =>
      match _evidence_for_any_token text haystack (AnalysisContext.urls ctx) selected
                                    PatternType.keyword with
      | Some ev => [mk_hit [ev]]
      | None => []
      end
  end.

Definition CTX_URL_SHORTENER : pystr := lit "CTX-URL-SHORTENER".
Definition CTX_URL_PUNYCODE : pystr := lit "CTX-URL-PUNYCODE".
Definition CTX_URL_SUBDOMAINS : pystr := lit "CTX-URL-SUBDOMAINS".
Definition CTX_URL_REPUTATION : pystr := lit "CTX-URL-REPUTATION".

Definition shortener_hit (evidence : list Evidence.t) : RuleHit.t :=
  RuleHit.mk CTX_URL_SHORTENER (lit "URL shortener detected") 14 high block
    (lit "Shortened URLs hide the real destination and are commonly used in phishing.")
    [lit "links"; lit "context"] evidence.

Definition punycode_hit (evidence : list Evidence.t) : RuleHit.t :=
  RuleHit.mk CTX_URL_PUNYCODE (lit "Punycode/IDN domain detected") 12 high block
    (lit "Punycode domains (xn--) can be used for lookalike attacks via international characters.")
    [lit "links"; lit "context"] evidence.

Definition subdomains_hit (evidence : list Evidence.t) : RuleHit.t :=
  RuleHit.mk CTX_URL_SUBDOMAINS (lit "Suspiciously deep subdomain chain") 10 medium
    verify_out_of_band
    (lit "Very deep subdomain chains are often used to impersonate trusted domains.")
    [lit "links"; lit "context"] evidence.

Definition reputation_hit (weight : Z) (evidence : list Evidence.t) : RuleHit.t :=
  RuleHit.mk CTX_URL_REPUTATION (lit "Domain flagged by reputation service") weight high block
    (lit "External reputation service reports this domain as malicious/suspicious.")
    [lit "links"; lit "intel"; lit "context"] evidence.

(** The loop of the reputation rule over [ctx.domains]; [env k] is what the
    world does during the [k]-th lookup.  An exception of a lookup escapes. *)
Fixpoint lookup_flagged (s : UrlReputationService.t) (env : nat -> Exchange) (k : nat)
    (domains : list pystr) (flagged : list ReputationResult.t)
  : py (list ReputationResult.t) * UrlReputationService.t :=
  match domains with
  | [] => (Ret flagged, s)
  | d :: rest =>
      match UrlReputationService.lookup_domain s (env k) d with
      | (Exc, s') => (Exc, s')
      | (Ret res, s') =>
          let flagged :=
            match res with
            | Some r =>
                if ((ReputationResult.malicious r >? 0) || (ReputationResult.suspicious r >? 0))%Z
                then flagged ++ [r] else flagged
            | None => flagged
            end in
          lookup_flagged s' env (S k) rest flagged
      end
  end.

(** [(a.malicious, a.suspicious) < (b.malicious, b.suspicious)] *)
Definition reputation_key_lt (a b : ReputationResult.t) : bool :=
  ((ReputationResult.malicious a <? ReputationResult.malicious b)
   || (ReputationResult.malicious a =? ReputationResult.malicious b)
      && (ReputationResult.suspicious a <? ReputationResult.suspicious b))%Z.

(** [sorted(flagged, key=..., reverse=True)[0]]: the sort is stable, so the
    head is the first element that carries the greatest key. *)
Fixpoint top_flagged (best : ReputationResult.t) (rest : list ReputationResult.t)
  : ReputationResult.t :=
  match rest with
  | [] => best
  | r :: rest' => if reputation_key_lt best r then top_flagged r rest' else top_flagged best rest'
  end.

(** The reputation rule of [_context_hits]. *)
Definition reputation_hits (s : UrlReputationService.t) (env : nat -> Exchange)
    (text haystack : pystr) (ctx : AnalysisContext.t)
  : py (list RuleHit.t) * UrlReputationService.t :=
  if UrlReputationService.enabled s then
    match lookup_flagged s env 0 (AnalysisContext.domains ctx) [] with
    | (Exc, s') => (Exc, s')
    | (Ret [], s') => (Ret [], s')
    | (Ret (f :: fs), s') =>
        let top := top_flagged f fs in
        match _evidence_for_any_token text haystack (AnalysisContext.urls ctx)
                                      [ReputationResult.domain top] PatternType.keyword with
        | Some ev =>
            let weight := if (ReputationResult.malicious top >? 0)%Z then 25%Z else 18%Z in
            (Ret [reputation_hit weight [ev]], s')
        | None => (Ret [], s')
        end
    end
  else (Ret [], s).

(** The three artifact rules of [_context_hits], in order. *)
Definition artifact_hits (text haystack : pystr) (ctx : AnalysisContext.t) : list RuleHit.t :=
  artifact_hit text haystack ctx is_shortener_domain shortener_hit
  ++ artifact_hit text haystack ctx is_punycode_domain punycode_hit
  ++ artifact_hit text haystack ctx (fun d => 5 <=? subdomain_count d) subdomains_hit.

(** [_context_hits(text, haystack, ctx)] *)
Definition _context_hits (s : UrlReputationService.t) (env : nat -> Exchange)
    (text haystack : pystr) (ctx : AnalysisContext.t)
  : py (list RuleHit.t) * UrlReputationService.t :=
  let out := artifact_hits text haystack ctx in
  match reputation_hits s env text haystack ctx with
  | (Exc, s') => (Exc, s')
  | (Ret rep, s') => (Ret (out ++ rep), s')
  end.

(** [RuleEngine.match(text, ctx)]: the hits, or the escaping exception, and
    the reputation service after the call. *)
Definition match_ (engine : RuleEngine) (env : nat -> Exchange) (text : pystr)
    (ctx : option AnalysisContext.t) : py (list RuleHit.t) * UrlReputationService.t :=
  match text with
  | [] => (Ret [], _reputation engine)
  | _ =>
      let haystack := normalize_for_matching text in
      let hits := yaml_hits engine text haystack in
      match ctx with
      | None => (Ret hits, _reputation engine)
      | Some ctx =>
          match _context_hits (_reputation engine) env text haystack ctx with
          | (Exc, s') => (Exc, s')
          | (Ret more, s') => (Ret (hits ++ more), s')
          end
      end
  end.

(* ================================================================== *)
(** * app/core/scoring.py *)
(* ================================================================== *)

(** [round(x)] on a float: to the nearest integer, a tie to the even one.
    Floats are read as the real numbers they stand for. *)
Definition py_round (x : R) : Z :=
  let f := Int_part x in
  let d := frac_part x in
  if Rlt_dec d (1 / 2) then f
  else if Rlt_dec (1 / 2) d then (f + 1)%Z
  else if Z.even f then f else (f + 1)%Z.

(** The value [100 * (1 - math.exp(-raw_points / 35))]. *)
Definition saturation (raw_points : Z) : R :=
  100 * (1 - exp (- IZR raw_points / 35)).

(** [normalize_score(raw_points)] *)
Definition normalize_score (raw_points : Z) : Z :=
  let raw_points := Z.max 0 raw_points in
  let score := py_round (saturation raw_points) in
  Z.max 0 (Z.min 100 score).

(** [severity_from_score(score)] *)
Definition severity_from_score (score : Z) : Severity :=
  if (70 <=? score)%Z then high
  else if (30 <=? score)%Z then medium
  else low.

Definition _ACTION_PRIORITY (a : Action) : Z :=
  match a with
  | allow => 0
  | report => 1
  | verify_out_of_band => 2
  | block => 3
  end.

(** The [base] table of [choose_action]. *)
Definition base_action (score_severity : Severity) : Action :=
  match score_severity with
  | low => allow
  | medium => verify_out_of_band
  | high => block
  end.

(** [choose_action(score_severity, hits)] *)
Definition choose_action (score_severity : Severity) (hits : list RuleHit.t) : Action :=
  let base := base_action score_severity in
  let top :=
    fold_left (fun top h =>
                 if (_ACTION_PRIORITY (RuleHit.action h) >? _ACTION_PRIORITY top)%Z
                 then RuleHit.action h else top) hits base in
  if (_ACTION_PRIORITY top >=? _ACTION_PRIORITY base)%Z then top else base.

(** [recommendations(action, severity)] *)
Definition recommendations (action : Action) (severity : Severity) : list pystr :=
  match action with
  | block => [lit "block"; lit "report"]
  | verify_out_of_band => [lit "verify_out_of_band"; lit "report_if_confirmed"]
  | report => [lit "report"; lit "educate_user"]
  | allow => [lit "allow"; lit "educate_user"]
  end.

(** [key in seen] for the keys [(start, end, rule_id)] of [build_highlights]. *)
Definition highlight_seen (start end_ : nat) (rule_id : pystr) (out : list TextHighlight.t) : bool :=
  existsb (fun x => (TextHighlight.start x =? start) && (TextHighlight.end_ x =? end_)
                    && str_eqb (TextHighlight.rule_id x) rule_id) out.

(** [(a.start, a.end) <= (b.start, b.end)] *)
Definition highlight_key_le (a b : TextHighlight.t) : bool :=
  (TextHighlight.start a <? TextHighlight.start b)
  || (TextHighlight.start a =? TextHighlight.start b)
     && (TextHighlight.end_ a <=? TextHighlight.end_ b).

(** [list.sort(key=...)] is stable; so is insertion after the elements that
    compare equal. *)
Fixpoint insert_highlight (x : TextHighlight.t) (sorted : list TextHighlight.t)
  : list TextHighlight.t :=
  match sorted with
  | [] => [x]
  | y :: rest => if highlight_key_le y x then y :: insert_highlight x rest else x :: y :: rest
  end.

Definition sort_highlights (l : list TextHighlight.t) : list TextHighlight.t :=
  fold_left (fun sorted x => insert_highlight x sorted) l [].

(** [build_highlights(hits)] *)
Definition build_highlights (hits : list RuleHit.t) : list TextHighlight.t :=
  let out :=
    fold_left (fun out h =>
      fold_left (fun out ev =>
        if highlight_seen (Evidence.start ev) (Evidence.end_ ev) (RuleHit.rule_id h) out
        then out
        else out ++ [TextHighlight.mk (Evidence.start ev) (Evidence.end_ ev)
                                      (RuleHit.rule_id h) (RuleHit.title h)])
        (RuleHit.evidence h) out) hits [] in
  sort_highlights out.

Definition _SEVERITY_ORDER (s : Severity) : Z :=
  match s with
  | low => 0
  | medium => 1
  | high => 2
  end.

(** [_max_severity(hits)] *)
Definition _max_severity (hits : list RuleHit.t) : Severity :=
  fold_left (fun top h =>
               if (_SEVERITY_ORDER (RuleHit.severity h) >? _SEVERITY_ORDER top)%Z
               then RuleHit.severity h else top) hits low.

(** The dictionary [unique] of [score_to_result] and its values. *)
Definition unique_hits (hits : list RuleHit.t) : list RuleHit.t :=
  Dict.values (fold_left (fun unique h => Dict.set unique (RuleHit.rule_id h) h) hits []).

(** [raw_points] of [score_to_result]. *)
Definition raw_points (hits : list RuleHit.t) : Z :=
  fold_left Z.add (List.map RuleHit.weight (unique_hits hits)) 0%Z.

(** [sev] of [score_to_result]: the severity by score, raised by the hits. *)
Definition final_severity (score : Z) (unique : list RuleHit.t) : Severity :=
  let sev_by_score := severity_from_score score in
  let sev_by_hits := _max_severity unique in
  if (_SEVERITY_ORDER sev_by_hits >? _SEVERITY_ORDER sev_by_score)%Z
  then sev_by_hits else sev_by_score.

(** [score_to_result(hits)] *)
Definition score_to_result (hits : list RuleHit.t) : AnalysisResult.t :=
  let unique := unique_hits hits in
  let score := normalize_score (raw_points hits) in
  let sev := final_severity score unique in
  let act := choose_action sev unique in
  AnalysisResult.mk score sev act (recommendations act sev) unique (build_highlights unique).

(* ================================================================== *)
(** * app/core/analyzer.py *)
(* ================================================================== *)

(** A field read for its truth value: [None] and the empty string are false. *)
Definition truthy (f : option pystr) : option pystr :=
  match f with
  | Some (_ :: _) => f
  | _ => None
  end.

(** [_join_message_parts(subject=..., body=..., ...)] *)
Definition _join_message_parts (subject body from_email reply_to headers_raw : option pystr)
    (attachments : option (list pystr)) : pystr :=
  let part prefix f := match truthy f with Some s => [lit prefix ++ s] | None => [] end in
  let parts :=
    part "Subject: "%string subject
    ++ part "From: "%string from_email
    ++ part "Reply-To: "%string reply_to
    ++ match truthy headers_raw with Some h => [lit "Headers:"; h] | None => [] end
    ++ match truthy body with Some b => [lit "Body:"; b] | None => [] end
    ++ match attachments with
       | Some ((_ :: _) as fns) =>
           lit "Attachments:"
           :: flat_map (fun fn => match fn with [] => [] | _ => [lit "- " ++ fn] end) fns
       | _ => []
       end in
  strip (join [10%N] parts).

Module Analyzer.
Section Analyzer.

Variable _EMAIL_RE_finditer : pystr -> list pystr.
Variable _PHONE_RE_finditer : pystr -> list pystr.

Record t := mk { engine : RuleEngine }.

(** [Analyzer.analyze(subject=..., ...)]: the result, or the exception that
    escapes, and the reputation service after the call. *)
Definition analyze (a : t) (env : nat -> Exchange)
    (subject body from_email reply_to headers_raw : option pystr)
    (attachments : option (list pystr))
  : py AnalysisResult.t * UrlReputationService.t :=
  let text := _join_message_parts subject body from_email reply_to headers_raw attachments in
  let ctx := extract_all _EMAIL_RE_finditer _PHONE_RE_finditer text in
  match match_ (engine a) env text (Some ctx) with
  | (Exc, s') => (Exc, s')
  | (Ret hits, s') => (Ret (score_to_result hits), s')
  end.

End Analyzer.
End Analyzer.
(* ================================================================== *)
(** * app/api/schemas.py, app/api/routes.py *)
(* ================================================================== *)

Module AttachmentMeta.
Record t := mk {
  filename : pystr;
  size_bytes : option Z }.
End AttachmentMeta.

(** A request whose fields have passed the field validators: [subject] and
    [body] are strings, [_coerce_text] having replaced [None] by the empty
    string. *)
Module AnalyzeRequest.
Record t := mk {
  subject : pystr;
  body : pystr;
  from_email : option pystr;
  reply_to : option pystr;
  headers_raw : option pystr;
  attachments : list AttachmentMeta.t }.

(** [bool(s)] for a string. *)
Definition nonempty (s : pystr) : bool := match s with [] => false | _ => true end.

(** [_require_some_content]: the model validator accepts the request. *)
Definition _require_some_content (r : t) : bool :=
  let has_text :=
    nonempty (strip (subject r)) || nonempty (strip (body r))
    || nonempty (strip (match headers_raw r with Some h => h | None => [] end)) in
  let has_attachments := match attachments r with [] => false | _ => true end in
  has_text || has_attachments.
End AnalyzeRequest.

Section Routes.

Variable _EMAIL_RE_finditer : pystr -> list pystr.
Variable _PHONE_RE_finditer : pystr -> list pystr.

(** [analyze(payload)] of the router, [a] being the analyzer that
    [get_analyzer()] returns.  The response carries the fields of the
    result. *)
Definition analyze_route (a : Analyzer.t) (env : nat -> Exchange) (payload : AnalyzeRequest.t)
  : py AnalysisResult.t * UrlReputationService.t :=
  Analyzer.analyze _EMAIL_RE_finditer _PHONE_RE_finditer a env
    (Some (AnalyzeRequest.subject payload))
    (Some (AnalyzeRequest.body payload))
    (AnalyzeRequest.from_email payload)
    (AnalyzeRequest.reply_to payload)
    (AnalyzeRequest.headers_raw payload)
    (Some (List.map AttachmentMeta.filename (AnalyzeRequest.attachments payload))).

End Routes.

(* ================================================================== *)
(** * Example inputs *)
(* ================================================================== *)

(** The text of [test_extract_urls_trims_punctuation_and_wrappers]; the
    character 34 is the double quote. *)
Definition url_example_text : pystr :=
  lit "Click (https://example.com/path?a=1), then " ++ [34%N]
  ++ lit "https://x.com/abc" ++ [34%N] ++ lit "...".

(** A rule with one keyword, and a message body that starts with the
    capital dotted I, U+0130. *)
Definition pay_rule : Rule.t :=
  Rule.mk (lit "KW-PAY") (lit "Payment request") 10 medium
          (RuleWhen.mk match_any [lit "pay"] [] []) (lit "Asks for a payment.")
          report [] true.

Definition dotted_body : pystr := [0x130%N] ++ lit " pay".

(** An engine with no rule and no reputation key. *)
Definition bare_engine : RuleEngine :=
  mkRuleEngine [] 20 [] (UrlReputationService.init None None).

(** A world in which every lookup fails, at clock reading 0. *)
Definition failing_world : nat -> Exchange := fun _ => mkExchange 0 HttpFailure 0.

(** A world in which every lookup is answered with a body that lacks the
    expected shape, a JSON array for one, at clock reading 0. *)
Definition unreadable_world : nat -> Exchange := fun _ => mkExchange 0 HttpUnreadable 0.


(* ================================================================== *)
(** * Vocabulary of the properties *)
(* ================================================================== *)

(** A field of the analysis entry point that is [None] or empty. *)
Definition empty_field (f : option pystr) : Prop := f = None \/ f = Some [].

(** An attachment list that is [None] or empty. *)
Definition no_attachments (a : option (list pystr)) : Prop := a = None \/ a = Some [].

(** [sum(h.weight for h in hits)] *)
Definition total_weight (hits : list RuleHit.t) : Z :=
  fold_left Z.add (List.map RuleHit.weight hits) 0%Z.

(** The number of hits that carry the rule id [id]. *)
Definition hits_with_id (id : pystr) (hits : list RuleHit.t) : nat :=
  length (filter (fun h => str_eqb (RuleHit.rule_id h) id) hits).

(** The last hit of the sequence that carries the rule id [id]. *)
Fixpoint last_with_id (id : pystr) (hits : list RuleHit.t) : option RuleHit.t :=
  match hits with
  | [] => None
  | h :: rest =>
      match last_with_id id rest with
      | Some h' => Some h'
      | None => if str_eqb (RuleHit.rule_id h) id then Some h else None
      end
  end.


(** The dictionary [unique] of [score_to_result] after the loop has run
    over [hits] from the dictionary [d0]. *)
Definition unique_dict (hits : list RuleHit.t) (d0 : Dict.t RuleHit.t) : Dict.t RuleHit.t :=
  fold_left (fun unique h => Dict.set unique (RuleHit.rule_id h) h) hits d0.

(** Every hit is filed under its own rule id. *)
Definition keyed (d : Dict.t RuleHit.t) : Prop :=
  Forall (fun kv => RuleHit.rule_id (snd kv) = fst kv) d.


(** [needle] occurs in [hay] at index [i]. *)
Definition occurs_at (hay needle : pystr) (i : nat) : Prop :=
  i + length needle <= length hay /\ slice hay i (i + length needle) = needle.

(** The pattern matches the text at least once: a keyword occurs in the
    haystack, a regex has a match that is not empty. *)
Definition pattern_occurs (cp : _CompiledPattern) (text haystack : pystr) : Prop :=
  match cp_kind cp with
  | PatternType.keyword =>
      exists kw i, cp_keyword cp = Some kw /\ kw <> [] /\ occurs_at haystack kw i
  | PatternType.regex =>
      exists rx s e, cp_regex cp = Some rx /\ In (s, e) (Re.finditer rx text) /\ s <> e
  end.

(** A rule in [all] mode with twenty-one keywords: twenty times [a], then
    [b]; and the rule as [_compile_rule] compiles it. *)
Definition long_all_rule : Rule.t :=
  Rule.mk (lit "ALL-21") (lit "Twenty-one keywords") 10 low
          (RuleWhen.mk match_all (repeat (lit "a") 20 ++ [lit "b"]) [] [])
          (lit "Every keyword must occur.") allow [] true.

Definition long_all_compiled : _CompiledRule :=
  mkCompiledRule long_all_rule match_all
    (List.map (fun kw => mkCompiledPattern
                           (RulePattern.mk PatternType.keyword kw None (Some (lit "keyword")))
                           PatternType.keyword (Some kw) None)
              (repeat (lit "a") 20 ++ [lit "b"])).


(** [ev] is the first evidence the pattern yields on the text. *)
Definition first_of (text haystack : pystr) (cp : _CompiledPattern) (ev : Evidence.t) : Prop :=
  exists rest, _match_one cp text haystack = ev :: rest.


(** The entries of a rule pack validate, in order, to the rules [rules]. *)
Definition validated (validate : list (Yaml * Yaml) -> result pystr Rule.t)
    (items : list Yaml) (rules : list Rule.t) : Prop :=
  Forall2 (fun item r => exists entries, item = YMap entries /\ validate entries = Ok r)
          items rules.

(** A rule compiles: it has an effective pattern and every regex among its
    effective patterns compiles. *)
Definition compilable (re_compile : pystr -> Z -> Re.CompileOutcome) (rule : Rule.t) : Prop :=
  effective_patterns rule <> []
  /\ forall p, In p (effective_patterns rule) ->
               RulePattern.type p = PatternType.regex ->
               exists rx, re_compile (RulePattern.value p) (_compile_flags (RulePattern.flags p))
                          = Re.Compiled rx.

Definition is_list (y : Yaml) : bool := match y with YList _ => true | _ => false end.
Definition is_mapping (y : Yaml) : bool := match y with YMap _ => true | _ => false end.

(** What each error of [from_yaml] reports, read against the pack at [path]. *)
Definition error_describes (re_compile : pystr -> Z -> Re.CompileOutcome)
    (validate : list (Yaml * Yaml) -> result pystr Rule.t)
    (path_exists : pystr -> py bool) (load_yaml : pystr -> option Yaml)
    (path : pystr) (e : RulePackError) : Prop :=
  match e with
  | RulePackNotFound p => p = path /\ path_exists path = Ret false
  | FailedToParseYAML p => p = path /\ load_yaml path = None
  | NotATopLevelList got => load_yaml path = Some got /\ is_list got = false
  | RuleNotAMapping idx got =>
      exists items, load_yaml path = Some (YList items)
                    /\ nth_error items idx = Some got /\ is_mapping got = false
  | InvalidRuleSchema idx id msg =>
      exists items entries,
        load_yaml path = Some (YList items)
        /\ nth_error items idx = Some (YMap entries)
        /\ validate entries = Err msg /\ id = yaml_get entries (lit "id")
  | InvalidRegex rule_id value =>
      exists items rules rule p,
        load_yaml path = Some (YList items) /\ validated validate items rules
        /\ In rule rules /\ Rule.enabled rule = true /\ Rule.id rule = rule_id
        /\ In p (effective_patterns rule) /\ RulePattern.type p = PatternType.regex
        /\ RulePattern.value p = value
        /\ re_compile value (_compile_flags (RulePattern.flags p)) = Re.error
  | NoMatchers rule_id =>
      exists items rules rule,
        load_yaml path = Some (YList items) /\ validated validate items rules
        /\ In rule rules /\ Rule.enabled rule = true /\ Rule.id rule = rule_id
        /\ effective_patterns rule = []
  | RegexCompilationFailed _ _ => False
  end.

(** A disabled rule without any matcher, the YAML mapping it is written as,
    and a validator that reads the mapping. *)
Definition hollow_rule : Rule.t :=
  Rule.mk (lit "OFF-1") (lit "Disabled rule") 5 low (RuleWhen.mk match_any [] [] [])
          (lit "Has no matcher.") allow [] false.

Definition hollow_entries : list (Yaml * Yaml) :=
  [(YStr (lit "id"), YStr (lit "OFF-1"));
   (YStr (lit "title"), YStr (lit "Disabled rule"));
   (YStr (lit "weight"), YInt 5);
   (YStr (lit "severity"), YStr (lit "low"));
   (YStr (lit "when"), YMap [(YStr (lit "match"), YStr (lit "any"))]);
   (YStr (lit "explain"), YStr (lit "Has no matcher."));
   (YStr (lit "action"), YStr (lit "allow"));
   (YStr (lit "enabled"), YBool false)].

Definition hollow_validate (entries : list (Yaml * Yaml)) : result pystr Rule.t :=
  match yaml_get entries (lit "id") with
  | Some (YStr id) => if str_eqb id (lit "OFF-1") then Ok hollow_rule
                      else Err (lit "unknown rule")
  | _ => Err (lit "unknown rule")
  end.


(** The cache holds no verdict: every stored value is [None]. *)
Definition no_intel (c : TTLCache.t ReputationResult.t) : bool :=
  forallb (fun kv => match TTLCache.value (snd kv) with None => true | Some _ => false end)
          (TTLCache._data c).

(** The cache key [lookup_domain] files a domain under. *)
Definition cache_key (domain : pystr) : pystr := lit "vt:domain:" ++ lower (strip domain).

(** The engine with its reputation service switched off, as when no key is
    configured. *)
Definition reputation_disabled (engine : RuleEngine) : RuleEngine :=
  let s := _reputation engine in
  mkRuleEngine (_rules engine) (_max_evidence_per_rule engine) (_compiled engine)
    (UrlReputationService.mk (UrlReputationService.api_key s) false
                             (UrlReputationService.cache s)).

(** An engine without rules whose reputation service has a key. *)
Definition keyed_engine : RuleEngine :=
  mkRuleEngine [] 20 [] (UrlReputationService.init (Some (lit "secret")) None).

Definition bad_body : pystr := lit "Go to https://bad.example/login".


(** The spans a compiled regex reports lie in the text it was run on, as
    those of [re.Pattern.finditer] do. *)
Definition spans_in_text (rx : Re.Pattern) : Prop :=
  forall text s e, In (s, e) (Re.finditer rx text) -> s <= e <= length text.

(** Every regex of the engine reports spans in the text. *)
Definition regexes_sound (engine : RuleEngine) : Prop :=
  forall cr cp rx,
    In cr (_compiled engine) -> In cp (cr_patterns cr) -> cp_regex cp = Some rx ->
    spans_in_text rx.

(** The span of the evidence is ordered, ends within [bound], and the
    recorded match is the slice of the text it delimits. *)
Definition evidence_ok (text : pystr) (bound : nat) (ev : Evidence.t) : Prop :=
  Evidence.start ev <= Evidence.end_ ev
  /\ Evidence.end_ ev <= bound
  /\ Evidence.match_ ev = slice text (Evidence.start ev) (Evidence.end_ ev).


(** A call on the cache, with the clock reading it sees: [OpGet key now]
    for [get(key)], [OpSet key v now] for [set(key, v)]. *)
Inductive CacheOp (A : Type) :=
| OpGet (key : pystr) (now : Z)
| OpSet (key : pystr) (v : option A) (now : Z).
Arguments OpGet {A} key now.
Arguments OpSet {A} key v now.

(** The cache after a call, and after a sequence of calls. *)
Definition cache_step {A} (c : TTLCache.t A) (op : CacheOp A) : TTLCache.t A :=
  match op with
  | OpGet key now => snd (TTLCache.get c key now)
  | OpSet key v now => TTLCache.set c key v now
  end.

Definition cache_run {A} (c : TTLCache.t A) (ops : list (CacheOp A)) : TTLCache.t A :=
  fold_left cache_step ops c.


(** A verdict that does not flag its domain: neither count is positive. *)
Definition verdict_clean (r : ReputationResult.t) : bool :=
  ((ReputationResult.malicious r <=? 0) && (ReputationResult.suspicious r <=? 0))%Z.

(** The cache holds no flagging verdict. *)
Definition cache_clean (c : TTLCache.t ReputationResult.t) : bool :=
  forallb (fun kv => match TTLCache.value (snd kv) with
                     | None => true
                     | Some r => verdict_clean r
                     end) (TTLCache._data c).

(** An exchange that brings no flagging verdict: it fails, answers 404, or
    returns counts of which neither the malicious nor the suspicious one is
    positive. *)
Definition quiet (x : Exchange) : bool :=
  match http x with
  | HttpFailure | Http404 => true
  | HttpStats m su _ _ => ((m <=? 0) && (su <=? 0))%Z
  | HttpUnreadable => false
  end.


(** The fixed fields of the four context rules: a hit with one of the four
    ids, the weight, severity and action of its rule, and exactly one
    evidence item. *)
Definition context_hit_shape (h : RuleHit.t) : Prop :=
  (exists ev, RuleHit.evidence h = [ev])
  /\ ((RuleHit.rule_id h = CTX_URL_SHORTENER /\ RuleHit.weight h = 14%Z
       /\ RuleHit.severity h = high /\ RuleHit.action h = block)
      \/ (RuleHit.rule_id h = CTX_URL_PUNYCODE /\ RuleHit.weight h = 12%Z
          /\ RuleHit.severity h = high /\ RuleHit.action h = block)
      \/ (RuleHit.rule_id h = CTX_URL_SUBDOMAINS /\ RuleHit.weight h = 10%Z
          /\ RuleHit.severity h = medium /\ RuleHit.action h = verify_out_of_band)
      \/ (RuleHit.rule_id h = CTX_URL_REPUTATION
          /\ (RuleHit.weight h = 25%Z \/ RuleHit.weight h = 18%Z)
          /\ RuleHit.severity h = high /\ RuleHit.action h = block)).

(** No token of the list can be located: no non-empty token has its
    lowercase form in the haystack. *)
Definition none_located (haystack : pystr) (tokens : list pystr) : Prop :=
  forall t, In t tokens -> t <> [] -> forall i, ~ occurs_at haystack (lower t) i.

(** The token is located at [idx], its first occurrence in the haystack. *)
Definition located_first (haystack token : pystr) (idx : nat) : Prop :=
  token <> [] /\ occurs_at haystack (lower token) idx
  /\ forall k, k < idx -> ~ occurs_at haystack (lower token) k.

(** [u] is the first token of the list that can be located, and [idx] is
    its first occurrence in the haystack: no token that stands before [u]
    in the list can be located. *)
Definition first_locatable (haystack : pystr) (tokens : list pystr) (u : pystr) (idx : nat)
  : Prop :=
  exists before after,
    tokens = before ++ u :: after
    /\ none_located haystack before /\ located_first haystack u idx.


(** [pay_rule] as [_compile_rule] compiles it. *)
Definition pay_compiled : _CompiledRule :=
  mkCompiledRule pay_rule match_any
    [mkCompiledPattern (RulePattern.mk PatternType.keyword (lit "pay") None (Some (lit "keyword")))
                       PatternType.keyword (Some (lit "pay")) None].

(** The model validators of [RuleHit] and of its [Evidence] items accept
    the hit. *)
Definition hit_valid (h : RuleHit.t) : bool :=
  RuleHit._ensure_evidence h && forallb Evidence._validate_span (RuleHit.evidence h).

(** An engine whose pack holds [pay_rule] alone, without a reputation key. *)
Definition pay_engine : RuleEngine :=
  mkRuleEngine [pay_rule] 20 [pay_compiled] (UrlReputationService.init None None).


(** The key [(start, end, rule_id)] under which [build_highlights] counts a
    highlight as seen. *)
Definition highlight_key (x : TextHighlight.t) : nat * nat * pystr :=
  (TextHighlight.start x, TextHighlight.end_ x, TextHighlight.rule_id x).


(** [s] is a contiguous part of [t]. *)
Definition substring_of (s t : pystr) : Prop := exists a b, t = a ++ s ++ b.

(** What [_clean_url] lets through: a string that starts with the scheme
    [http://] or [https://] in any case and in which [urlsplit] finds a
    network location. *)
Definition looks_like_url (u : pystr) : Prop :=
  (startswith (lower u) (lit "http://") || startswith (lower u) (lit "https://")) = true
  /\ exists parts, Lib.urlsplit u = Some parts /\ Lib.netloc parts <> [].


(** A normalized phone number: an optional plus sign, then at least nine
    decimal digits, of whatever script, and nothing else. *)
Definition phone_shape (p : pystr) : Prop :=
  exists digits, (p = digits \/ p = 43%N :: digits)
                 /\ 9 <= length digits /\ forallb Lib.is_digit digits = true.


(** The flag letter [l] (lowercase ASCII) occurs in the flag string, in
    either case. *)
Definition has_flag (l : char) (flags : pystr) : bool :=
  existsb (fun c => (c =? l) || (c =? l - 32))%N flags.


(** The model validators of [AnalysisResult] and of what it holds accept
    the result: the score lies between 0 and 100, every hit is valid, and
    the span of every highlight is ordered. *)
Definition result_valid (r : AnalysisResult.t) : bool :=
  (0 <=? AnalysisResult.score r)%Z && (AnalysisResult.score r <=? 100)%Z
  && forallb hit_valid (AnalysisResult.hits r)
  && forallb (fun hl => TextHighlight.start hl <=? TextHighlight.end_ hl)
             (AnalysisResult.highlights r).

(** Every answer of the reputation service can be read: no lookup gets a
    response whose body lacks the expected shape. *)
Definition answers_readable (env : nat -> Exchange) : Prop :=
  forall k, http (env k) <> HttpUnreadable.


(** A rule whose regex has a repetition count that [re.compile] rejects
    with an [OverflowError], the YAML mapping it is written as, a validator
    that reads the mapping, and a [re.compile] that raises on this pattern
    as CPython does and compiles every other pattern to one that matches
    nothing. *)
Definition overflow_rule : Rule.t :=
  Rule.mk (lit "RX-RUN") (lit "Long run") 5 low
          (RuleWhen.mk match_any [] [lit "x{4294967296}"] [])
          (lit "A very long run of one character.") allow [] true.

Definition overflow_entries : list (Yaml * Yaml) :=
  [(YStr (lit "id"), YStr (lit "RX-RUN"));
   (YStr (lit "title"), YStr (lit "Long run"));
   (YStr (lit "weight"), YInt 5);
   (YStr (lit "severity"), YStr (lit "low"));
   (YStr (lit "when"), YMap [(YStr (lit "regex"), YList [YStr (lit "x{4294967296}")])]);
   (YStr (lit "explain"), YStr (lit "A very long run of one character."));
   (YStr (lit "action"), YStr (lit "allow"))].

Definition overflow_validate (entries : list (Yaml * Yaml)) : result pystr Rule.t :=
  match yaml_get entries (lit "id") with
  | Some (YStr id) => if str_eqb id (lit "RX-RUN") then Ok overflow_rule
                      else Err (lit "unknown rule")
  | _ => Err (lit "unknown rule")
  end.

Definition overflow_re_compile (value : pystr) (flags : Z) : Re.CompileOutcome :=
  if str_eqb value (lit "x{4294967296}") then Re.OtherException
  else Re.Compiled (Re.mk (fun _ => [])).

(* ================================================================== *)
(** * Properties *)
(* ================================================================== *)

(** ** Rounding and the score *)

Section Rounding.
Local Open Scope R_scope.

Lemma Int_part_bounds (x : R) : IZR (Int_part x) <= x < IZR (Int_part x) + 1.
Proof.
  destruct (base_Int_part x) as [H1 H2]. split; lra.
Qed.

Lemma Int_part_IZR_between (x : R) (n : Z) :
  IZR n <= x < IZR n + 1 -> Int_part x = n.
Proof.
  intros [H1 H2]. symmetry. apply Int_part_spec. lra.
Qed.

(** An integer strictly within one half of [x] is its rounding. *)
Lemma py_round_near (x : R) (n : Z) :
  IZR n - 1 / 2 < x < IZR n + 1 / 2 -> py_round x = n.
Proof.
  intros [Hlo Hhi].
  destruct (Rle_dec (IZR n) x) as [Hge | Hlt].
  - assert (Hf : Int_part x = n) by (apply Int_part_IZR_between; lra).
    unfold py_round, frac_part. rewrite Hf.
    destruct (Rlt_dec (x - IZR n) (1 / 2)); [reflexivity | lra].
  - assert (Hf : Int_part x = (n - 1)%Z).
    { apply Int_part_IZR_between. rewrite minus_IZR. lra. }
    unfold py_round, frac_part. rewrite Hf, minus_IZR.
    destruct (Rlt_dec (x - (IZR n - 1)) (1 / 2)); [lra |].
    destruct (Rlt_dec (1 / 2) (x - (IZR n - 1))); [lia | lra].
Qed.

(** The rounding is within one half of its argument. *)
Lemma py_round_dist (x : R) : Rabs (x - IZR (py_round x)) <= 1 / 2.
Proof.
  pose proof (Int_part_bounds x) as [H1 H2].
  unfold py_round, frac_part.
  destruct (Rlt_dec (x - IZR (Int_part x)) (1 / 2)) as [Ha | Ha].
  - apply Rabs_le. lra.
  - destruct (Rlt_dec (1 / 2) (x - IZR (Int_part x))) as [Hb | Hb].
    + rewrite plus_IZR. apply Rabs_le. lra.
    + destruct (Z.even (Int_part x)); [| rewrite plus_IZR]; apply Rabs_le; lra.
Qed.

Lemma Int_part_mono (x y : R) : x <= y -> (Int_part x <= Int_part y)%Z.
Proof.
  intros Hxy.
  pose proof (Int_part_bounds x) as [H1 H2].
  pose proof (Int_part_bounds y) as [H3 H4].
  assert (H : IZR (Int_part x) < IZR (Int_part y + 1)) by (rewrite plus_IZR; lra).
  apply lt_IZR in H. lia.
Qed.

Lemma py_round_range (x : R) :
  (Int_part x <= py_round x <= Int_part x + 1)%Z.
Proof.
  unfold py_round.
  destruct (Rlt_dec _ _); [lia |].
  destruct (Rlt_dec _ _); [lia |].
  destruct (Z.even _); lia.
Qed.

(** Rounding is monotone. *)
Lemma py_round_mono (x y : R) : x <= y -> (py_round x <= py_round y)%Z.
Proof.
  intros Hxy.
  pose proof (Int_part_mono Hxy) as Hf.
  destruct (Z.eq_dec (Int_part x) (Int_part y)) as [He | Hne].
  - unfold py_round, frac_part. rewrite He.
    destruct (Rlt_dec (x - IZR (Int_part y)) (1 / 2)) as [Ha | Ha].
    + destruct (Rlt_dec (y - IZR (Int_part y)) (1 / 2)); [lia |].
      destruct (Rlt_dec (1 / 2) (y - IZR (Int_part y))); [lia |].
      destruct (Z.even (Int_part y)); lia.
    + destruct (Rlt_dec (y - IZR (Int_part y)) (1 / 2)) as [Hb | Hb]; [lra |].
      destruct (Rlt_dec (1 / 2) (x - IZR (Int_part y))) as [Hc | Hc].
      * destruct (Rlt_dec (1 / 2) (y - IZR (Int_part y))); [lia | lra].
      * destruct (Rlt_dec (1 / 2) (y - IZR (Int_part y))).
        -- destruct (Z.even (Int_part y)); lia.
        -- lia.
  - pose proof (py_round_range x). pose proof (py_round_range y). lia.
Qed.

Lemma py_round_IZR (n : Z) : py_round (IZR n) = n.
Proof. apply py_round_near. lra. Qed.

End Rounding.
Section ExpBounds.
Local Open Scope R_scope.

Lemma exp_pow_nat (x : R) (n : nat) : exp x ^ n = exp (INR n * x).
Proof.
  induction n as [| n IH].
  - simpl. rewrite Rmult_0_l, exp_0. reflexivity.
  - rewrite S_INR. simpl pow. rewrite IH, <- exp_plus. f_equal. ring.
Qed.

(** The compound-interest bound from below: [(1 + y)^n <= exp (n y)]. *)
Lemma pow_le_exp (y : R) (n : nat) : 0 <= 1 + y -> (1 + y) ^ n <= exp (INR n * y).
Proof.
  intros Hy. rewrite <- exp_pow_nat.
  apply pow_incr. split; [assumption | apply exp_ineq1_le].
Qed.

(** A power of a fraction of integers against a fraction, decided on the
    integers. *)
Lemma frac_lt_pow (a b c d : Z) (n : nat) :
  (0 < b)%Z -> (0 < d)%Z -> (c * b ^ Z.of_nat n < d * a ^ Z.of_nat n)%Z ->
  IZR c / IZR d < (IZR a / IZR b) ^ n.
Proof.
  intros Hb Hd H.
  assert (Hb' : 0 < IZR b) by (apply IZR_lt; assumption).
  assert (Hd' : 0 < IZR d) by (apply IZR_lt; assumption).
  assert (Hbn : 0 < IZR b ^ n) by (apply pow_lt; assumption).
  unfold Rdiv at 2. rewrite Rpow_mult_distr, pow_inv.
  apply IZR_lt in H. rewrite !mult_IZR, <- !pow_IZR in H.
  apply (Rmult_lt_reg_r (IZR d * IZR b ^ n)).
  - apply Rmult_lt_0_compat; assumption.
  - replace (IZR c / IZR d * (IZR d * IZR b ^ n)) with (IZR c * IZR b ^ n)
      by (field; lra).
    replace (IZR a ^ n * / IZR b ^ n * (IZR d * IZR b ^ n)) with (IZR d * IZR a ^ n)
      by (field; lra).
    exact H.
Qed.

(** [(1 + y)^n < exp t] when [n y = t], the base being a fraction of
    integers. *)
Lemma exp_above_pow (a b : Z) (n : nat) (t : R) :
  (0 < b)%Z -> (0 <= a)%Z -> INR n * (IZR a / IZR b - 1) = t ->
  (IZR a / IZR b) ^ n <= exp t.
Proof.
  intros Hb Ha Ht. rewrite <- Ht.
  replace (IZR a / IZR b) with (1 + (IZR a / IZR b - 1)) at 1 by ring.
  apply pow_le_exp.
  apply IZR_lt in Hb. apply IZR_le in Ha.
  replace (1 + (IZR a / IZR b - 1)) with (IZR a / IZR b) by ring.
  apply Rmult_le_pos; [assumption | left; apply Rinv_0_lt_compat; assumption].
Qed.

Ltac exp_pow_bound a b n :=
  apply Rlt_le_trans with ((IZR a / IZR b) ^ n);
  [ apply frac_lt_pow; vm_compute; reflexivity
  | apply exp_above_pow;
    [ reflexivity | discriminate | rewrite INR_IZR_INZ; simpl Z.of_nat; lra ] ].

Lemma exp_minus1_lower : 3676 / 10000 < exp (- (1)).
Proof. exp_pow_bound 1023%Z 1024%Z 1024%nat. Qed.

Lemma exp_1_lower : 1000 / 369 < exp 1.
Proof. exp_pow_bound 257%Z 256%Z 256%nat. Qed.

Lemma exp_minus1_upper : exp (- (1)) < 369 / 1000.
Proof.
  rewrite exp_Ropp.
  replace (369 / 1000) with (/ (1000 / 369)) by lra.
  apply Rinv_lt_contravar; [| exact exp_1_lower].
  apply Rmult_lt_0_compat; [lra | apply exp_pos].
Qed.

Lemma exp_minus2_bounds : 135 / 1000 < exp (- (2)) < 1362 / 10000.
Proof.
  replace (- (2)) with (- (1) + - (1)) by ring. rewrite exp_plus.
  pose proof exp_minus1_lower. pose proof exp_minus1_upper.
  split; nra.
Qed.

(** The two values of the scoring example: [100 (1 - 1/e)] and
    [100 (1 - 1/e^2)]. *)
Lemma saturation_35 : 631 / 10 < saturation 35 < 633 / 10.
Proof.
  unfold saturation. replace (- (35) / 35) with (- (1)) by lra.
  pose proof exp_minus1_lower. pose proof exp_minus1_upper. lra.
Qed.

Lemma saturation_70 : 863 / 10 < saturation 70 < 865 / 10.
Proof.
  unfold saturation. replace (- (70) / 35) with (- (2)) by lra.
  pose proof exp_minus2_bounds. lra.
Qed.

Lemma saturation_0 : saturation 0 = 0.
Proof.
  unfold saturation. replace (- 0 / 35) with 0 by lra. rewrite exp_0. lra.
Qed.

(** The saturation stays within [0, 100) and grows with the points. *)
Lemma saturation_range (raw : Z) : (0 <= raw)%Z -> 0 <= saturation raw < 100.
Proof.
  intros H. apply IZR_le in H. unfold saturation.
  pose proof (exp_pos (- IZR raw / 35)) as Hpos.
  assert (Hle : exp (- IZR raw / 35) <= 1).
  { rewrite <- exp_0. destruct (Req_dec (- IZR raw / 35) 0) as [E | E].
    - rewrite E. lra.
    - left. apply exp_increasing. lra. }
  lra.
Qed.

Lemma saturation_mono (a b : Z) : (a <= b)%Z -> saturation a <= saturation b.
Proof.
  intros H. apply IZR_le in H. unfold saturation.
  assert (Hle : exp (- IZR b / 35) <= exp (- IZR a / 35)).
  { destruct (Req_dec (IZR a) (IZR b)) as [E | E].
    - rewrite E. lra.
    - left. apply exp_increasing. lra. }
  lra.
Qed.

End ExpBounds.

(** [normalize_score] is the rounding of the saturation formula: the clamp
    to [0, 100] never cuts. *)
Lemma normalize_score_round (raw : Z) :
  normalize_score raw = py_round (saturation (Z.max 0 raw)).
Proof.
  unfold normalize_score.
  pose proof (@saturation_range (Z.max 0 raw) ltac:(lia)) as [H0 H100].
  pose proof (py_round_mono H0) as Hlo. rewrite py_round_IZR in Hlo.
  assert (Hhi : (py_round (saturation (Z.max 0 raw)) <= 100)%Z).
  { rewrite <- (py_round_IZR 100). apply py_round_mono. lra. }
  lia.
Qed.

Lemma normalize_score_mono (a b : Z) :
  (a <= b)%Z -> (normalize_score a <= normalize_score b)%Z.
Proof.
  intros H. rewrite !normalize_score_round.
  apply py_round_mono, saturation_mono. lia.
Qed.

Lemma normalize_score_0 : normalize_score 0 = 0%Z.
Proof.
  rewrite normalize_score_round. change (Z.max 0 0) with 0%Z. rewrite saturation_0.
  apply py_round_IZR.
Qed.

Lemma normalize_score_35 : normalize_score 35 = 63%Z.
Proof.
  rewrite normalize_score_round. change (Z.max 0 35) with 35%Z.
  apply py_round_near. pose proof saturation_35. lra.
Qed.

Lemma normalize_score_70 : normalize_score 70 = 86%Z.
Proof.
  rewrite normalize_score_round. change (Z.max 0 70) with 70%Z.
  apply py_round_near. pose proof saturation_70. lra.
Qed.

(** C5: the score is the rounding of [100 (1 - e^(-raw_points/35))], which
    lies in [0, 100]: it is the integer nearest to that value, and it stays
    within the clamp.  At 35 points the score is 63 and the severity medium;
    at 70 points the score is 86 and the severity high.  The severity is
    high from 70 on, medium from 30 on, and low below. *)
Theorem C5_score_formula_and_examples :
  (forall raw : Z,
      normalize_score raw
      = Z.max 0 (Z.min 100 (py_round (100 * (1 - exp (- IZR (Z.max 0 raw) / 35)))))
      /\ (Rabs (100 * (1 - exp (- IZR (Z.max 0 raw) / 35)) - IZR (normalize_score raw))
          <= 1 / 2)%R
      /\ (0 <= normalize_score raw <= 100)%Z)
  /\ normalize_score 35 = 63%Z /\ severity_from_score 63 = medium
  /\ normalize_score 70 = 86%Z /\ severity_from_score 86 = high
  /\ (forall score : Z,
        severity_from_score score
        = if (70 <=? score)%Z then high else if (30 <=? score)%Z then medium else low).
Proof.
  split; [| repeat split; auto using normalize_score_35, normalize_score_70].
  intros raw. split; [reflexivity |]. split.
  - rewrite normalize_score_round. apply py_round_dist.
  - unfold normalize_score. lia.
Qed.

(** ** Strings *)

Lemma str_eqb_eq (a b : pystr) : str_eqb a b = true <-> a = b.
Proof.
  revert b. induction a as [| x a IH]; intros [| y b]; simpl;
    try (split; [discriminate | discriminate]); try tauto.
  rewrite andb_true_iff, N.eqb_eq, IH.
  split; [intros [-> ->]; reflexivity | intros H; injection H; auto].
Qed.

Lemma str_eqb_refl (a : pystr) : str_eqb a a = true.
Proof. apply str_eqb_eq. reflexivity. Qed.

Lemma str_eqb_neq (a b : pystr) : str_eqb a b = false <-> a <> b.
Proof.
  rewrite <- str_eqb_eq. destruct (str_eqb a b); split; congruence.
Qed.

(** ** The normalizer *)

Lemma lower_length_ge (s : pystr) : length s <= length (lower s).
Proof.
  induction s as [| c s IH]; simpl; [lia |].
  rewrite length_app. unfold lower_full. destruct (c =? 304)%N; simpl; lia.
Qed.

(** Lowercasing keeps the length of a text without U+0130. *)
Lemma lower_length (s : pystr) : ~ In 0x130%N s -> length (lower s) = length s.
Proof.
  induction s as [| c s IH]; simpl; [reflexivity |].
  intros H. rewrite length_app, IH by tauto.
  unfold lower_full. destruct (N.eqb_spec c 304); [exfalso; auto | reflexivity].
Qed.

Lemma normalize_length_without_dotted_I (text : pystr) :
  ~ In 0x130%N text -> length (normalize_for_matching text) = length text.
Proof.
  intros H. destruct text as [| c text]; [reflexivity |].
  unfold normalize_for_matching. rewrite lower_length, length_map; [reflexivity |].
  rewrite in_map_iff. intros [x [Hx Hin]].
  destruct (char_in x _ZERO_WIDTH); [discriminate | subst x; auto].
Qed.

Lemma normalize_length_ge (text : pystr) :
  length text <= length (normalize_for_matching text).
Proof.
  destruct text as [| c text]; [reflexivity |].
  unfold normalize_for_matching.
  etransitivity; [| apply lower_length_ge]. rewrite length_map. lia.
Qed.

(** C2: the normalizer is meant to keep the length of the text.  On the one
    character text U+0130 it returns the two characters U+0069 U+0307:
    [str.lower()] inserts a character, and the lengths differ. *)
Theorem C2_normalize_lengthens_dotted_I :
  normalize_for_matching [0x130%N] = [0x69%N; 0x307%N]
  /\ length (normalize_for_matching [0x130%N]) <> length [0x130%N].
Proof.
  split; [reflexivity | vm_compute; discriminate].
Qed.

(** ** The engine on the example inputs *)

Ltac run_match :=
  match goal with
  | |- context [match_ ?e ?env ?t ?c] =>
      let v := eval vm_compute in (match_ e env t c) in
      replace (match_ e env t c) with v by (vm_compute; reflexivity)
  end.

(** C1: evidence and highlight offsets are meant to lie within the analyzed
    text.  With the keyword rule [pay_rule] loaded and no reputation key
    configured, the analysis of a message whose body is U+0130 followed by
    [ pay] runs on a text of 11 characters, and returns one hit whose
    evidence has start 9 and end 12, with the two matched characters [ay];
    the highlight ends at 12 as well.  The offsets were found in the
    normalized text, which is one character longer. *)
Theorem C1_offsets_beyond_text :
  forall (re_compile : pystr -> Z -> Re.CompileOutcome)
         (emails phones : pystr -> list pystr) (env : nat -> Exchange),
  exists engine result ev,
    RuleEngine_init re_compile None [pay_rule] 20 = Ok engine
    /\ fst (Analyzer.analyze emails phones (Analyzer.mk engine) env
              None (Some dotted_body) None None None None) = Ret result
    /\ List.map RuleHit.evidence (AnalysisResult.hits result) = [[ev]]
    /\ Evidence.start ev = 9 /\ Evidence.end_ ev = 12
    /\ Evidence.match_ ev = lit "ay"
    /\ length (_join_message_parts None (Some dotted_body) None None None None) = 11
    /\ List.map TextHighlight.end_ (AnalysisResult.highlights result) = [12].
Proof.
  intros re_compile emails phones env.
  eexists. eexists. eexists.
  split. { vm_compute. reflexivity. }
  split. { unfold Analyzer.analyze. run_match. cbv iota beta. unfold fst. reflexivity. }
  unfold score_to_result. cbn [AnalysisResult.hits AnalysisResult.highlights].
  repeat split; vm_compute; reflexivity.
Qed.

(** ** URL extraction *)

(** C9: on the text [Click (https://example.com/path?a=1), then
    'https://x.com/abc'...] (with double quotes), [extract_urls] returns
    exactly the two cleaned URLs, in order of appearance. *)
Theorem C9_extract_urls_example :
  extract_urls url_example_text
  = [lit "https://example.com/path?a=1"; lit "https://x.com/abc"].
Proof. vm_compute. reflexivity. Qed.

(** ** The empty message *)

Lemma truthy_empty (f : option pystr) : empty_field f -> truthy f = None.
Proof. intros [-> | ->]; reflexivity. Qed.

Lemma join_message_parts_empty subject body from_email reply_to headers_raw attachments :
  empty_field subject -> empty_field body -> empty_field from_email ->
  empty_field reply_to -> empty_field headers_raw -> no_attachments attachments ->
  _join_message_parts subject body from_email reply_to headers_raw attachments = [].
Proof.
  intros Hs Hb Hf Hr Hh Ha. unfold _join_message_parts.
  rewrite !truthy_empty by assumption.
  destruct Ha as [-> | ->]; reflexivity.
Qed.

Lemma score_to_result_nil :
  score_to_result []
  = AnalysisResult.mk 0 low allow [lit "allow"; lit "educate_user"] [] [].
Proof.
  unfold score_to_result.
  change (raw_points []) with 0%Z. rewrite normalize_score_0. reflexivity.
Qed.

(** C10: when every field of the message is [None] or empty, the composed
    text is empty and [Analyzer.analyze] returns score 0, severity low,
    action allow, the recommendations [allow, educate_user], no hits and no
    highlights, whatever rule pack is loaded; no reputation lookup is made. *)
Theorem C10_empty_message_result :
  forall (emails phones : pystr -> list pystr) (a : Analyzer.t) (env : nat -> Exchange)
         (subject body from_email reply_to headers_raw : option pystr)
         (attachments : option (list pystr)),
    empty_field subject -> empty_field body -> empty_field from_email ->
    empty_field reply_to -> empty_field headers_raw -> no_attachments attachments ->
    _join_message_parts subject body from_email reply_to headers_raw attachments = []
    /\ Analyzer.analyze emails phones a env
         subject body from_email reply_to headers_raw attachments
       = (Ret (AnalysisResult.mk 0 low allow [lit "allow"; lit "educate_user"] [] []),
          _reputation (Analyzer.engine a)).
Proof.
  intros emails phones a env subject body from_email reply_to headers_raw attachments
         Hs Hb Hf Hr Hh Ha.
  pose proof (join_message_parts_empty Hs Hb Hf Hr Hh Ha) as Htext.
  split; [exact Htext |].
  unfold Analyzer.analyze. rewrite Htext. unfold match_.
  rewrite score_to_result_nil. reflexivity.
Qed.

Lemma C10_empty_message_result_witness :
  _join_message_parts None (Some []) None None (Some []) (Some []) = []
  /\ Analyzer.analyze (fun _ => []) (fun _ => []) (Analyzer.mk bare_engine) failing_world
       None (Some []) None None (Some []) (Some [])
     = (Ret (AnalysisResult.mk 0 low allow [lit "allow"; lit "educate_user"] [] []),
        _reputation bare_engine).
Proof.
  apply (@C10_empty_message_result (fun _ => []) (fun _ => []) (Analyzer.mk bare_engine)
           failing_world None (Some []) None None (Some []) (Some []));
    unfold empty_field, no_attachments; auto.
Defined.

(** ** Dictionaries *)

Section DictFacts.
Variable V : Type.
Implicit Types (d : Dict.t V) (k : pystr) (v : V).

Lemma dict_get_set d k v k' :
  Dict.get (Dict.set d k v) k' = if str_eqb k k' then Some v else Dict.get d k'.
Proof.
  induction d as [| [k0 v0] d IH]; simpl.
  - reflexivity.
  - destruct (str_eqb k0 k) eqn:E0; simpl.
    + apply str_eqb_eq in E0. subst k0. destruct (str_eqb k k'); reflexivity.
    + rewrite IH. destruct (str_eqb k0 k') eqn:E1; [| reflexivity].
      apply str_eqb_eq in E1. subst k'.
      destruct (str_eqb k k0) eqn:E2; [| reflexivity].
      apply str_eqb_eq in E2. subst k0. rewrite str_eqb_refl in E0. discriminate.
Qed.

Lemma dict_keys_set d k v :
  Dict.keys (Dict.set d k v)
  = if existsb (str_eqb k) (Dict.keys d) then Dict.keys d else Dict.keys d ++ [k].
Proof.
  unfold Dict.keys. induction d as [| [k0 v0] d IH]; simpl; [reflexivity |].
  destruct (str_eqb k0 k) eqn:E0.
  - apply str_eqb_eq in E0. subst k0. rewrite str_eqb_refl. reflexivity.
  - assert (E1 : str_eqb k k0 = false).
    { apply str_eqb_neq. apply str_eqb_neq in E0. congruence. }
    rewrite E1. simpl. rewrite IH.
    destruct (existsb (str_eqb k) (List.map fst d)); reflexivity.
Qed.

Lemma existsb_str_eqb_In k (l : list pystr) :
  existsb (str_eqb k) l = true <-> In k l.
Proof.
  rewrite existsb_exists. split.
  - intros [x [Hin Hx]]. apply str_eqb_eq in Hx. subst. assumption.
  - intros Hin. exists k. split; [assumption | apply str_eqb_refl].
Qed.

Lemma dict_set_NoDup d k v : NoDup (Dict.keys d) -> NoDup (Dict.keys (Dict.set d k v)).
Proof.
  intros H. rewrite dict_keys_set.
  destruct (existsb (str_eqb k) (Dict.keys d)) eqn:E; [assumption |].
  apply NoDup_app; [assumption | constructor; [intros [] | constructor] |].
  intros x Hx [<- | []].
  apply existsb_str_eqb_In in Hx. congruence.
Qed.

Lemma dict_get_In d k v :
  NoDup (Dict.keys d) -> (Dict.get d k = Some v <-> In (k, v) d).
Proof.
  induction d as [| [k0 v0] d IH]; simpl; intros Hnd.
  - split; [discriminate | tauto].
  - inversion Hnd as [| ? ? Hnotin Hnd']; subst.
    destruct (str_eqb k0 k) eqn:E.
    + apply str_eqb_eq in E. subst k0. split.
      * intros H. injection H as ->. left. reflexivity.
      * intros [H | H]; [injection H as ->; reflexivity |].
        exfalso. apply Hnotin. apply (in_map fst) in H. exact H.
    + rewrite IH by assumption. split; [tauto |].
      intros [H | H]; [| assumption].
      injection H as -> ->. rewrite str_eqb_refl in E. discriminate.
Qed.

End DictFacts.

(** ** Aggregation: one hit per rule id *)

Lemma dict_set_keyed d h : keyed d -> keyed (Dict.set d (RuleHit.rule_id h) h).
Proof.
  unfold keyed. induction d as [| [k0 v0] d IH]; simpl; intros H.
  - constructor; [reflexivity | constructor].
  - inversion H as [| ? ? H0 H1]; subst. simpl in H0.
    destruct (str_eqb k0 (RuleHit.rule_id h)) eqn:E.
    + apply str_eqb_eq in E. constructor; [simpl; congruence | assumption].
    + constructor; [assumption | apply IH; assumption].
Qed.

Lemma unique_dict_inv hits d0 :
  NoDup (Dict.keys d0) -> keyed d0 ->
  NoDup (Dict.keys (unique_dict hits d0)) /\ keyed (unique_dict hits d0).
Proof.
  revert d0. induction hits as [| h hits IH]; intros d0 Hnd Hk; simpl.
  - split; assumption.
  - apply IH; [apply dict_set_NoDup; assumption | apply dict_set_keyed; assumption].
Qed.

Lemma unique_dict_get hits d0 id :
  Dict.get (unique_dict hits d0) id
  = match last_with_id id hits with
    | Some h => Some h
    | None => Dict.get d0 id
    end.
Proof.
  revert d0. induction hits as [| h hits IH]; intros d0; simpl; [reflexivity |].
  unfold unique_dict in IH. rewrite IH, dict_get_set.
  destruct (last_with_id id hits); [reflexivity |].
  destruct (str_eqb (RuleHit.rule_id h) id); reflexivity.
Qed.

Lemma keyed_ids (d : Dict.t RuleHit.t) :
  keyed d -> List.map RuleHit.rule_id (Dict.values d) = Dict.keys d.
Proof.
  unfold keyed, Dict.values, Dict.keys. induction 1 as [| [k v] d H _ IH]; simpl.
  - reflexivity.
  - simpl in H. rewrite H, IH. reflexivity.
Qed.

Lemma hits_with_id_NoDup id (l : list RuleHit.t) :
  NoDup (List.map RuleHit.rule_id l) -> hits_with_id id l <= 1.
Proof.
  unfold hits_with_id. induction l as [| h l IH]; simpl; intros Hnd; [lia |].
  inversion Hnd as [| ? ? Hnotin Hnd']; subst.
  destruct (str_eqb (RuleHit.rule_id h) id) eqn:E; [| auto].
  apply str_eqb_eq in E. simpl.
  assert (Hz : filter (fun h0 => str_eqb (RuleHit.rule_id h0) id) l = []).
  { destruct (filter _ l) as [| x xs] eqn:F; [reflexivity |].
    exfalso. assert (Hx : In x (filter (fun h0 => str_eqb (RuleHit.rule_id h0) id) l))
      by (rewrite F; left; reflexivity).
    apply filter_In in Hx. destruct Hx as [Hin Hid]. apply str_eqb_eq in Hid.
    apply Hnotin. rewrite E, <- Hid. apply in_map. assumption. }
  rewrite Hz. simpl. lia.
Qed.

Lemma hits_with_id_pos id (l : list RuleHit.t) :
  1 <= hits_with_id id l <-> exists h, In h l /\ RuleHit.rule_id h = id.
Proof.
  unfold hits_with_id. split.
  - destruct (filter _ l) as [| x xs] eqn:F; simpl; [lia |]. intros _.
    assert (Hx : In x (filter (fun h0 => str_eqb (RuleHit.rule_id h0) id) l))
      by (rewrite F; left; reflexivity).
    apply filter_In in Hx. destruct Hx as [Hin Hid]. apply str_eqb_eq in Hid.
    exists x. split; assumption.
  - intros [h [Hin Hid]].
    assert (Hx : In h (filter (fun h0 => str_eqb (RuleHit.rule_id h0) id) l)).
    { apply filter_In. split; [assumption | apply str_eqb_eq; assumption]. }
    destruct (filter _ l); [destruct Hx | simpl; lia].
Qed.

Lemma last_with_id_Some id hits h :
  last_with_id id hits = Some h -> In h hits /\ RuleHit.rule_id h = id.
Proof.
  induction hits as [| h0 hits IH]; simpl; [discriminate |].
  destruct (last_with_id id hits) as [h' |].
  - intros H. injection H as <-. destruct (IH eq_refl). split; [right |]; assumption.
  - destruct (str_eqb (RuleHit.rule_id h0) id) eqn:E; [| discriminate].
    intros H. injection H as <-. apply str_eqb_eq in E. split; [left; reflexivity | assumption].
Qed.

Lemma last_with_id_None id hits :
  last_with_id id hits = None -> forall h, In h hits -> RuleHit.rule_id h <> id.
Proof.
  induction hits as [| h0 hits IH]; simpl; [intros _ h [] |].
  destruct (last_with_id id hits) as [h' |]; [discriminate |].
  destruct (str_eqb (RuleHit.rule_id h0) id) eqn:E; [discriminate |].
  intros _ h [<- | Hin]; [apply str_eqb_neq; assumption | apply IH; auto].
Qed.

(** The hits kept are, for every rule id of the sequence, the last hit
    that carries it. *)
Lemma unique_hits_spec hits h :
  In h (unique_hits hits) <-> last_with_id (RuleHit.rule_id h) hits = Some h.
Proof.
  destruct (@unique_dict_inv hits [] (NoDup_nil _) (Forall_nil _)) as [Hnd Hk].
  unfold unique_hits. fold (unique_dict hits []).
  transitivity (Dict.get (unique_dict hits []) (RuleHit.rule_id h) = Some h).
  - rewrite dict_get_In by assumption.
    unfold Dict.values. rewrite in_map_iff. split.
    + intros [[k v] [Hv Hin]]. simpl in Hv. subst v.
      unfold keyed in Hk. rewrite Forall_forall in Hk. specialize (Hk _ Hin).
      simpl in Hk. subst k. assumption.
    + intros Hin. exists (RuleHit.rule_id h, h). split; [reflexivity | assumption].
  - rewrite unique_dict_get. simpl.
    destruct (last_with_id (RuleHit.rule_id h) hits); split; congruence.
Qed.

Lemma unique_hits_NoDup hits : NoDup (List.map RuleHit.rule_id (unique_hits hits)).
Proof.
  destruct (@unique_dict_inv hits [] (NoDup_nil _) (Forall_nil _)) as [Hnd Hk].
  unfold unique_hits. fold (unique_dict hits []).
  rewrite keyed_ids by assumption. assumption.
Qed.

(** C4: whatever sequence of hits the scorer is given, the result holds at
    most one hit per rule id: none when no hit of the sequence carries the
    id, one otherwise, namely the last such hit of the sequence.  The points
    that are scored are the sum of the weights of these unique hits, so a
    rule that matched several times weighs once. *)
Theorem C4_one_hit_per_rule :
  forall hits : list RuleHit.t,
    let result := score_to_result hits in
    (forall id, hits_with_id id (AnalysisResult.hits result) <= 1)
    /\ (forall id, hits_with_id id (AnalysisResult.hits result) = 1
                   <-> 1 <= hits_with_id id hits)
    /\ (forall h, In h (AnalysisResult.hits result)
                  <-> last_with_id (RuleHit.rule_id h) hits = Some h)
    /\ raw_points hits = total_weight (AnalysisResult.hits result)
    /\ AnalysisResult.score result
       = normalize_score (total_weight (AnalysisResult.hits result)).
Proof.
  intros hits result. subst result. unfold score_to_result.
  cbn [AnalysisResult.hits AnalysisResult.score].
  assert (Hle : forall id, hits_with_id id (unique_hits hits) <= 1)
    by (intros id; apply hits_with_id_NoDup, unique_hits_NoDup).
  split; [exact Hle |]. split; [| split; [apply unique_hits_spec | split; reflexivity]].
  intros id. split.
  - intros H1. assert (Hp : 1 <= hits_with_id id (unique_hits hits)) by lia.
    apply hits_with_id_pos in Hp. destruct Hp as [h [Hin Hid]].
    apply unique_hits_spec in Hin. apply last_with_id_Some in Hin.
    apply hits_with_id_pos. exists h. rewrite <- Hid. tauto.
  - intros Hp. specialize (Hle id).
    assert (Hq : 1 <= hits_with_id id (unique_hits hits)); [| lia].
    apply hits_with_id_pos in Hp. destruct Hp as [h [Hin Hid]].
    destruct (last_with_id id hits) as [h' |] eqn:E.
    + destruct (@last_with_id_Some id hits h' E) as [Hin' Hid'].
      apply hits_with_id_pos. exists h'. split; [| assumption].
      apply unique_hits_spec. rewrite Hid'. assumption.
    + exfalso. exact (@last_with_id_None id hits E h Hin Hid).
Qed.

(** ** Severity and action *)

Lemma total_weight_fold (l : list Z) (a : Z) :
  fold_left Z.add l a = (a + fold_right Z.add 0 l)%Z.
Proof.
  revert a. induction l as [| x l IH]; intros a; simpl; [lia |].
  rewrite IH. lia.
Qed.

Lemma total_weight_cons (h : RuleHit.t) (l : list RuleHit.t) :
  total_weight (h :: l) = (RuleHit.weight h + total_weight l)%Z.
Proof.
  unfold total_weight. simpl. rewrite !total_weight_fold. lia.
Qed.

Lemma total_weight_perm (l l' : list RuleHit.t) :
  Permutation l l' -> total_weight l = total_weight l'.
Proof.
  induction 1 as [| x l l' _ IH | x y l | l l' l'' _ IH1 _ IH2].
  - reflexivity.
  - rewrite !total_weight_cons, IH. reflexivity.
  - rewrite !total_weight_cons. lia.
  - congruence.
Qed.

(** The strongest severity of a sequence, read through [_SEVERITY_ORDER]. *)
Lemma max_severity_fold (l : list RuleHit.t) (top : Severity) :
  let r := fold_left (fun top h =>
                        if (_SEVERITY_ORDER (RuleHit.severity h) >? _SEVERITY_ORDER top)%Z
                        then RuleHit.severity h else top) l top in
  (_SEVERITY_ORDER top <= _SEVERITY_ORDER r)%Z
  /\ (forall h, In h l -> (_SEVERITY_ORDER (RuleHit.severity h) <= _SEVERITY_ORDER r)%Z)
  /\ (r = top \/ exists h, In h l /\ r = RuleHit.severity h).
Proof.
  revert top. induction l as [| x l IH]; intros top; simpl.
  - split; [lia | split; [intros h [] | left; reflexivity]].
  - match goal with |- context [fold_left ?f l ?t0] =>
      destruct (IH t0) as [H1 [H2 H3]] end.
    destruct (_SEVERITY_ORDER (RuleHit.severity x) >? _SEVERITY_ORDER top)%Z eqn:E.
    + split; [lia |]. split.
      * intros h [<- | Hin]; [assumption | apply H2; assumption].
      * right. destruct H3 as [-> | [h [Hin ->]]].
        -- exists x. split; [left |]; reflexivity.
        -- exists h. split; [right; assumption | reflexivity].
    + split; [assumption |]. split.
      * intros h [<- | Hin]; [lia | apply H2; assumption].
      * destruct H3 as [-> | [h [Hin ->]]]; [left; reflexivity |].
        right. exists h. split; [right; assumption | reflexivity].
Qed.

Lemma max_severity_ge (l : list RuleHit.t) (h : RuleHit.t) :
  In h l -> (_SEVERITY_ORDER (RuleHit.severity h) <= _SEVERITY_ORDER (_max_severity l))%Z.
Proof. intros Hin. apply (max_severity_fold l low). assumption. Qed.

Lemma max_severity_incl (l l' : list RuleHit.t) :
  (forall h, In h l -> In h l') ->
  (_SEVERITY_ORDER (_max_severity l) <= _SEVERITY_ORDER (_max_severity l'))%Z.
Proof.
  intros Hincl. destruct (max_severity_fold l low) as [_ [_ [E | [h [Hin E]]]]];
    fold (_max_severity l) in E; rewrite E.
  - destruct (_max_severity l'); simpl; lia.
  - apply max_severity_ge, Hincl, Hin.
Qed.

Lemma severity_from_score_mono (a b : Z) :
  (a <= b)%Z ->
  (_SEVERITY_ORDER (severity_from_score a) <= _SEVERITY_ORDER (severity_from_score b))%Z.
Proof.
  intros H. unfold severity_from_score.
  destruct (Z.leb_spec 70 a), (Z.leb_spec 70 b), (Z.leb_spec 30 a), (Z.leb_spec 30 b);
    simpl; lia.
Qed.

Lemma final_severity_order (score : Z) (unique : list RuleHit.t) :
  _SEVERITY_ORDER (final_severity score unique)
  = Z.max (_SEVERITY_ORDER (severity_from_score score)) (_SEVERITY_ORDER (_max_severity unique)).
Proof.
  unfold final_severity.
  destruct (Z.gtb_spec (_SEVERITY_ORDER (_max_severity unique))
                       (_SEVERITY_ORDER (severity_from_score score))); lia.
Qed.

(** The strongest action: never below the baseline, never below a hit, and
    always the baseline or the action of some hit. *)
Lemma choose_action_fold (l : list RuleHit.t) (top : Action) :
  let r := fold_left (fun top h =>
                        if (_ACTION_PRIORITY (RuleHit.action h) >? _ACTION_PRIORITY top)%Z
                        then RuleHit.action h else top) l top in
  (_ACTION_PRIORITY top <= _ACTION_PRIORITY r)%Z
  /\ (forall h, In h l -> (_ACTION_PRIORITY (RuleHit.action h) <= _ACTION_PRIORITY r)%Z)
  /\ (r = top \/ exists h, In h l /\ r = RuleHit.action h).
Proof.
  revert top. induction l as [| x l IH]; intros top; simpl.
  - split; [lia | split; [intros h [] | left; reflexivity]].
  - match goal with |- context [fold_left ?f l ?t0] =>
      destruct (IH t0) as [H1 [H2 H3]] end.
    destruct (_ACTION_PRIORITY (RuleHit.action x) >? _ACTION_PRIORITY top)%Z eqn:E.
    + split; [lia |]. split.
      * intros h [<- | Hin]; [assumption | apply H2; assumption].
      * right. destruct H3 as [-> | [h [Hin ->]]].
        -- exists x. split; [left |]; reflexivity.
        -- exists h. split; [right; assumption | reflexivity].
    + split; [assumption |]. split.
      * intros h [<- | Hin]; [lia | apply H2; assumption].
      * destruct H3 as [-> | [h [Hin ->]]]; [left; reflexivity |].
        right. exists h. split; [right; assumption | reflexivity].
Qed.

Lemma choose_action_spec (sev : Severity) (hits : list RuleHit.t) :
  (_ACTION_PRIORITY (base_action sev) <= _ACTION_PRIORITY (choose_action sev hits))%Z
  /\ (forall h, In h hits ->
        (_ACTION_PRIORITY (RuleHit.action h) <= _ACTION_PRIORITY (choose_action sev hits))%Z)
  /\ (choose_action sev hits = base_action sev
      \/ exists h, In h hits /\ choose_action sev hits = RuleHit.action h).
Proof.
  unfold choose_action.
  destruct (choose_action_fold hits (base_action sev)) as [H1 [H2 H3]].
  cbv zeta in *.
  match goal with |- context [(?a >=? ?b)%Z] => destruct (Z.geb_spec a b) as [G | G] end;
    [| lia].
  exact (conj H1 (conj H2 H3)).
Qed.

(** ** Adding a hit with a fresh rule id *)

Lemma last_with_id_app id (l1 l2 : list RuleHit.t) :
  last_with_id id (l1 ++ l2)
  = match last_with_id id l2 with
    | Some h => Some h
    | None => last_with_id id l1
    end.
Proof.
  induction l1 as [| x l1 IH]; simpl.
  - destruct (last_with_id id l2); reflexivity.
  - rewrite IH. destruct (last_with_id id l2); reflexivity.
Qed.

Lemma last_with_id_insert id (l1 l2 : list RuleHit.t) h :
  RuleHit.rule_id h <> id ->
  last_with_id id (l1 ++ h :: l2) = last_with_id id (l1 ++ l2).
Proof.
  intros Hne. rewrite !last_with_id_app. simpl.
  apply str_eqb_neq in Hne. rewrite Hne.
  destruct (last_with_id id l2); reflexivity.
Qed.

Lemma last_with_id_fresh (l1 l2 : list RuleHit.t) h :
  ~ In (RuleHit.rule_id h) (List.map RuleHit.rule_id (l1 ++ l2)) ->
  last_with_id (RuleHit.rule_id h) (l1 ++ h :: l2) = Some h.
Proof.
  intros Hfresh. rewrite last_with_id_app. simpl.
  destruct (last_with_id (RuleHit.rule_id h) l2) as [h' |] eqn:E.
  - exfalso. apply last_with_id_Some in E. destruct E as [Hin Hid].
    apply Hfresh. rewrite <- Hid. apply in_map, in_or_app. right. assumption.
  - rewrite str_eqb_refl. reflexivity.
Qed.

Lemma unique_hits_insert_In (l1 l2 : list RuleHit.t) h x :
  ~ In (RuleHit.rule_id h) (List.map RuleHit.rule_id (l1 ++ l2)) ->
  (In x (unique_hits (l1 ++ h :: l2)) <-> x = h \/ In x (unique_hits (l1 ++ l2))).
Proof.
  intros Hfresh. rewrite !unique_hits_spec.
  destruct (list_eq_dec N.eq_dec (RuleHit.rule_id h) (RuleHit.rule_id x)) as [E | E].
  - rewrite <- E, last_with_id_fresh by assumption. split.
    + intros H. injection H as ->. left. reflexivity.
    + intros [-> | H]; [reflexivity |].
      exfalso. apply last_with_id_Some in H. destruct H as [Hin _].
      apply Hfresh. rewrite E. apply in_map. assumption.
  - rewrite last_with_id_insert by assumption. split; [tauto |].
    intros [-> | H]; [congruence | assumption].
Qed.

Lemma NoDup_of_ids (l : list RuleHit.t) : NoDup (List.map RuleHit.rule_id l) -> NoDup l.
Proof.
  induction l as [| x l IH]; simpl; intros H; [constructor |].
  inversion H as [| ? ? Hn Hd]; subst. constructor; [| apply IH; assumption].
  intros Hin. apply Hn, in_map, Hin.
Qed.

Lemma unique_hits_insert_perm (l1 l2 : list RuleHit.t) h :
  ~ In (RuleHit.rule_id h) (List.map RuleHit.rule_id (l1 ++ l2)) ->
  Permutation (unique_hits (l1 ++ h :: l2)) (h :: unique_hits (l1 ++ l2)).
Proof.
  intros Hfresh. apply NoDup_Permutation.
  - apply NoDup_of_ids, unique_hits_NoDup.
  - constructor; [| apply NoDup_of_ids, unique_hits_NoDup].
    intros Hin. apply unique_hits_spec, last_with_id_Some in Hin.
    apply Hfresh, in_map. tauto.
  - intros x. rewrite unique_hits_insert_In by assumption. simpl.
    split; intros [H | H]; auto.
Qed.

(** C6: when a hit with a fresh rule id and a non-negative weight is added
    anywhere in the sequence of hits, the severity of the result does not
    decrease, and the action of the new result is at least the action of the
    added hit.  In every result the action is the strongest, in the order
    allow < report < verify-out-of-band < block, of the baseline action of
    the severity and the actions of the hits: it is never weaker than the
    baseline, never weaker than the action of a hit, and it is one of
    them. *)
Theorem C6_severity_and_action_monotone :
  forall (hits1 hits2 : list RuleHit.t) (h : RuleHit.t),
    ~ In (RuleHit.rule_id h) (List.map RuleHit.rule_id (hits1 ++ hits2)) ->
    (0 <= RuleHit.weight h)%Z ->
    let before := score_to_result (hits1 ++ hits2) in
    let after := score_to_result (hits1 ++ h :: hits2) in
    (_SEVERITY_ORDER (AnalysisResult.severity before)
     <= _SEVERITY_ORDER (AnalysisResult.severity after))%Z
    /\ (_ACTION_PRIORITY (RuleHit.action h)
        <= _ACTION_PRIORITY (AnalysisResult.action after))%Z
    /\ (_ACTION_PRIORITY allow < _ACTION_PRIORITY report
        < _ACTION_PRIORITY verify_out_of_band)%Z
    /\ (_ACTION_PRIORITY verify_out_of_band < _ACTION_PRIORITY block)%Z
    /\ (forall hits : list RuleHit.t,
          let r := score_to_result hits in
          let baseline := base_action (AnalysisResult.severity r) in
          (_ACTION_PRIORITY baseline <= _ACTION_PRIORITY (AnalysisResult.action r))%Z
          /\ (forall x, In x (AnalysisResult.hits r) ->
                (_ACTION_PRIORITY (RuleHit.action x)
                 <= _ACTION_PRIORITY (AnalysisResult.action r))%Z)
          /\ (AnalysisResult.action r = baseline
              \/ exists x, In x (AnalysisResult.hits r)
                           /\ AnalysisResult.action r = RuleHit.action x)).
Proof.
  intros hits1 hits2 h Hfresh Hw before after. subst before after.
  assert (Hall : forall hits : list RuleHit.t,
    let r := score_to_result hits in
    let baseline := base_action (AnalysisResult.severity r) in
    (_ACTION_PRIORITY baseline <= _ACTION_PRIORITY (AnalysisResult.action r))%Z
    /\ (forall x, In x (AnalysisResult.hits r) ->
          (_ACTION_PRIORITY (RuleHit.action x)
           <= _ACTION_PRIORITY (AnalysisResult.action r))%Z)
    /\ (AnalysisResult.action r = baseline
        \/ exists x, In x (AnalysisResult.hits r)
                     /\ AnalysisResult.action r = RuleHit.action x)).
  { intros hits r baseline. subst r baseline. unfold score_to_result.
    cbn [AnalysisResult.severity AnalysisResult.action AnalysisResult.hits].
    apply choose_action_spec. }
  split; [| split; [| split; [simpl; lia | split; [simpl; lia | exact Hall]]]].
  - unfold score_to_result. cbn [AnalysisResult.severity].
    rewrite !final_severity_order.
    pose proof (unique_hits_insert_perm hits1 hits2 h Hfresh) as Hperm.
    assert (Hraw : raw_points (hits1 ++ h :: hits2)
                   = (RuleHit.weight h + raw_points (hits1 ++ hits2))%Z).
    { unfold raw_points. fold (total_weight (unique_hits (hits1 ++ h :: hits2))).
      fold (total_weight (unique_hits (hits1 ++ hits2))).
      rewrite (total_weight_perm Hperm). apply total_weight_cons. }
    assert (Hs : (_SEVERITY_ORDER (severity_from_score (normalize_score (raw_points (hits1 ++ hits2))))
                  <= _SEVERITY_ORDER (severity_from_score
                                        (normalize_score (raw_points (hits1 ++ h :: hits2)))))%Z).
    { apply severity_from_score_mono, normalize_score_mono. lia. }
    assert (Hm : (_SEVERITY_ORDER (_max_severity (unique_hits (hits1 ++ hits2)))
                  <= _SEVERITY_ORDER (_max_severity (unique_hits (hits1 ++ h :: hits2))))%Z).
    { apply max_severity_incl. intros x Hx.
      apply unique_hits_insert_In; [assumption | right; assumption]. }
    lia.
  - destruct (Hall (hits1 ++ h :: hits2)) as [_ [H2 _]]. apply H2.
    unfold score_to_result. cbn [AnalysisResult.hits].
    apply unique_hits_insert_In; [assumption | left; reflexivity].
Qed.

Lemma C6_severity_and_action_monotone_witness :
  let h := shortener_hit [] in
  let before := score_to_result ([] ++ []) in
  let after := score_to_result ([] ++ h :: []) in
  (_SEVERITY_ORDER (AnalysisResult.severity before)
   <= _SEVERITY_ORDER (AnalysisResult.severity after))%Z
  /\ (_ACTION_PRIORITY (RuleHit.action h)
      <= _ACTION_PRIORITY (AnalysisResult.action after))%Z
  /\ (_ACTION_PRIORITY allow < _ACTION_PRIORITY report
      < _ACTION_PRIORITY verify_out_of_band)%Z
  /\ (_ACTION_PRIORITY verify_out_of_band < _ACTION_PRIORITY block)%Z
  /\ (forall hits : list RuleHit.t,
        let r := score_to_result hits in
        let baseline := base_action (AnalysisResult.severity r) in
        (_ACTION_PRIORITY baseline <= _ACTION_PRIORITY (AnalysisResult.action r))%Z
        /\ (forall x, In x (AnalysisResult.hits r) ->
              (_ACTION_PRIORITY (RuleHit.action x)
               <= _ACTION_PRIORITY (AnalysisResult.action r))%Z)
        /\ (AnalysisResult.action r = baseline
            \/ exists x, In x (AnalysisResult.hits r)
                         /\ AnalysisResult.action r = RuleHit.action x)).
Proof.
  apply (@C6_severity_and_action_monotone [] [] (shortener_hit [])).
  - simpl. tauto.
  - simpl. lia.
Defined.

(** ** Substring search *)

Lemma startswith_app (s p : pystr) :
  startswith s p = true <-> exists r, s = p ++ r.
Proof.
  revert s. induction p as [| x p IH]; intros s; simpl.
  - split; [intros _; exists s; reflexivity | reflexivity].
  - destruct s as [| y s].
    + split; [discriminate | intros [r H]; discriminate].
    + rewrite andb_true_iff, N.eqb_eq, IH. split.
      * intros [-> [r ->]]. exists r. reflexivity.
      * intros [r H]. injection H as -> ->. split; [reflexivity | exists r; reflexivity].
Qed.

Lemma occurs_at_startswith (hay needle : pystr) (i : nat) :
  occurs_at hay needle i <-> i <= length hay /\ startswith (skipn i hay) needle = true.
Proof.
  unfold occurs_at, slice. rewrite startswith_app.
  replace (i + length needle - i) with (length needle) by lia. split.
  - intros [Hlen Hs]. split; [lia |].
    exists (skipn (length needle) (skipn i hay)).
    rewrite <- Hs at 1. symmetry. apply firstn_skipn.
  - intros [Hi [r Hr]]. rewrite Hr. split.
    + assert (L : length (skipn i hay) = length needle + length r)
        by (rewrite Hr, length_app; reflexivity).
      rewrite length_skipn in L. lia.
    + rewrite firstn_app, firstn_all, Nat.sub_diag. simpl. apply app_nil_r.
Qed.

Lemma find_at_sound (hay needle : pystr) (i j : nat) :
  find_at hay needle i = Some j ->
  i <= j /\ j - i <= length hay /\ startswith (skipn (j - i) hay) needle = true
  /\ forall k, k < j - i -> startswith (skipn k hay) needle = false.
Proof.
  revert i. induction hay as [| c hay IH]; intros i; simpl.
  - destruct (startswith [] needle) eqn:E; [| discriminate].
    intros H. injection H as <-. rewrite Nat.sub_diag. simpl.
    repeat split; try lia; try assumption.
  - destruct (startswith (c :: hay) needle) eqn:E.
    + intros H. injection H as <-. rewrite Nat.sub_diag. simpl.
      repeat split; try lia; try assumption.
    + intros H. apply IH in H. destruct H as [H1 [H2 [H3 H4]]].
      replace (j - i) with (S (j - S i)) by lia. simpl.
      repeat split; try lia; try assumption.
      intros [| k] Hk; simpl; [assumption | apply H4; lia].
Qed.

Lemma find_at_complete (hay needle : pystr) (i k : nat) :
  k <= length hay -> startswith (skipn k hay) needle = true ->
  exists j, find_at hay needle i = Some j.
Proof.
  revert i k. induction hay as [| c hay IH]; intros i k Hk Hs; simpl.
  - simpl in Hk. assert (k = 0) by lia. subst k. simpl in Hs. rewrite Hs. eauto.
  - destruct (startswith (c :: hay) needle) eqn:E; [eauto |].
    destruct k as [| k]; [simpl in Hs; congruence |].
    simpl in Hk, Hs. apply (IH (S i) k); [lia | assumption].
Qed.

(** [find] returns the first index, from [start] on, at which the needle
    occurs. *)
Lemma find_sound (hay needle : pystr) (start j : nat) :
  find hay needle start = Some j ->
  start <= j /\ occurs_at hay needle j
  /\ forall k, start <= k < j -> ~ occurs_at hay needle k.
Proof.
  unfold find. destruct (Nat.leb_spec start (length hay)) as [Hs | Hs]; [| discriminate].
  intros H. apply find_at_sound in H. destruct H as [H1 [H2 [H3 H4]]].
  rewrite length_skipn in H2.
  split; [assumption |]. split.
  - apply occurs_at_startswith. split; [lia |].
    rewrite skipn_skipn in H3. replace (j - start + start) with j in H3 by lia. assumption.
  - intros k [Hk1 Hk2] Hocc. apply occurs_at_startswith in Hocc. destruct Hocc as [_ Hocc].
    specialize (H4 (k - start) ltac:(lia)).
    rewrite skipn_skipn in H4. replace (k - start + start) with k in H4 by lia. congruence.
Qed.

Lemma find_complete (hay needle : pystr) (start k : nat) :
  start <= k -> occurs_at hay needle k -> exists j, find hay needle start = Some j.
Proof.
  intros Hk Hocc. apply occurs_at_startswith in Hocc. destruct Hocc as [Hlen Hs].
  unfold find. destruct (Nat.leb_spec start (length hay)) as [Hl | Hl]; [| lia].
  apply (@find_at_complete (skipn start hay) needle start (k - start)).
  - rewrite length_skipn. lia.
  - rewrite skipn_skipn. replace (k - start + start) with k by lia. assumption.
Qed.

(** ** Matching one pattern *)

Lemma find_keyword_nonempty (text hay needle : pystr) label pattern :
  _find_keyword text hay needle label pattern <> []
  <-> needle <> [] /\ exists i, occurs_at hay needle i.
Proof.
  unfold _find_keyword. destruct needle as [| c needle].
  - split; [congruence | intros [H _]; congruence].
  - simpl _find_keyword_loop.
    destruct (find hay (c :: needle) 0) as [idx |] eqn:E.
    + split; [| discriminate]. intros _. split; [discriminate |].
      exists idx. apply find_sound in E. tauto.
    + split; [congruence |]. intros [_ [i Hi]].
      destruct (@find_complete hay (c :: needle) 0 i ltac:(lia) Hi) as [j Hj]. congruence.
Qed.

Lemma find_regex_loop_nil m text spans label pattern out :
  _find_regex_loop m text spans label pattern out = []
  <-> out = [] /\ forall s e, In (s, e) spans -> s = e.
Proof.
  revert out. induction spans as [| [s e] spans IH]; intros out; simpl.
  - split; [intros ->; split; [reflexivity | intros ? ? []] | tauto].
  - destruct (Nat.eqb_spec s e) as [E | E].
    + rewrite IH. split; intros [H1 H2]; (split; [assumption |]).
      * intros s' e' [H | H]; [injection H as <- <-; assumption | apply H2; assumption].
      * intros s' e' H. apply H2. right. assumption.
    + split.
      * intros H. exfalso.
        destruct (m <=? length (out ++ _)) in H.
        -- destruct out; discriminate.
        -- apply IH in H. destruct H as [H _]. destruct out; discriminate.
      * intros [_ H]. exfalso. apply E. apply H. left. reflexivity.
Qed.

Lemma spans_empty_dec (spans : list (nat * nat)) :
  (forall s e, In (s, e) spans -> s = e)
  \/ exists s e, In (s, e) spans /\ s <> e.
Proof.
  induction spans as [| [s e] spans [IH | [s' [e' [Hin Hne]]]]].
  - left. intros ? ? [].
  - destruct (Nat.eq_dec s e) as [E | E].
    + left. intros s' e' [H | H]; [injection H as <- <-; assumption | auto].
    + right. exists s, e. split; [left; reflexivity | assumption].
  - right. exists s', e'. split; [right; assumption | assumption].
Qed.

(** [_match_one] yields evidence exactly when the pattern matches the text
    at least once. *)
Lemma match_one_occurs (cp : _CompiledPattern) (text hay : pystr) :
  _match_one cp text hay <> [] <-> pattern_occurs cp text hay.
Proof.
  unfold _match_one, pattern_occurs. destruct (cp_kind cp).
  - destruct (cp_keyword cp) as [kw |].
    + rewrite find_keyword_nonempty. split.
      * intros [H [i Hi]]. exists kw, i. auto.
      * intros [kw' [i [E [H Hi]]]]. injection E as <-. eauto.
    + split; [congruence | intros [kw [i [E _]]]; discriminate].
  - destruct (cp_regex cp) as [rx |].
    + unfold _find_regex. split.
      * intros H. destruct (spans_empty_dec (Re.finditer rx text)) as [A | [s [e [Hin Hne]]]].
        -- exfalso. apply H. apply find_regex_loop_nil. auto.
        -- exists rx, s, e. auto.
      * intros [rx' [s [e [E [Hin Hne]]]]] H. injection E as <-.
        apply find_regex_loop_nil in H. destruct H as [_ H]. apply Hne, H, Hin.
    + split; [congruence | intros [rx [s [e [E _]]]]; discriminate].
Qed.

(** ** The [all] mode *)

Section AllMode.
Variables (cap : nat) (text hay : pystr).

(** Every pattern matches, and the cap leaves room for all of them: the
    loop runs to the end and keeps the first evidence of each. *)
Lemma match_all_loop_complete cps evidence tested :
  length evidence + length cps <= cap ->
  (forall cp, In cp cps -> _match_one cp text hay <> []) ->
  exists evs,
    match_all_loop cap cps text hay evidence tested
    = mkAllRun true (evidence ++ evs) (tested ++ cps)
    /\ Forall2 (first_of text hay) cps evs.
Proof.
  revert evidence tested. induction cps as [| cp cps IH]; intros evidence tested Hcap Hall.
  - exists []. simpl. rewrite !app_nil_r. split; [reflexivity | constructor].
  - simpl. destruct (_match_one cp text hay) as [| ev0 rest] eqn:E.
    + exfalso. apply (Hall cp); [left; reflexivity | assumption].
    + simpl in Hcap.
      destruct (Nat.leb_spec cap (length (evidence ++ [ev0]))) as [Hc | Hc].
      * rewrite length_app in Hc. simpl in Hc.
        assert (cps = []) by (destruct cps; [reflexivity | simpl in Hcap; lia]). subst cps.
        exists [ev0]. split; [reflexivity |].
        constructor; [exists rest; assumption | constructor].
      * destruct (IH (evidence ++ [ev0]) (tested ++ [cp])) as [evs [Hrun HF]].
        -- rewrite length_app. simpl. lia.
        -- intros cp' Hin. apply Hall. right. assumption.
        -- exists (ev0 :: evs). rewrite Hrun, <- !app_assoc. split; [reflexivity |].
           constructor; [exists rest; assumption | assumption].
Qed.

(** A pattern fails after patterns that all match: the loop stops at it. *)
Lemma match_all_loop_stops pre cp post evidence tested :
  length evidence + length pre < cap ->
  (forall p, In p pre -> _match_one p text hay <> []) ->
  _match_one cp text hay = [] ->
  exists evs,
    match_all_loop cap (pre ++ cp :: post) text hay evidence tested
    = mkAllRun false (evidence ++ evs) (tested ++ pre ++ [cp])
    /\ Forall2 (first_of text hay) pre evs.
Proof.
  revert evidence tested. induction pre as [| p pre IH]; intros evidence tested Hcap Hall Hcp.
  - exists []. simpl. rewrite Hcp, app_nil_r. split; [reflexivity | constructor].
  - simpl. destruct (_match_one p text hay) as [| ev0 rest] eqn:E.
    + exfalso. apply (Hall p); [left; reflexivity | assumption].
    + simpl in Hcap.
      destruct (Nat.leb_spec cap (length (evidence ++ [ev0]))) as [Hc | Hc].
      * rewrite length_app in Hc. simpl in Hc. lia.
      * destruct (IH (evidence ++ [ev0]) (tested ++ [p])) as [evs [Hrun HF]].
        -- rewrite length_app. simpl. lia.
        -- intros p' Hin. apply Hall. right. assumption.
        -- assumption.
        -- exists (ev0 :: evs). rewrite Hrun, <- !app_assoc. split; [reflexivity |].
           constructor; [exists rest; assumption | assumption].
Qed.

(** The first pattern that does not match, if there is one. *)
Lemma first_failing (cps : list _CompiledPattern) :
  (forall cp, In cp cps -> _match_one cp text hay <> [])
  \/ exists pre cp post,
       cps = pre ++ cp :: post
       /\ (forall p, In p pre -> _match_one p text hay <> [])
       /\ _match_one cp text hay = [].
Proof.
  induction cps as [| c cps [IH | [pre [cp [post [E [Hpre Hcp]]]]]]].
  - left. intros ? [].
  - destruct (_match_one c text hay) as [| ev rest] eqn:Ec.
    + right. exists [], c, cps. split; [reflexivity | split; [intros ? [] | assumption]].
    + left. intros cp [<- | Hin]; [rewrite Ec; discriminate | auto].
  - destruct (_match_one c text hay) as [| ev rest] eqn:Ec.
    + right. exists [], c, cps. split; [reflexivity | split; [intros ? [] | assumption]].
    + right. exists (c :: pre), cp, post. subst cps.
      split; [reflexivity | split; [| assumption]].
      intros p [<- | Hin]; [rewrite Ec; discriminate | auto].
Qed.

End AllMode.

Lemma compile_rule_ok re_compile rule cr :
  _compile_rule re_compile rule = Ok cr ->
  cr_rule cr = rule /\ cr_match_mode cr = RuleWhen.match_ (Rule.when rule)
  /\ cr_patterns cr <> [].
Proof.
  unfold _compile_rule, bind.
  destruct (map_result _ _) as [compiled | e]; [| discriminate].
  destruct compiled; [discriminate |].
  intros H. injection H as <-. simpl. repeat split. discriminate.
Qed.




(** ** Loading a rule pack *)

Lemma map_result_ok {E A B} (f : A -> result E B) (l : list A) (bs : list B) :
  map_result f l = Ok bs <-> Forall2 (fun a b => f a = Ok b) l bs.
Proof.
  revert bs. induction l as [| a l IH]; intros bs; simpl.
  - split.
    + intros H. injection H as <-. constructor.
    + intros H. inversion H. reflexivity.
  - unfold bind. destruct (f a) as [b | e] eqn:Ea.
    + destruct (map_result f l) as [bs' | e] eqn:El.
      * split.
        -- intros H. injection H as <-. constructor; [assumption | apply IH; reflexivity].
        -- intros H. inversion H as [| ? b0 ? bs0 Hb Hrest]; subst.
           apply IH in Hrest. congruence.
      * split; [discriminate |].
        intros H. inversion H as [| ? b0 ? bs0 Hb Hrest]; subst.
        apply IH in Hrest. discriminate.
    + split; [discriminate |].
      intros H. inversion H; subst. congruence.
Qed.

Lemma map_result_err {E A B} (f : A -> result E B) (l : list A) (e : E) :
  map_result f l = Err e -> exists a, In a l /\ f a = Err e.
Proof.
  induction l as [| a l IH]; simpl; [discriminate |].
  unfold bind. destruct (f a) as [b | e'] eqn:Ea.
  - destruct (map_result f l) as [bs | e'']; [discriminate |].
    intros H. injection H as ->. destruct (IH eq_refl) as [a' [Hin Ha']].
    exists a'. split; [right |]; assumption.
  - intros H. injection H as ->. exists a. split; [left; reflexivity | assumption].
Qed.

Lemma Forall2_in_left {A B} (R : A -> B -> Prop) (l : list A) (l' : list B) (a : A) :
  Forall2 R l l' -> In a l -> exists b, In b l' /\ R a b.
Proof.
  induction 1 as [| x y l l' Hxy _ IH]; intros Hin; [destruct Hin |].
  destruct Hin as [<- | Hin].
  - exists y. split; [left; reflexivity | assumption].
  - destruct (IH Hin) as [b [Hb HR]]. exists b. split; [right |]; assumption.
Qed.

Lemma Forall2_in_right {A B} (R : A -> B -> Prop) (l : list A) (l' : list B) (b : B) :
  Forall2 R l l' -> In b l' -> exists a, In a l /\ R a b.
Proof.
  induction 1 as [| x y l l' Hxy _ IH]; intros Hin; [destruct Hin |].
  destruct Hin as [<- | Hin].
  - exists x. split; [left; reflexivity | assumption].
  - destruct (IH Hin) as [a [Ha HR]]. exists a. split; [right |]; assumption.
Qed.

Section LoadingFacts.
Variable re_compile : pystr -> Z -> Re.CompileOutcome.
Variable validate : list (Yaml * Yaml) -> result pystr Rule.t.
Variable path_exists : pystr -> py bool.
Variable load_yaml : pystr -> option Yaml.
Variable VT_API_KEY : option pystr.

Lemma validate_items_ok idx items rules :
  validate_items validate idx items = Ok rules <-> validated validate items rules.
Proof.
  unfold validated. revert idx rules.
  induction items as [| item items IH]; intros idx rules; simpl.
  - split.
    + intros H. injection H as <-. constructor.
    + intros H. inversion H. reflexivity.
  - destruct item as [| b | z | s | l | entries];
      try (split; [discriminate |];
           intros H; inversion H as [| ? ? ? ? [entries [E _]] _]; discriminate).
    destruct (validate entries) as [r | e] eqn:Ev.
    + unfold bind. destruct (validate_items validate (S idx) items) as [rs | e] eqn:Er.
      * split.
        -- intros H. injection H as <-.
           constructor; [exists entries; auto | apply (IH (S idx)); assumption].
        -- intros H. inversion H as [| ? r0 ? rs0 [entries' [E Hv]] Hrest]; subst.
           injection E as <-. apply (IH (S idx)) in Hrest. congruence.
      * split; [discriminate |].
        intros H. inversion H as [| ? r0 ? rs0 _ Hrest]; subst.
        apply (IH (S idx)) in Hrest. congruence.
    + split; [discriminate |].
      intros H. inversion H as [| ? r0 ? rs0 [entries' [E Hv]] _]; subst.
      injection E as <-. congruence.
Qed.

Lemma validate_items_err idx items e :
  validate_items validate idx items = Err e ->
  (exists k got, e = RuleNotAMapping (idx + k) got
                 /\ nth_error items k = Some got /\ is_mapping got = false)
  \/ (exists k entries msg,
        e = InvalidRuleSchema (idx + k) (yaml_get entries (lit "id")) msg
        /\ nth_error items k = Some (YMap entries) /\ validate entries = Err msg).
Proof.
  revert idx. induction items as [| item items IH]; intros idx; simpl; [discriminate |].
  assert (Hnot : is_mapping item = false ->
                 @Err RulePackError (list Rule.t) (RuleNotAMapping idx item) = Err e ->
                 exists k got, e = RuleNotAMapping (idx + k) got
                               /\ nth_error (item :: items) k = Some got
                               /\ is_mapping got = false).
  { intros Hm H. injection H as <-. exists 0, item.
    rewrite Nat.add_0_r. repeat split. assumption. }
  destruct item as [| b | z | s | l | entries];
    try (intros H; left; apply Hnot; [reflexivity | exact H]).
  clear Hnot. destruct (validate entries) as [r | msg] eqn:Ev.
  - unfold bind. destruct (validate_items validate (S idx) items) as [rs | e'] eqn:Er;
      [discriminate |].
    intros H. injection H as ->.
    destruct (IH (S idx) Er) as [[k [got [E [Hn Hm]]]] | [k [ent [msg [E [Hn Hv]]]]]].
    + left. exists (S k), got. rewrite E. replace (idx + S k) with (S idx + k) by lia. auto.
    + right. exists (S k), ent, msg. rewrite E.
      replace (idx + S k) with (S idx + k) by lia. auto.
  - intros H. injection H as <-. right. exists 0, entries, msg.
    rewrite Nat.add_0_r. auto.
Qed.

Lemma compile_pattern_ok rule p :
  (exists cp, compile_pattern re_compile rule p = Ok cp)
  <-> (RulePattern.type p = PatternType.regex ->
       exists rx, re_compile (RulePattern.value p) (_compile_flags (RulePattern.flags p))
                  = Re.Compiled rx).
Proof.
  unfold compile_pattern. destruct (RulePattern.type p).
  - split; [intros _; discriminate | eauto].
  - destruct (re_compile _ _) as [rx | |].
    + split; [intros _ _; eauto | eauto].
    + split; [intros [cp H]; discriminate |].
      intros H. destruct (H eq_refl) as [rx Hrx]. discriminate Hrx.
    + split; [intros [cp H]; discriminate |].
      intros H. destruct (H eq_refl) as [rx Hrx]. discriminate Hrx.
Qed.

Lemma compile_pattern_err rule p e :
  compile_pattern re_compile rule p = Err e ->
  RulePattern.type p = PatternType.regex
  /\ ((e = PackError (InvalidRegex (Rule.id rule) (RulePattern.value p))
       /\ re_compile (RulePattern.value p) (_compile_flags (RulePattern.flags p)) = Re.error)
      \/ (e = CompileException (RulePattern.value p) (_compile_flags (RulePattern.flags p))
          /\ re_compile (RulePattern.value p) (_compile_flags (RulePattern.flags p))
             = Re.OtherException)).
Proof.
  unfold compile_pattern. destruct (RulePattern.type p); [discriminate |].
  destruct (re_compile _ _); [discriminate | |];
    intros H; injection H as <-; auto.
Qed.

(** A compiled pattern carries what its kind needs: the assertions of
    [_match_one] hold. *)
Lemma compile_pattern_wf rule p cp :
  compile_pattern re_compile rule p = Ok cp ->
  cp_raw cp = p
  /\ match cp_kind cp with
     | PatternType.keyword => cp_keyword cp = Some (lower (RulePattern.value p))
     | PatternType.regex => cp_regex cp <> None
     end.
Proof.
  unfold compile_pattern. destruct (RulePattern.type p).
  - intros H. injection H as <-. simpl. auto.
  - destruct (re_compile _ _); [| discriminate | discriminate].
    intros H. injection H as <-. simpl. split; [reflexivity | discriminate].
Qed.

Lemma compile_rule_compilable rule :
  (exists cr, _compile_rule re_compile rule = Ok cr) <-> compilable re_compile rule.
Proof.
  unfold _compile_rule, compilable, bind. split.
  - intros [cr H].
    destruct (map_result _ _) as [compiled | e] eqn:Em; [| discriminate].
    destruct compiled as [| c cs]; [discriminate |].
    apply map_result_ok in Em. split.
    + intros E. rewrite E in Em. inversion Em.
    + intros p Hin. apply (proj1 (@compile_pattern_ok rule p)).
      destruct (@Forall2_in_left _ _ _ _ _ p Em Hin) as [cp [_ Hcp]]. eauto.
  - intros [Hne Hall].
    assert (Hok : exists compiled,
               map_result (compile_pattern re_compile rule) (effective_patterns rule)
               = Ok compiled /\ length compiled = length (effective_patterns rule)).
    { clear Hne. induction (effective_patterns rule) as [| p ps IH].
      - exists []. split; reflexivity.
      - destruct IH as [cs [Hcs Hlen]]; [intros q Hq; apply Hall; right; assumption |].
        destruct (proj2 (@compile_pattern_ok rule p)) as [cp Hcp];
          [apply Hall; left; reflexivity |].
        exists (cp :: cs). simpl. unfold bind. rewrite Hcp, Hcs. simpl. auto. }
    destruct Hok as [compiled [Hc Hlen]]. rewrite Hc.
    destruct compiled as [| c cs]; [| eauto].
    exfalso. apply Hne. destruct (effective_patterns rule); [reflexivity | discriminate].
Qed.

Lemma compile_rule_err rule e :
  _compile_rule re_compile rule = Err e ->
  (e = PackError (NoMatchers (Rule.id rule)) /\ effective_patterns rule = [])
  \/ (exists p, In p (effective_patterns rule)
                /\ RulePattern.type p = PatternType.regex
                /\ ((e = PackError (InvalidRegex (Rule.id rule) (RulePattern.value p))
                     /\ re_compile (RulePattern.value p)
                                   (_compile_flags (RulePattern.flags p)) = Re.error)
                    \/ (e = CompileException (RulePattern.value p)
                                             (_compile_flags (RulePattern.flags p))
                        /\ re_compile (RulePattern.value p)
                                      (_compile_flags (RulePattern.flags p))
                           = Re.OtherException))).
Proof.
  unfold _compile_rule, bind.
  destruct (map_result _ _) as [compiled | e'] eqn:Em.
  - destruct compiled as [| c cs]; [| discriminate].
    intros H. injection H as <-. left. split; [reflexivity |].
    apply map_result_ok in Em. inversion Em. reflexivity.
  - intros H. injection H as ->. right.
    apply map_result_err in Em. destruct Em as [p [Hin Hp]].
    apply compile_pattern_err in Hp. exists p. tauto.
Qed.

Lemma compile_rule_patterns_wf rule cr :
  _compile_rule re_compile rule = Ok cr ->
  forall cp, In cp (cr_patterns cr) ->
             match cp_kind cp with
             | PatternType.keyword => cp_keyword cp <> None
             | PatternType.regex => cp_regex cp <> None
             end.
Proof.
  unfold _compile_rule, bind.
  destruct (map_result _ _) as [compiled | e] eqn:Em; [| discriminate].
  destruct compiled as [| c cs]; [discriminate |].
  intros H. injection H as <-. simpl.
  apply map_result_ok in Em. intros cp Hin.
  destruct (@Forall2_in_right _ _ _ _ _ cp Em Hin) as [p [_ Hab]].
  apply compile_pattern_wf in Hab. destruct Hab as [_ Hk].
  destruct (cp_kind cp); [rewrite Hk; discriminate | assumption].
Qed.

(** The check that follows the construction never fires. *)
Lemma first_uncompiled_none rules compiled :
  map_result (_compile_rule re_compile) rules = Ok compiled ->
  first_uncompiled compiled = None.
Proof.
  intros H. apply map_result_ok in H. unfold first_uncompiled.
  assert (E : flat_map (fun cr =>
       flat_map (fun cp =>
         match cp_kind cp, cp_regex cp with
         | PatternType.regex, None =>
             [RegexCompilationFailed (Rule.id (cr_rule cr)) (RulePattern.value (cp_raw cp))]
         | _, _ => []
         end) (cr_patterns cr)) compiled = []); [| rewrite E; reflexivity].
  induction H as [| rule cr rules compiled Hc _ IH]; [reflexivity |].
  simpl. rewrite IH, app_nil_r.
  pose proof (compile_rule_patterns_wf _ Hc) as Hwf.
  induction (cr_patterns cr) as [| cp cps IHc]; [reflexivity |].
  simpl. rewrite IHc by (intros c Hin; apply Hwf; right; assumption).
  specialize (Hwf cp (or_introl eq_refl)).
  destruct (cp_kind cp); [reflexivity |].
  destruct (cp_regex cp); [reflexivity | congruence].
Qed.

Lemma engine_init_ok rules cap :
  (exists engine, RuleEngine_init re_compile VT_API_KEY rules cap = Ok engine)
  <-> (forall r, In r rules -> Rule.enabled r = true -> compilable re_compile r).
Proof.
  unfold RuleEngine_init, bind. split.
  - intros [engine H] r Hin Hen.
    destruct (map_result _ _) as [compiled | e] eqn:Em; [| discriminate].
    apply map_result_ok in Em.
    assert (Hf : In r (filter Rule.enabled rules)) by (apply filter_In; auto).
    destruct (@Forall2_in_left _ _ _ _ _ r Em Hf) as [cr [_ Hcr]].
    apply (proj1 (@compile_rule_compilable r)). eauto.
  - intros Hall.
    assert (Hok : exists compiled,
               map_result (_compile_rule re_compile) (filter Rule.enabled rules) = Ok compiled).
    { assert (Hall' : forall r, In r (filter Rule.enabled rules) -> compilable re_compile r)
        by (intros r Hr; apply filter_In in Hr; destruct Hr; auto).
      clear Hall. induction (filter Rule.enabled rules) as [| r rs IH]; [exists []; reflexivity |].
      destruct IH as [cs Hcs]; [intros q Hq; apply Hall'; right; assumption |].
      destruct (proj2 (@compile_rule_compilable r)) as [cr Hcr];
        [apply Hall'; left; reflexivity |].
      exists (cr :: cs). simpl. unfold bind. rewrite Hcr, Hcs. reflexivity. }
    destruct Hok as [compiled Hc]. rewrite Hc. eauto.
Qed.

Lemma engine_init_rules rules cap engine :
  RuleEngine_init re_compile VT_API_KEY rules cap = Ok engine ->
  _rules engine = filter Rule.enabled rules
  /\ List.map cr_rule (_compiled engine) = filter Rule.enabled rules
  /\ _max_evidence_per_rule engine = Z.to_nat (Z.max 1 cap)
  /\ map_result (_compile_rule re_compile) (filter Rule.enabled rules)
     = Ok (_compiled engine).
Proof.
  unfold RuleEngine_init, bind.
  destruct (map_result _ _) as [compiled | e] eqn:Em; [| discriminate].
  intros H. injection H as <-. simpl. repeat split.
  apply map_result_ok in Em.
  induction Em as [| a b l bs Hab _ IH]; [reflexivity |].
  simpl. rewrite IH. apply compile_rule_ok in Hab. destruct Hab as [-> _]. reflexivity.
Qed.

Lemma engine_init_err rules cap e :
  RuleEngine_init re_compile VT_API_KEY rules cap = Err e ->
  exists rule, In rule rules /\ Rule.enabled rule = true
               /\ _compile_rule re_compile rule = Err e.
Proof.
  unfold RuleEngine_init, bind.
  destruct (map_result _ _) as [compiled | e'] eqn:Em; [discriminate |].
  intros H. injection H as ->. apply map_result_err in Em.
  destruct Em as [rule [Hin Hr]]. apply filter_In in Hin. exists rule. tauto.
Qed.

End LoadingFacts.

(** What an exception that escapes the loading unwrapped comes from: a
    regex among the effective patterns of an enabled rule of the pack, on
    which [re.compile] raises an exception that is no [re.error]. *)
Lemma compile_exception_source
    (re_compile : pystr -> Z -> Re.CompileOutcome)
    (validate : list (Yaml * Yaml) -> result pystr Rule.t)
    (path_exists : pystr -> py bool) (load_yaml : pystr -> option Yaml)
    (VT_API_KEY : option pystr) (path : pystr) (cap : Z) (value : pystr) (flags : Z) :
  from_yaml re_compile validate path_exists load_yaml VT_API_KEY path cap
  = Err (CompileException value flags) ->
  path_exists path = Ret true
  /\ exists items rules rule p,
    load_yaml path = Some (YList items) /\ validated validate items rules
    /\ In rule rules /\ Rule.enabled rule = true
    /\ In p (effective_patterns rule) /\ RulePattern.type p = PatternType.regex
    /\ RulePattern.value p = value /\ _compile_flags (RulePattern.flags p) = flags
    /\ re_compile value flags = Re.OtherException.
Proof.
  unfold from_yaml. destruct (path_exists path) as [[|] |]; try discriminate.
  destruct (load_yaml path) as [raw |]; [| discriminate].
  destruct raw as [| b | z | s | items | entries]; try discriminate.
  destruct (validate_items validate 0 items) as [rules | e0] eqn:Hv; [| discriminate].
  apply validate_items_ok in Hv. unfold bind.
  destruct (RuleEngine_init re_compile VT_API_KEY rules cap) as [engine | e1] eqn:He.
  - destruct (first_uncompiled (_compiled engine)); discriminate.
  - intros H. injection H as ->. split; [reflexivity |].
    apply engine_init_err in He. destruct He as [rule [Hin [Hen Hcr]]].
    apply compile_rule_err in Hcr.
    destruct Hcr as [[Hcr _] | [p [Hp [Hty [[Hcr _] | [Hcr Hre]]]]]]; try discriminate Hcr.
    injection Hcr as -> ->. exists items, rules, rule, p. auto 12.
Qed.




(** ** The reputation service when lookups fail *)

Section CacheFacts.

Lemma forallb_pop (p : pystr * TTLCache._Entry ReputationResult.t -> bool) d key :
  forallb p d = true -> forallb p (Dict.pop d key) = true.
Proof.
  induction d as [| [k v] d IH]; simpl; [reflexivity |].
  rewrite andb_true_iff. intros [H1 H2].
  destruct (str_eqb k key); [assumption |]. simpl. rewrite H1. auto.
Qed.

Lemma forallb_set (p : pystr * TTLCache._Entry ReputationResult.t -> bool) d key v :
  (forall k, p (k, v) = true) ->
  forallb p d = true -> forallb p (Dict.set d key v) = true.
Proof.
  intros Hv. induction d as [| [k v0] d IH]; simpl.
  - intros _. rewrite Hv. reflexivity.
  - rewrite andb_true_iff. intros [H1 H2].
    destruct (str_eqb k key); simpl.
    + rewrite Hv. assumption.
    + rewrite H1. auto.
Qed.

Lemma forallb_skipn {A} (p : A -> bool) n (l : list A) :
  forallb p l = true -> forallb p (skipn n l) = true.
Proof.
  revert l. induction n as [| n IH]; intros [| x l]; simpl; auto.
  rewrite andb_true_iff. intros [_ H]. auto.
Qed.

Lemma forallb_filter {A} (p q : A -> bool) (l : list A) :
  forallb p l = true -> forallb p (filter q l) = true.
Proof.
  induction l as [| x l IH]; simpl; [reflexivity |].
  rewrite andb_true_iff. intros [H1 H2].
  destruct (q x); simpl; [rewrite H1 |]; auto.
Qed.

Lemma dict_get_no_intel (d : Dict.t (TTLCache._Entry ReputationResult.t)) key ent :
  forallb (fun kv => match TTLCache.value (snd kv) with None => true | Some _ => false end) d
  = true ->
  Dict.get d key = Some ent -> TTLCache.value ent = None.
Proof.
  induction d as [| [k v] d IH]; simpl; [discriminate |].
  rewrite andb_true_iff. intros [H1 H2].
  destruct (str_eqb k key); [| auto].
  intros H. injection H as <-. destruct (TTLCache.value v); [discriminate | reflexivity].
Qed.

(** A cache without verdicts answers [None], and stays without verdicts. *)
Lemma cache_get_no_intel (c : TTLCache.t ReputationResult.t) key now :
  no_intel c = true ->
  fst (TTLCache.get c key now) = None
  /\ no_intel (snd (TTLCache.get c key now)) = true
  /\ TTLCache.ttl (snd (TTLCache.get c key now)) = TTLCache.ttl c.
Proof.
  unfold no_intel, TTLCache.get. intros H.
  destruct (Dict.get (TTLCache._data c) key) as [ent |] eqn:E; simpl; [| auto].
  destruct (TTLCache.expires_at ent <=? now)%Z; simpl.
  - split; [reflexivity | split; [apply forallb_pop; assumption | reflexivity]].
  - split; [apply (@dict_get_no_intel _ key ent H E) | auto].
Qed.

Lemma cache_purge_no_intel (c : TTLCache.t ReputationResult.t) now target :
  no_intel c = true ->
  no_intel (TTLCache._purge c now target) = true
  /\ TTLCache.ttl (TTLCache._purge c now target) = TTLCache.ttl c.
Proof.
  unfold no_intel, TTLCache._purge. intros H.
  match goal with |- context [if ?b then _ else _] => destruct b end;
    cbn [TTLCache._data TTLCache.ttl]; split; try reflexivity.
  - apply forallb_filter. assumption.
  - apply forallb_skipn, forallb_filter. assumption.
Qed.

(** Storing [None] files an entry under the key, with the time to live
    added to the clock reading. *)
Lemma cache_set_none (c : TTLCache.t ReputationResult.t) key now :
  no_intel c = true ->
  Dict.get (TTLCache._data (TTLCache.set c key None now)) key
  = Some (TTLCache.mkEntry None (now + TTLCache.ttl c))
  /\ no_intel (TTLCache.set c key None now) = true
  /\ TTLCache.ttl (TTLCache.set c key None now) = TTLCache.ttl c.
Proof.
  intros H. unfold TTLCache.set.
  set (c' := if TTLCache.max_items c <=? length (TTLCache._data c)
             then TTLCache._purge c now (TTLCache.max_items c / 2) else c).
  assert (Hc' : no_intel c' = true /\ TTLCache.ttl c' = TTLCache.ttl c).
  { subst c'. destruct (TTLCache.max_items c <=? length (TTLCache._data c));
      [apply cache_purge_no_intel; assumption | auto]. }
  destruct Hc' as [Hni Httl]. unfold no_intel in *.
  cbn [TTLCache._data TTLCache.ttl].
  rewrite dict_get_set, str_eqb_refl, Httl.
  split; [reflexivity | split; [| reflexivity]].
  apply forallb_set; [reflexivity | assumption].
Qed.

End CacheFacts.

(** A lookup that fails, for want of a verdict in the cache: it returns
    [None], files the failure in the cache, and raises nothing. *)
Lemma lookup_domain_failure (s : UrlReputationService.t) (x : Exchange) (d : pystr) :
  UrlReputationService.enabled s = true ->
  no_intel (UrlReputationService.cache s) = true ->
  http x = HttpFailure ->
  lower (strip d) <> [] ->
  exists s',
    UrlReputationService.lookup_domain s x d = (Ret None, s')
    /\ Dict.get (TTLCache._data (UrlReputationService.cache s')) (cache_key d)
       = Some (TTLCache.mkEntry None
                 (clock_set x + TTLCache.ttl (UrlReputationService.cache s)))
    /\ no_intel (UrlReputationService.cache s') = true
    /\ UrlReputationService.enabled s' = true.
Proof.
  intros Hen Hni Hx Hd. unfold UrlReputationService.lookup_domain, cache_key in *.
  destruct (lower (strip d)) as [| c0 d0] eqn:Ed; [congruence |].
  rewrite Hen. simpl negb. cbv iota.
  destruct (@cache_get_no_intel (UrlReputationService.cache s)
              (lit "vt:domain:" ++ c0 :: d0) (clock_get x) Hni) as [Hg [Hni' Httl]].
  destruct (TTLCache.get (UrlReputationService.cache s) (lit "vt:domain:" ++ c0 :: d0)
                         (clock_get x)) as [cached c1].
  simpl in Hg, Hni', Httl. subst cached. rewrite Hx.
  destruct (@cache_set_none c1 (lit "vt:domain:" ++ c0 :: d0) (clock_set x) Hni')
    as [Hget [Hni'' _]].
  eexists. split; [reflexivity |].
  unfold UrlReputationService.with_cache. simpl.
  rewrite <- Httl. auto.
Qed.

(** Whatever the domain, a failing exchange leaves the service enabled and
    without verdicts, and the lookup answers [None]. *)
Lemma lookup_domain_failure_any (s : UrlReputationService.t) (x : Exchange) (d : pystr) :
  no_intel (UrlReputationService.cache s) = true ->
  http x = HttpFailure ->
  exists s',
    UrlReputationService.lookup_domain s x d = (Ret None, s')
    /\ no_intel (UrlReputationService.cache s') = true
    /\ UrlReputationService.enabled s' = UrlReputationService.enabled s.
Proof.
  intros Hni Hx.
  destruct (UrlReputationService.enabled s) eqn:Hen.
  - destruct (lower (strip d)) as [| c0 d0] eqn:Ed.
    + exists s. unfold UrlReputationService.lookup_domain. rewrite Ed. auto.
    + destruct (@lookup_domain_failure s x d Hen Hni Hx) as [s' [H1 [_ [H2 H3]]]];
        [rewrite Ed; discriminate |].
      exists s'. auto.
  - exists s. unfold UrlReputationService.lookup_domain. rewrite Hen.
    destruct (lower (strip d)); auto.
Qed.

Lemma lookup_flagged_all_fail (env : nat -> Exchange) domains :
  (forall k, http (env k) = HttpFailure) ->
  forall s k flagged,
    no_intel (UrlReputationService.cache s) = true ->
    exists s',
      lookup_flagged s env k domains flagged = (Ret flagged, s')
      /\ no_intel (UrlReputationService.cache s') = true.
Proof.
  intros Henv. induction domains as [| d domains IH]; intros s k flagged Hni; simpl.
  - exists s. auto.
  - destruct (@lookup_domain_failure_any s (env k) d Hni (Henv k)) as [s1 [E [Hni1 _]]].
    rewrite E. apply IH. assumption.
Qed.

Lemma reputation_hits_all_fail (env : nat -> Exchange) s text hay ctx :
  (forall k, http (env k) = HttpFailure) ->
  no_intel (UrlReputationService.cache s) = true ->
  exists s', reputation_hits s env text hay ctx = (Ret [], s').
Proof.
  intros Henv Hni. unfold reputation_hits.
  destruct (UrlReputationService.enabled s); [| eauto].
  destruct (@lookup_flagged_all_fail env (AnalysisContext.domains ctx) Henv s 0 [] Hni)
    as [s' [E _]].
  rewrite E. eauto.
Qed.

Lemma match_reputation_disabled engine env text ctx :
  fst (match_ (reputation_disabled engine) env text (Some ctx))
  = match text with
    | [] => Ret []
    | _ => Ret (yaml_hits engine text (normalize_for_matching text)
                ++ artifact_hits text (normalize_for_matching text) ctx ++ [])
    end.
Proof.
  unfold match_. destruct text as [| c text]; [reflexivity |].
  unfold _context_hits, reputation_hits, reputation_disabled. simpl. reflexivity.
Qed.

Lemma match_all_fail engine env text ctx :
  (forall k, http (env k) = HttpFailure) ->
  no_intel (UrlReputationService.cache (_reputation engine)) = true ->
  exists s',
    match_ engine env text (Some ctx)
    = (fst (match_ (reputation_disabled engine) env text (Some ctx)), s').
Proof.
  intros Henv Hni. rewrite match_reputation_disabled.
  unfold match_. destruct text as [| c text]; [eauto |].
  unfold _context_hits.
  destruct (@reputation_hits_all_fail env (_reputation engine) (c :: text)
              (normalize_for_matching (c :: text)) ctx Henv Hni) as [s' E].
  rewrite E. eauto.
Qed.

(** The rule ids of the hits. *)
Lemma match_rule_id cap cr text hay h :
  match_rule cap cr text hay = Some h -> RuleHit.rule_id h = Rule.id (cr_rule cr).
Proof.
  unfold match_rule. destruct (cr_match_mode cr).
  - destruct (match_any_loop _ _ _ _ _); [discriminate |].
    intros H. injection H as <-. reflexivity.
  - destruct (all_ok _); [| discriminate].
    destruct (all_evidence _); [discriminate |].
    intros H. injection H as <-. reflexivity.
Qed.

Lemma yaml_hits_id engine text hay h :
  In h (yaml_hits engine text hay) ->
  exists cr, In cr (_compiled engine) /\ RuleHit.rule_id h = Rule.id (cr_rule cr).
Proof.
  unfold yaml_hits. rewrite in_flat_map. intros [cr [Hin Hh]].
  destruct (match_rule _ cr text hay) as [h' |] eqn:E; [| destruct Hh].
  destruct Hh as [<- | []]. exists cr. split; [assumption |].
  apply (@match_rule_id _ cr text hay h' E).
Qed.

Lemma artifact_hit_id text hay ctx test mk_hit id h :
  (forall evs, RuleHit.rule_id (mk_hit evs) = id) ->
  In h (artifact_hit text hay ctx test mk_hit) -> RuleHit.rule_id h = id.
Proof.
  intros Hid. unfold artifact_hit.
  destruct (filter test _); [intros [] |].
  destruct (_evidence_for_any_token _ _ _ _ _); [| intros []].
  intros [<- | []]. apply Hid.
Qed.

Lemma artifact_hits_not_reputation text hay ctx h :
  In h (artifact_hits text hay ctx) -> RuleHit.rule_id h <> CTX_URL_REPUTATION.
Proof.
  unfold artifact_hits. rewrite !in_app_iff. intros [H | [H | H]].
  - rewrite (@artifact_hit_id _ _ _ _ shortener_hit CTX_URL_SHORTENER h (fun _ => eq_refl) H).
    vm_compute. discriminate.
  - rewrite (@artifact_hit_id _ _ _ _ punycode_hit CTX_URL_PUNYCODE h (fun _ => eq_refl) H).
    vm_compute. discriminate.
  - rewrite (@artifact_hit_id _ _ _ _ subdomains_hit CTX_URL_SUBDOMAINS h (fun _ => eq_refl) H).
    vm_compute. discriminate.
Qed.

Lemma hits_with_id_zero id (l : list RuleHit.t) :
  (forall h, In h l -> RuleHit.rule_id h <> id) -> hits_with_id id l = 0.
Proof.
  intros H. destruct (hits_with_id id l) eqn:E; [reflexivity |].
  assert (Hp : 1 <= hits_with_id id l) by lia.
  apply hits_with_id_pos in Hp. destruct Hp as [h [Hin Hid]].
  exfalso. exact (H h Hin Hid).
Qed.

(** The hits of a match with the reputation service switched off: the YAML
    rules and the three artifact rules. *)
Lemma match_disabled_hits engine env text ctx :
  exists hits s2,
    match_ (reputation_disabled engine) env text (Some ctx) = (Ret hits, s2)
    /\ forall h, In h hits ->
         (exists cr, In cr (_compiled engine) /\ RuleHit.rule_id h = Rule.id (cr_rule cr))
         \/ RuleHit.rule_id h <> CTX_URL_REPUTATION.
Proof.
  pose proof (match_reputation_disabled engine env text ctx) as E.
  destruct (match_ (reputation_disabled engine) env text (Some ctx)) as [r s2].
  simpl in E. subst r. destruct text as [| c text].
  - exists [], s2. split; [reflexivity | intros h []].
  - eexists. exists s2. split; [reflexivity |].
    intros h Hin. rewrite app_nil_r in Hin. apply in_app_or in Hin.
    destruct Hin as [Hin | Hin].
    + left. apply (yaml_hits_id _ _ _ _ Hin).
    + right. apply (artifact_hits_not_reputation _ _ _ _ Hin).
Qed.

(** The reputation service is enabled, its cache holds no verdict, and
    every lookup of the analysis fails (the request raises, the status is an
    error, or the body is not JSON).  Then each lookup of a domain returns
    [None] and files the failure in the cache under the key of the domain;
    the analysis completes with a result that holds no CTX-URL-REPUTATION
    hit, no loaded rule bearing that id; and the result is the one the same
    analysis gives with the reputation service switched off, so every other
    hit is intact. *)
Lemma failing_lookups_add_no_hit :
  forall (emails phones : pystr -> list pystr) (a : Analyzer.t) (env : nat -> Exchange)
         (subject body from_email reply_to headers_raw : option pystr)
         (attachments : option (list pystr)),
    let s := _reputation (Analyzer.engine a) in
    UrlReputationService.enabled s = true ->
    no_intel (UrlReputationService.cache s) = true ->
    (forall k, http (env k) = HttpFailure) ->
    (forall cr, In cr (_compiled (Analyzer.engine a)) ->
                Rule.id (cr_rule cr) <> CTX_URL_REPUTATION) ->
    (forall k d, lower (strip d) <> [] ->
       exists s',
         UrlReputationService.lookup_domain s (env k) d = (Ret None, s')
         /\ Dict.get (TTLCache._data (UrlReputationService.cache s')) (cache_key d)
            = Some (TTLCache.mkEntry None
                      (clock_set (env k) + TTLCache.ttl (UrlReputationService.cache s))))
    /\ exists result s',
         Analyzer.analyze emails phones a env
           subject body from_email reply_to headers_raw attachments = (Ret result, s')
         /\ hits_with_id CTX_URL_REPUTATION (AnalysisResult.hits result) = 0
         /\ fst (Analyzer.analyze emails phones
                   (Analyzer.mk (reputation_disabled (Analyzer.engine a))) env
                   subject body from_email reply_to headers_raw attachments)
            = Ret result.
Proof.
  intros emails phones a env subject body from_email reply_to headers_raw attachments
         s Hen Hni Henv Hids.
  split.
  - intros k d Hd.
    destruct (@lookup_domain_failure s (env k) d Hen Hni (Henv k) Hd) as [s' [H1 [H2 _]]].
    exists s'. auto.
  - unfold Analyzer.analyze. cbn [Analyzer.engine].
    set (text := _join_message_parts subject body from_email reply_to headers_raw attachments).
    set (ctx := extract_all emails phones text).
    destruct (@match_all_fail (Analyzer.engine a) env text ctx Henv Hni) as [s' E].
    destruct (match_disabled_hits (Analyzer.engine a) env text ctx)
      as [hits [s2 [Ed Hhits]]].
    rewrite E, Ed. simpl fst.
    exists (score_to_result hits), s'. split; [reflexivity |]. split; [| reflexivity].
    unfold score_to_result. cbn [AnalysisResult.hits].
    apply hits_with_id_zero. intros h Hin.
    apply unique_hits_spec, last_with_id_Some in Hin. destruct Hin as [Hin _].
    destruct (Hhits h Hin) as [[cr [Hcr Hid]] | Hne]; [| assumption].
    rewrite Hid. apply Hids. assumption.
Qed.

Lemma failed_lookup_is_asked_again (s : UrlReputationService.t) (x1 x2 : Exchange)
    (d : pystr) (m su h u : Z) :
  UrlReputationService.enabled s = true ->
  no_intel (UrlReputationService.cache s) = true ->
  lower (strip d) <> [] ->
  http x1 = HttpFailure ->
  http x2 = HttpStats m su h u ->
  fst (UrlReputationService.lookup_domain
         (snd (UrlReputationService.lookup_domain s x1 d)) x2 d)
  = Ret (Some (ReputationResult.mk (lower (strip d)) m su h u)).
Proof.
  intros Hen Hni Hd H1 H2.
  destruct (@lookup_domain_failure s x1 d Hen Hni H1 Hd) as [s' [E [_ [Hni' Hen']]]].
  rewrite E. simpl snd. unfold UrlReputationService.lookup_domain.
  destruct (lower (strip d)) as [| c0 d0] eqn:Ed; [congruence |].
  rewrite Hen'. simpl negb. cbv iota.
  destruct (@cache_get_no_intel (UrlReputationService.cache s')
              (lit "vt:domain:" ++ c0 :: d0) (clock_get x2) Hni') as [Hg _].
  destruct (TTLCache.get (UrlReputationService.cache s') (lit "vt:domain:" ++ c0 :: d0)
                         (clock_get x2)) as [cached c1].
  simpl in Hg. subst cached. rewrite H2. reflexivity.
Qed.

(** C8: a lookup failure is meant to count as no intelligence, to be cached
    as such, and never to abort the analysis.  With a reputation key
    configured, the message body [Go to https://bad.example/login] is
    analysed while the service answers the lookup of [bad.example] with a
    body that lacks the expected shape: the statements that read the counts
    stand after the [try] block, their exception is caught nowhere on the
    way up, and the analysis raises instead of returning a result.  And a
    failure that has been stored is not served from the cache: the stored
    [None] reads as a miss, so after a lookup that failed at clock reading
    0 and was filed until 3600, the next lookup of the domain, at clock
    reading 1, asks the service again and returns what it answers then. *)
Theorem C8_unexpected_response_aborts :
  forall (emails phones : pystr -> list pystr),
    let s := _reputation keyed_engine in
    let failed := UrlReputationService.lookup_domain s (failing_world 0) (lit "bad.example") in
    fst (Analyzer.analyze emails phones (Analyzer.mk keyed_engine) unreadable_world
           None (Some bad_body) None None None None) = Exc
    /\ fst (UrlReputationService.lookup_domain s (unreadable_world 0) (lit "bad.example"))
       = Exc
    /\ fst failed = Ret None
    /\ Dict.get (TTLCache._data (UrlReputationService.cache (snd failed)))
                (cache_key (lit "bad.example"))
       = Some (TTLCache.mkEntry None 3600)
    /\ fst (UrlReputationService.lookup_domain (snd failed)
              (mkExchange 1 (HttpStats 5 0 60 10) 1) (lit "bad.example"))
       = Ret (Some (ReputationResult.mk (lit "bad.example") 5 0 60 10)).
Proof.
  intros emails phones s failed. split.
  - unfold Analyzer.analyze. run_match. reflexivity.
  - repeat split; vm_compute; reflexivity.
Qed.

(** ** Offsets of the evidence

    The spans are found in the normalized text, so they lie within it; they
    lie within the analyzed text when the two have the same length, which
    is the case for every text without U+0130. *)

Section Offsets.
Variables text hay : pystr.
Hypothesis hay_covers_text : length text <= length hay.

Lemma find_keyword_loop_ok remaining needle label pattern start ev :
  In ev (_find_keyword_loop remaining text hay needle label pattern start) ->
  evidence_ok text (length hay) ev.
Proof.
  revert start. induction remaining as [| n IH]; intros start; simpl; [intros [] |].
  destruct (find hay needle start) as [idx |] eqn:E; [| intros []].
  intros [<- | Hin]; [| apply (IH _ Hin)].
  apply find_sound in E. destruct E as [_ [[Hlen _] _]].
  unfold evidence_ok. simpl. repeat split; lia.
Qed.

Lemma find_regex_loop_ok m spans label pattern out ev :
  (forall s e, In (s, e) spans -> s <= e <= length text) ->
  (forall x, In x out -> evidence_ok text (length text) x) ->
  In ev (_find_regex_loop m text spans label pattern out) ->
  evidence_ok text (length text) ev.
Proof.
  revert out. induction spans as [| [s e] spans IH]; intros out Hsp Hout; simpl.
  - apply Hout.
  - assert (Hsp' : forall s' e', In (s', e') spans -> s' <= e' <= length text)
      by (intros s' e' H; apply Hsp; right; assumption).
    destruct (s =? e); [apply IH; assumption |].
    assert (Hout' : forall x,
      In x (out ++ [Evidence.mk PatternType.regex pattern (slice text s e) s e
                                (_snippet text s e) label]) ->
      evidence_ok text (length text) x).
    { intros x Hx. apply in_app_or in Hx. destruct Hx as [Hx | [<- | []]]; [auto |].
      specialize (Hsp s e (or_introl eq_refl)).
      unfold evidence_ok. simpl. repeat split; lia. }
    destruct (m <=? length _); [apply Hout' | apply IH; assumption].
Qed.

Lemma match_one_ok cp ev :
  (forall rx, cp_regex cp = Some rx -> spans_in_text rx) ->
  In ev (_match_one cp text hay) -> evidence_ok text (length hay) ev.
Proof.
  intros Hrx. unfold _match_one. destruct (cp_kind cp).
  - destruct (cp_keyword cp) as [kw |]; [| intros []].
    unfold _find_keyword. destruct kw; [intros [] | apply find_keyword_loop_ok].
  - destruct (cp_regex cp) as [rx |]; [| intros []].
    unfold _find_regex. intros Hin.
    assert (Hok : evidence_ok text (length text) ev).
    { apply (@find_regex_loop_ok 10 (Re.finditer rx text) (RulePattern.label (cp_raw cp))
               (RulePattern.value (cp_raw cp)) [] ev);
        [intros s e; apply (Hrx rx eq_refl) | intros x [] | assumption]. }
    destruct Hok as [H1 [H2 H3]].
    unfold evidence_ok. repeat split; auto; lia.
Qed.

Lemma match_all_loop_ok cap cps evidence tested ev :
  (forall cp rx, In cp cps -> cp_regex cp = Some rx -> spans_in_text rx) ->
  (forall x, In x evidence -> evidence_ok text (length hay) x) ->
  In ev (all_evidence (match_all_loop cap cps text hay evidence tested)) ->
  evidence_ok text (length hay) ev.
Proof.
  revert evidence tested. induction cps as [| cp cps IH]; intros evidence tested Hrx Hev; simpl.
  - apply Hev.
  - destruct (_match_one cp text hay) as [| ev0 rest] eqn:E; simpl; [apply Hev |].
    assert (Hev' : forall x, In x (evidence ++ [ev0]) -> evidence_ok text (length hay) x).
    { intros x Hx. apply in_app_or in Hx. destruct Hx as [Hx | [<- | []]]; [auto |].
      apply (@match_one_ok cp ev0);
        [intros rx; apply Hrx; left; reflexivity | rewrite E; left; reflexivity]. }
    destruct (cap <=? length _); simpl; [apply Hev' |].
    apply IH; [intros c rx Hc; apply Hrx; right; assumption | assumption].
Qed.

Lemma append_until_cap_ok cap evs evidence ev :
  (forall x, In x evs -> evidence_ok text (length hay) x) ->
  (forall x, In x evidence -> evidence_ok text (length hay) x) ->
  In ev (append_until_cap cap evs evidence) -> evidence_ok text (length hay) ev.
Proof.
  revert evidence. induction evs as [| e0 evs IH]; intros evidence Hevs Hev; simpl.
  - apply Hev.
  - assert (Hev' : forall x, In x (evidence ++ [e0]) -> evidence_ok text (length hay) x).
    { intros x Hx. apply in_app_or in Hx. destruct Hx as [Hx | [<- | []]]; [auto |].
      apply Hevs. left. reflexivity. }
    destruct (cap <=? length _); [apply Hev' |].
    apply IH; [intros x Hx; apply Hevs; right; assumption | assumption].
Qed.

Lemma match_any_loop_ok cap cps evidence ev :
  (forall cp rx, In cp cps -> cp_regex cp = Some rx -> spans_in_text rx) ->
  (forall x, In x evidence -> evidence_ok text (length hay) x) ->
  In ev (match_any_loop cap cps text hay evidence) -> evidence_ok text (length hay) ev.
Proof.
  revert evidence. induction cps as [| cp cps IH]; intros evidence Hrx Hev; simpl.
  - apply Hev.
  - assert (Hev' : forall x, In x (append_until_cap cap (_match_one cp text hay) evidence) ->
                             evidence_ok text (length hay) x).
    { intros x. apply append_until_cap_ok; [| assumption].
      intros y Hy. apply (@match_one_ok cp y); [| assumption].
      intros rx. apply Hrx. left. reflexivity. }
    destruct (cap <=? length _); [apply Hev' |].
    apply IH; [intros c rx Hc; apply Hrx; right; assumption | assumption].
Qed.

Lemma match_rule_ok cap cr h ev :
  (forall cp rx, In cp (cr_patterns cr) -> cp_regex cp = Some rx -> spans_in_text rx) ->
  match_rule cap cr text hay = Some h -> In ev (RuleHit.evidence h) ->
  evidence_ok text (length hay) ev.
Proof.
  intros Hrx. unfold match_rule. destruct (cr_match_mode cr).
  - destruct (match_any_loop cap (cr_patterns cr) text hay []) as [| e0 evs] eqn:E;
      [discriminate |].
    intros H. injection H as <-. unfold _to_hit. cbn [RuleHit.evidence]. rewrite <- E.
    apply match_any_loop_ok; [assumption | intros x []].
  - destruct (all_ok _); [| discriminate].
    destruct (all_evidence _) as [| e0 evs] eqn:E; [discriminate |].
    intros H. injection H as <-. unfold _to_hit. cbn [RuleHit.evidence]. rewrite <- E.
    apply match_all_loop_ok; [assumption | intros x []].
Qed.

Lemma first_located_ok tokens idx u :
  first_located hay tokens = Some (idx, u) -> idx + length u <= length hay.
Proof.
  induction tokens as [| t tokens IH]; simpl; [discriminate |].
  destruct t as [| c t]; [assumption |].
  destruct (find hay (lower (c :: t)) 0) as [i |] eqn:E; [| assumption].
  intros H. injection H as <- <-.
  apply find_sound in E. destruct E as [_ [[Hlen _] _]].
  pose proof (lower_length_ge (c :: t)). lia.
Qed.

Lemma evidence_for_any_token_ok urls domains kind ev :
  _evidence_for_any_token text hay urls domains kind = Some ev ->
  evidence_ok text (length hay) ev.
Proof.
  unfold _evidence_for_any_token.
  destruct (first_located hay urls) as [[idx u] |] eqn:Eu.
  - intros H. injection H as <-. apply first_located_ok in Eu.
    unfold evidence_ok. simpl. repeat split; lia.
  - destruct (first_located hay domains) as [[idx d] |] eqn:Ed; [| discriminate].
    intros H. injection H as <-. apply first_located_ok in Ed.
    unfold evidence_ok. simpl. repeat split; lia.
Qed.

Lemma artifact_hit_ok ctx test mk_hit h ev :
  (forall evs, RuleHit.evidence (mk_hit evs) = evs) ->
  In h (artifact_hit text hay ctx test mk_hit) -> In ev (RuleHit.evidence h) ->
  evidence_ok text (length hay) ev.
Proof.
  intros Hmk. unfold artifact_hit.
  destruct (filter test _); [intros [] |].
  destruct (_evidence_for_any_token _ _ _ _ _) as [e0 |] eqn:E; [| intros []].
  intros [<- | []]. rewrite Hmk. intros [<- | []].
  eapply evidence_for_any_token_ok; exact E.
Qed.

Lemma reputation_hits_ok s env ctx hits s' h ev :
  reputation_hits s env text hay ctx = (Ret hits, s') ->
  In h hits -> In ev (RuleHit.evidence h) -> evidence_ok text (length hay) ev.
Proof.
  unfold reputation_hits. destruct (UrlReputationService.enabled s).
  - destruct (lookup_flagged _ _ _ _ _) as [[flagged |] s1]; [| discriminate].
    destruct flagged as [| f fs]; [intros H; injection H as <- _; intros [] |].
    destruct (_evidence_for_any_token _ _ _ _ _) as [e0 |] eqn:E.
    + intros H. injection H as <- _. intros [<- | []]. simpl. intros [<- | []].
      eapply evidence_for_any_token_ok; exact E.
    + intros H. injection H as <- _. intros [].
  - intros H. injection H as <- _. intros [].
Qed.

End Offsets.

(** Every evidence item of a match lies within the normalized text, and
    records the slice of the analyzed text that its span delimits. *)
Lemma match_evidence_in_haystack engine env text ctx hits s' h ev :
  regexes_sound engine ->
  match_ engine env text ctx = (Ret hits, s') ->
  In h hits -> In ev (RuleHit.evidence h) ->
  evidence_ok text (length (normalize_for_matching text)) ev.
Proof.
  intros Hrx. unfold match_. destruct text as [| c text].
  - intros H. injection H as <- _. intros [].
  - set (t := c :: text).
    assert (Hyaml : forall h, In h (yaml_hits engine t (normalize_for_matching t)) ->
                    In ev (RuleHit.evidence h) ->
                    evidence_ok t (length (normalize_for_matching t)) ev).
    { intros h0 Hin. unfold yaml_hits in Hin. apply in_flat_map in Hin.
      destruct Hin as [cr [Hcr Hh]].
      destruct (match_rule _ cr t _) as [h1 |] eqn:E; [| destruct Hh].
      destruct Hh as [<- | []].
      apply (@match_rule_ok t (normalize_for_matching t) (normalize_length_ge t)
               (_max_evidence_per_rule engine) cr h1 ev); [| assumption].
      intros cp rx Hcp Hreg. apply (Hrx cr cp rx); assumption. }
    destruct ctx as [ctx |].
    + unfold _context_hits.
      destruct (reputation_hits _ _ _ _ _) as [[rep |] s1] eqn:Er; [| discriminate].
      intros H. injection H as <- _. rewrite !in_app_iff.
      intros [Hin | [Hin | Hin]]; [apply Hyaml; assumption | |].
      * unfold artifact_hits in Hin. rewrite !in_app_iff in Hin.
        destruct Hin as [Hin | [Hin | Hin]].
        -- apply (@artifact_hit_ok t (normalize_for_matching t) (normalize_length_ge t)
                    ctx is_shortener_domain shortener_hit h ev (fun _ => eq_refl) Hin).
        -- apply (@artifact_hit_ok t (normalize_for_matching t) (normalize_length_ge t)
                    ctx is_punycode_domain punycode_hit h ev (fun _ => eq_refl) Hin).
        -- apply (@artifact_hit_ok t (normalize_for_matching t) (normalize_length_ge t)
                    ctx (fun d => 5 <=? subdomain_count d) subdomains_hit h ev
                    (fun _ => eq_refl) Hin).
      * apply (@reputation_hits_ok t (normalize_for_matching t) (normalize_length_ge t)
                 _ _ _ _ _ h ev Er Hin).
    + intros H. injection H as <- _. apply Hyaml.
Qed.

(** On a text without U+0130 the offsets of every evidence item are valid
    offsets into the analyzed text. *)
Lemma match_evidence_in_text engine env text ctx hits s' h ev :
  ~ In 0x130%N text -> regexes_sound engine ->
  match_ engine env text ctx = (Ret hits, s') ->
  In h hits -> In ev (RuleHit.evidence h) ->
  evidence_ok text (length text) ev.
Proof.
  intros Hdot Hrx Hm Hh Hev.
  pose proof (@match_evidence_in_haystack engine env text ctx hits s' h ev Hrx Hm Hh Hev)
    as Hok.
  rewrite (@normalize_length_without_dotted_I text Hdot) in Hok. exact Hok.
Qed.

(** ** Highlights *)

Lemma insert_highlight_In x y l :
  In x (insert_highlight y l) <-> x = y \/ In x l.
Proof.
  induction l as [| z l IH]; simpl.
  - split; [intros [<- | []]; auto | intros [-> | []]; auto].
  - destruct (highlight_key_le z y); simpl; [rewrite IH |]; split; intuition auto.
Qed.

Lemma sort_highlights_In x l : In x (sort_highlights l) <-> In x l.
Proof.
  unfold sort_highlights.
  assert (G : forall acc, In x (fold_left (fun sorted y => insert_highlight y sorted) l acc)
                          <-> In x l \/ In x acc).
  { induction l as [| y l IH]; intros acc; simpl; [tauto |].
    rewrite IH, insert_highlight_In. split; intuition auto. }
  rewrite G. simpl. tauto.
Qed.

(** Every highlight is the span of an evidence item of one of the hits. *)
Lemma build_highlights_from_evidence hits hl :
  In hl (build_highlights hits) ->
  exists h ev, In h hits /\ In ev (RuleHit.evidence h)
               /\ TextHighlight.start hl = Evidence.start ev
               /\ TextHighlight.end_ hl = Evidence.end_ ev
               /\ TextHighlight.rule_id hl = RuleHit.rule_id h.
Proof.
  unfold build_highlights. rewrite sort_highlights_In.
  set (P := fun (seen : list RuleHit.t) (x : TextHighlight.t) =>
              exists h ev, In h seen /\ In ev (RuleHit.evidence h)
                           /\ TextHighlight.start x = Evidence.start ev
                           /\ TextHighlight.end_ x = Evidence.end_ ev
                           /\ TextHighlight.rule_id x = RuleHit.rule_id h).
  assert (Inner : forall h evs out,
    (forall ev, In ev evs -> In ev (RuleHit.evidence h)) ->
    forall x,
      In x (fold_left (fun out ev =>
              if highlight_seen (Evidence.start ev) (Evidence.end_ ev) (RuleHit.rule_id h) out
              then out
              else out ++ [TextHighlight.mk (Evidence.start ev) (Evidence.end_ ev)
                                            (RuleHit.rule_id h) (RuleHit.title h)])
              evs out) ->
      In x out \/ P [h] x).
  { intros h evs. induction evs as [| ev evs IH]; intros out Hsub x; simpl; [auto |].
    intros Hx. apply IH in Hx; [| intros e He; apply Hsub; right; assumption].
    destruct Hx as [Hx | Hx]; [| auto].
    destruct (highlight_seen _ _ _ out); [auto |].
    apply in_app_or in Hx. destruct Hx as [Hx | [<- | []]]; [auto |].
    right. exists h, ev.
    split; [left; reflexivity |].
    split; [apply Hsub; left; reflexivity |].
    repeat split. }
  assert (Outer : forall hs out x,
    In x (fold_left (fun out h =>
            fold_left (fun out ev =>
              if highlight_seen (Evidence.start ev) (Evidence.end_ ev) (RuleHit.rule_id h) out
              then out
              else out ++ [TextHighlight.mk (Evidence.start ev) (Evidence.end_ ev)
                                            (RuleHit.rule_id h) (RuleHit.title h)])
              (RuleHit.evidence h) out) hs out) ->
    In x out \/ P hs x).
  { induction hs as [| h hs IH]; intros out x; simpl; [auto |].
    intros Hx. apply IH in Hx. destruct Hx as [Hx | [h' [ev [Hin Hrest]]]].
    - apply Inner in Hx; [| intros e He; exact He].
      destruct Hx as [Hx | [h' [ev [Hh' Hrest]]]]; [left; exact Hx |].
      destruct Hh' as [<- | []].
      right. exists h, ev. split; [left; reflexivity | assumption].
    - right. exists h', ev. split; [right; assumption | assumption]. }
  intros Hin. apply Outer in Hin. destruct Hin as [[] | Hin]. exact Hin.
Qed.

(** On a text without U+0130, every evidence item and every highlight of
    the result lies within the analyzed text, and every evidence item
    records the slice of the text that its span delimits. *)
Lemma result_offsets_in_text engine env text ctx hits s' :
  ~ In 0x130%N text -> regexes_sound engine ->
  match_ engine env text ctx = (Ret hits, s') ->
  (forall h ev, In h (AnalysisResult.hits (score_to_result hits)) ->
                In ev (RuleHit.evidence h) -> evidence_ok text (length text) ev)
  /\ (forall hl, In hl (AnalysisResult.highlights (score_to_result hits)) ->
                 TextHighlight.start hl <= TextHighlight.end_ hl <= length text).
Proof.
  intros Hdot Hrx Hm. unfold score_to_result.
  cbn [AnalysisResult.hits AnalysisResult.highlights].
  assert (Hev : forall h ev, In h (unique_hits hits) -> In ev (RuleHit.evidence h) ->
                             evidence_ok text (length text) ev).
  { intros h ev Hh. apply unique_hits_spec, last_with_id_Some in Hh. destruct Hh as [Hh _].
    apply (@match_evidence_in_text engine env text ctx hits s' h ev); assumption. }
  split; [exact Hev |].
  intros hl Hhl. apply build_highlights_from_evidence in Hhl.
  destruct Hhl as [h [ev [Hh [He [Hs [Hen _]]]]]].
  destruct (Hev h ev Hh He) as [H1 [H2 _]]. lia.
Qed.

(* ================================================================== *)
(** * Further properties of the code *)
(* ================================================================== *)

(** ** The TTL cache *)

Section TTLCacheFacts.
Variable A : Type.
Implicit Types (c : TTLCache.t A) (d : Dict.t (TTLCache._Entry A)).

Lemma dict_set_length d key e :
  length (Dict.set d key e) <= S (length d).
Proof.
  induction d as [| [k v] d IH]; simpl; [lia |].
  destruct (str_eqb k key); simpl; lia.
Qed.

Lemma dict_pop_length d key : length (Dict.pop d key) <= length d.
Proof.
  induction d as [| [k v] d IH]; simpl; [lia |].
  destruct (str_eqb k key); simpl; lia.
Qed.

Lemma dict_pop_keys_incl d key k : In k (Dict.keys (Dict.pop d key)) -> In k (Dict.keys d).
Proof.
  unfold Dict.keys. induction d as [| [k0 v] d IH]; simpl; [tauto |].
  destruct (str_eqb k0 key); simpl; [auto | intros [H | H]; auto].
Qed.

Lemma dict_pop_NoDup d key : NoDup (Dict.keys d) -> NoDup (Dict.keys (Dict.pop d key)).
Proof.
  unfold Dict.keys. induction d as [| [k0 v] d IH]; simpl; intros H; [constructor |].
  inversion H as [| ? ? Hn Hd]; subst.
  destruct (str_eqb k0 key); [assumption |]. simpl. constructor; [| auto].
  intros Hin. apply Hn. exact (dict_pop_keys_incl _ _ _ Hin).
Qed.

Lemma dict_pop_get d key : NoDup (Dict.keys d) -> Dict.get (Dict.pop d key) key = None.
Proof.
  unfold Dict.keys. induction d as [| [k0 v] d IH]; simpl; intros H; [reflexivity |].
  inversion H as [| ? ? Hn Hd]; subst.
  destruct (str_eqb k0 key) eqn:E.
  - apply str_eqb_eq in E. subst k0.
    destruct (Dict.get d key) as [e |] eqn:G; [| reflexivity].
    exfalso. apply Hn. apply (dict_get_In d key e Hd) in G.
    apply (in_map fst) in G. exact G.
  - simpl. rewrite E. auto.
Qed.

Lemma NoDup_keys_filter d (q : pystr * TTLCache._Entry A -> bool) :
  NoDup (Dict.keys d) -> NoDup (Dict.keys (filter q d)).
Proof.
  unfold Dict.keys. induction d as [| kv d IH]; simpl; intros H; [constructor |].
  inversion H as [| ? ? Hn Hd]; subst.
  destruct (q kv); [| auto]. simpl. constructor; [| auto].
  intros Hin. apply Hn. apply in_map_iff in Hin. destruct Hin as [x [Hx Hf]].
  apply filter_In in Hf. apply in_map_iff. exists x. tauto.
Qed.

Lemma NoDup_keys_skipn d n : NoDup (Dict.keys d) -> NoDup (Dict.keys (skipn n d)).
Proof.
  unfold Dict.keys. revert d. induction n as [| n IH]; intros [| kv d]; simpl; auto.
  intros H. inversion H; subst. auto.
Qed.

(** What [_purge] leaves: no more than before, no more than the target,
    the same settings, and distinct keys. *)
Lemma purge_facts c now target :
  let c' := TTLCache._purge c now target in
  length (TTLCache._data c') <= length (TTLCache._data c)
  /\ length (TTLCache._data c') <= target
  /\ TTLCache.ttl c' = TTLCache.ttl c
  /\ TTLCache.max_items c' = TTLCache.max_items c
  /\ (NoDup (Dict.keys (TTLCache._data c)) -> NoDup (Dict.keys (TTLCache._data c'))).
Proof.
  unfold TTLCache._purge.
  set (live := filter _ (TTLCache._data c)).
  assert (Hl : length live <= length (TTLCache._data c)) by apply filter_length_le.
  destruct (Nat.leb_spec (length live) target) as [H | H];
    cbn [TTLCache._data TTLCache.ttl TTLCache.max_items].
  - repeat split; auto. intros Hn. apply NoDup_keys_filter. assumption.
  - rewrite length_skipn. repeat split; try lia.
    intros Hn. apply NoDup_keys_skipn, NoDup_keys_filter. assumption.
Qed.

(** The cache [set] works on: [c] itself, or [c] purged when it is full. *)
Lemma set_unfold c key v now :
  TTLCache.set c key v now
  = let c' := if TTLCache.max_items c <=? length (TTLCache._data c)
              then TTLCache._purge c now (TTLCache.max_items c / 2) else c in
    TTLCache.mk (TTLCache.ttl c') (TTLCache.max_items c')
      (Dict.set (TTLCache._data c') key (TTLCache.mkEntry v (now + TTLCache.ttl c'))).
Proof. reflexivity. Qed.

Lemma set_facts c key v now :
  let c1 := TTLCache.set c key v now in
  TTLCache.ttl c1 = TTLCache.ttl c
  /\ TTLCache.max_items c1 = TTLCache.max_items c
  /\ Dict.get (TTLCache._data c1) key = Some (TTLCache.mkEntry v (now + TTLCache.ttl c))
  /\ (2 <= TTLCache.max_items c ->
      length (TTLCache._data c) <= TTLCache.max_items c ->
      length (TTLCache._data c1) <= TTLCache.max_items c)
  /\ (NoDup (Dict.keys (TTLCache._data c)) -> NoDup (Dict.keys (TTLCache._data c1))).
Proof.
  cbv zeta. rewrite set_unfold. cbv zeta.
  destruct (purge_facts c now (TTLCache.max_items c / 2)) as [P1 [P2 [P3 [P4 P5]]]].
  cbv zeta in P1, P2, P3, P4, P5.
  destruct (Nat.leb_spec (TTLCache.max_items c) (length (TTLCache._data c))) as [H | H];
    cbn [TTLCache._data TTLCache.ttl TTLCache.max_items].
  - rewrite P3, P4, dict_get_set, str_eqb_refl. repeat split.
    + intros H2 _.
      pose proof (dict_set_length (TTLCache._data
                    (TTLCache._purge c now (TTLCache.max_items c / 2))) key
                    (TTLCache.mkEntry v (now + TTLCache.ttl c))) as L.
      assert (D : TTLCache.max_items c / 2 < TTLCache.max_items c)
        by (apply Nat.div_lt; lia).
      lia.
    + intros Hn. apply dict_set_NoDup. auto.
  - rewrite dict_get_set, str_eqb_refl. repeat split.
    + intros _ _.
      pose proof (dict_set_length (TTLCache._data c) key
                    (TTLCache.mkEntry v (now + TTLCache.ttl c))) as L. lia.
    + intros Hn. apply dict_set_NoDup. assumption.
Qed.

Lemma get_facts c key now :
  let c1 := snd (TTLCache.get c key now) in
  TTLCache.ttl c1 = TTLCache.ttl c
  /\ TTLCache.max_items c1 = TTLCache.max_items c
  /\ length (TTLCache._data c1) <= length (TTLCache._data c)
  /\ (NoDup (Dict.keys (TTLCache._data c)) -> NoDup (Dict.keys (TTLCache._data c1))).
Proof.
  unfold TTLCache.get.
  destruct (Dict.get (TTLCache._data c) key) as [ent |]; simpl; [| auto].
  destruct (TTLCache.expires_at ent <=? now)%Z; simpl; [| auto].
  repeat split; [apply dict_pop_length | apply dict_pop_NoDup].
Qed.

(** The invariant of a cache built by [TTLCache(...)] and used through
    [get] and [set]. *)
Lemma cache_run_inv c ops :
  2 <= TTLCache.max_items c ->
  length (TTLCache._data c) <= TTLCache.max_items c ->
  NoDup (Dict.keys (TTLCache._data c)) ->
  let c1 := cache_run c ops in
  TTLCache.ttl c1 = TTLCache.ttl c
  /\ TTLCache.max_items c1 = TTLCache.max_items c
  /\ length (TTLCache._data c1) <= TTLCache.max_items c
  /\ NoDup (Dict.keys (TTLCache._data c1)).
Proof.
  revert c. induction ops as [| op ops IH]; intros c H2 Hlen Hn; simpl; [auto |].
  unfold cache_run in *. simpl.
  assert (Hstep : TTLCache.ttl (cache_step c op) = TTLCache.ttl c
                  /\ TTLCache.max_items (cache_step c op) = TTLCache.max_items c
                  /\ length (TTLCache._data (cache_step c op)) <= TTLCache.max_items c
                  /\ NoDup (Dict.keys (TTLCache._data (cache_step c op)))).
  { destruct op as [key now | key v now]; simpl.
    - destruct (get_facts c key now) as [G1 [G2 [G3 G4]]]. cbv zeta in *.
      repeat split; auto; lia.
    - destruct (set_facts c key v now) as [S1 [S2 [_ [S4 S5]]]]. cbv zeta in *.
      repeat split; auto. }
  destruct Hstep as [T1 [T2 [T3 T4]]].
  destruct (IH (cache_step c op)) as [I1 [I2 [I3 I4]]]; try assumption; try lia.
  cbv zeta in *. rewrite I1, I2, T1, T2. repeat split; auto. lia.
Qed.

End TTLCacheFacts.

(** X1: a value stored with [set] is what [get] returns for the same key
    as long as the clock has not reached the expiry, the reading of [set]
    plus the time to live; the entry is filed with that expiry. *)
Theorem X1_cache_set_then_get :
  forall (A : Type) (c : TTLCache.t A) (key : pystr) (v : option A) (now now' : Z),
    (now' < now + TTLCache.ttl c)%Z ->
    TTLCache.get (TTLCache.set c key v now) key now'
    = (v, TTLCache.set c key v now)
    /\ Dict.get (TTLCache._data (TTLCache.set c key v now)) key
       = Some (TTLCache.mkEntry v (now + TTLCache.ttl c)).
Proof.
  intros A c key v now now' Hlt.
  destruct (set_facts c key v now) as [_ [_ [G _]]]. cbv zeta in G.
  split; [| exact G].
  unfold TTLCache.get. rewrite G. simpl.
  destruct (Z.leb_spec (now + TTLCache.ttl c) now'); [lia | reflexivity].
Qed.

Lemma X1_cache_set_then_get_witness :
  TTLCache.get (TTLCache.set (TTLCache.init nat 60 100) (lit "k") (Some 7) 1000) (lit "k") 1059
  = (Some 7, TTLCache.set (TTLCache.init nat 60 100) (lit "k") (Some 7) 1000)
  /\ Dict.get (TTLCache._data (TTLCache.set (TTLCache.init nat 60 100) (lit "k") (Some 7) 1000))
              (lit "k")
     = Some (TTLCache.mkEntry (Some 7) (1000 + TTLCache.ttl (TTLCache.init nat 60 100))).
Proof.
  apply (@X1_cache_set_then_get nat (TTLCache.init nat 60 100) (lit "k") (Some 7) 1000 1059).
  simpl. lia.
Defined.

(** X2: once the clock has reached the expiry of an entry, [get] returns
    [None] for its key and removes the entry, so that the key is absent from
    the cache afterwards; the cache is one built by [TTLCache(...)] and used
    through [get] and [set]. *)
Theorem X2_cache_expiry :
  forall (A : Type) (ttl_seconds max_items : Z) (ops : list (CacheOp A))
         (key : pystr) (v : option A) (now now' : Z),
    let c := cache_run (TTLCache.init A ttl_seconds max_items) ops in
    (now + TTLCache.ttl c <= now')%Z ->
    fst (TTLCache.get (TTLCache.set c key v now) key now') = None
    /\ Dict.get (TTLCache._data (snd (TTLCache.get (TTLCache.set c key v now) key now'))) key
       = None.
Proof.
  intros A t m ops key v now now' c Hexp.
  destruct (@cache_run_inv A (TTLCache.init A t m) ops) as [_ [_ [_ Hn]]];
    [simpl; lia | simpl; lia | constructor |].
  fold c in Hn.
  destruct (set_facts c key v now) as [_ [_ [G [_ Hn']]]]. cbv zeta in G, Hn'.
  unfold TTLCache.get. rewrite G. simpl.
  destruct (Z.leb_spec (now + TTLCache.ttl c) now'); [| lia]. simpl.
  split; [reflexivity |]. apply dict_pop_get. auto.
Qed.

Lemma X2_cache_expiry_witness :
  let c := cache_run (TTLCache.init nat 60 100) [OpSet (lit "a") (Some 1) 0] in
  fst (TTLCache.get (TTLCache.set c (lit "k") (Some 7) 1000) (lit "k") 1060) = None
  /\ Dict.get (TTLCache._data
                 (snd (TTLCache.get (TTLCache.set c (lit "k") (Some 7) 1000) (lit "k") 1060)))
              (lit "k")
     = None.
Proof.
  apply (@X2_cache_expiry nat 60 100 [OpSet (lit "a") (Some 1) 0] (lit "k") (Some 7) 1000 1060).
  simpl. lia.
Defined.

(** X3: a cache built by [TTLCache(ttl_seconds, max_items)] and used
    through any sequence of [get] and [set] calls never holds more than its
    [max_items] entries, which are at least 50, and keeps its time to live,
    which is at least 1. *)
Theorem X3_cache_never_exceeds_max_items :
  forall (A : Type) (ttl_seconds max_items : Z) (ops : list (CacheOp A)),
    let c := cache_run (TTLCache.init A ttl_seconds max_items) ops in
    length (TTLCache._data c) <= TTLCache.max_items c
    /\ TTLCache.max_items c = Z.to_nat (Z.max 50 max_items)
    /\ 50 <= TTLCache.max_items c
    /\ TTLCache.ttl c = Z.max 1 ttl_seconds
    /\ NoDup (Dict.keys (TTLCache._data c)).
Proof.
  intros A t m ops c.
  destruct (@cache_run_inv A (TTLCache.init A t m) ops) as [I1 [I2 [I3 I4]]];
    [simpl; lia | simpl; lia | constructor |].
  fold c in I1, I2, I3, I4. simpl in I1, I2, I3.
  rewrite I2. repeat split; auto; lia.
Qed.

(** ** The reputation service and its cache *)

Section EntryPredicates.
Variable q : TTLCache._Entry ReputationResult.t -> bool.

Lemma purge_forallb (c : TTLCache.t ReputationResult.t) now target :
  forallb (fun kv => q (snd kv)) (TTLCache._data c) = true ->
  forallb (fun kv => q (snd kv)) (TTLCache._data (TTLCache._purge c now target)) = true.
Proof.
  unfold TTLCache._purge. intros H.
  match goal with |- context [if ?b then _ else _] => destruct b end;
    cbn [TTLCache._data].
  - apply forallb_filter. assumption.
  - apply forallb_skipn, forallb_filter. assumption.
Qed.

Lemma set_forallb (c : TTLCache.t ReputationResult.t) key v now :
  q (TTLCache.mkEntry v (now + TTLCache.ttl c)) = true ->
  forallb (fun kv => q (snd kv)) (TTLCache._data c) = true ->
  forallb (fun kv => q (snd kv)) (TTLCache._data (TTLCache.set c key v now)) = true.
Proof.
  intros Hv H. rewrite set_unfold. cbv zeta.
  destruct (purge_facts c now (TTLCache.max_items c / 2)) as [_ [_ [P3 _]]].
  cbv zeta in P3.
  destruct (TTLCache.max_items c <=? length (TTLCache._data c));
    cbn [TTLCache._data].
  - rewrite P3. apply forallb_set; [intros k; exact Hv | apply purge_forallb; assumption].
  - apply forallb_set; [intros k; exact Hv | assumption].
Qed.

Lemma get_forallb (c : TTLCache.t ReputationResult.t) key now :
  forallb (fun kv => q (snd kv)) (TTLCache._data c) = true ->
  forallb (fun kv => q (snd kv)) (TTLCache._data (snd (TTLCache.get c key now))) = true.
Proof.
  unfold TTLCache.get. intros H.
  destruct (Dict.get (TTLCache._data c) key) as [ent |]; simpl; [| assumption].
  destruct (TTLCache.expires_at ent <=? now)%Z; simpl; [| assumption].
  apply forallb_pop. assumption.
Qed.

Lemma dict_get_forallb (d : Dict.t (TTLCache._Entry ReputationResult.t)) key ent :
  forallb (fun kv => q (snd kv)) d = true -> Dict.get d key = Some ent -> q ent = true.
Proof.
  induction d as [| [k v] d IH]; simpl; [discriminate |].
  rewrite andb_true_iff. intros [H1 H2].
  destruct (str_eqb k key); [| auto].
  intros H. injection H as <-. exact H1.
Qed.

End EntryPredicates.

Lemma set_clean (c : TTLCache.t ReputationResult.t) key v now :
  match v with None => true | Some r => verdict_clean r end = true ->
  cache_clean c = true -> cache_clean (TTLCache.set c key v now) = true.
Proof.
  unfold cache_clean. intros Hv H.
  apply (@set_forallb (fun e => match TTLCache.value e with
                                | None => true | Some r0 => verdict_clean r0 end)
           c key v now Hv H).
Qed.

Lemma cache_get_clean (c : TTLCache.t ReputationResult.t) key now r :
  cache_clean c = true ->
  fst (TTLCache.get c key now) = Some r -> verdict_clean r = true.
Proof.
  unfold cache_clean, TTLCache.get. intros H.
  destruct (Dict.get (TTLCache._data c) key) as [ent |] eqn:E; simpl; [| discriminate].
  destruct (TTLCache.expires_at ent <=? now)%Z; simpl; [discriminate |].
  intros Hv.
  pose proof (@dict_get_forallb
                (fun e => match TTLCache.value e with
                          | None => true | Some r0 => verdict_clean r0 end)
                (TTLCache._data c) key ent H E) as Hq.
  simpl in Hq. rewrite Hv in Hq. exact Hq.
Qed.

(** A lookup that brings no flagging verdict, on a cache that holds none:
    it raises nothing, answers [None] or a clean verdict, and leaves the
    cache without flagging verdicts. *)
Lemma lookup_domain_quiet (s : UrlReputationService.t) (x : Exchange) (d : pystr) :
  cache_clean (UrlReputationService.cache s) = true ->
  quiet x = true ->
  exists r s',
    UrlReputationService.lookup_domain s x d = (Ret r, s')
    /\ match r with None => True | Some v => verdict_clean v = true end
    /\ cache_clean (UrlReputationService.cache s') = true
    /\ UrlReputationService.enabled s' = UrlReputationService.enabled s.
Proof.
  intros Hc Hq. unfold UrlReputationService.lookup_domain.
  destruct (lower (strip d)) as [| c0 d0]; [exists None, s; auto |].
  destruct (UrlReputationService.enabled s) eqn:Hen; simpl negb; cbv iota;
    [| exists None, s; auto].
  set (key := lit "vt:domain:" ++ c0 :: d0).
  pose proof (@cache_get_clean (UrlReputationService.cache s) key (clock_get x)) as Hg.
  pose proof (@get_forallb
                (fun e => match TTLCache.value e with
                          | None => true | Some r0 => verdict_clean r0 end)
                (UrlReputationService.cache s) key (clock_get x) Hc) as Hc1.
  destruct (TTLCache.get (UrlReputationService.cache s) key (clock_get x)) as [cached c1].
  simpl in Hg, Hc1.
  destruct cached as [r |].
  - exists (Some r), (UrlReputationService.with_cache s c1).
    split; [reflexivity |]. split; [apply Hg; [assumption | reflexivity] |]. auto.
  - unfold quiet in Hq. destruct (http x) as [| | m su h u |]; try discriminate.
    + exists None. eexists. split; [reflexivity |]. split; [exact I |].
      split; [| exact Hen]. simpl. apply set_clean; [reflexivity | exact Hc1].
    + exists None. eexists. split; [reflexivity |]. split; [exact I |].
      split; [| exact Hen]. simpl. apply set_clean; [reflexivity | exact Hc1].
    + eexists. eexists. split; [reflexivity |]. split; [exact Hq |].
      split; [| exact Hen]. simpl. apply set_clean; [exact Hq | exact Hc1].
Qed.

Lemma lookup_flagged_quiet (env : nat -> Exchange) domains :
  (forall k, quiet (env k) = true) ->
  forall s k flagged,
    cache_clean (UrlReputationService.cache s) = true ->
    exists s',
      lookup_flagged s env k domains flagged = (Ret flagged, s')
      /\ cache_clean (UrlReputationService.cache s') = true.
Proof.
  intros Henv. induction domains as [| d domains IH]; intros s k flagged Hc; simpl.
  - exists s. auto.
  - destruct (@lookup_domain_quiet s (env k) d Hc (Henv k)) as [r [s1 [E [Hr [Hc1 _]]]]].
    rewrite E. destruct r as [v |]; [| apply IH; assumption].
    unfold verdict_clean in Hr. apply andb_true_iff in Hr. destruct Hr as [Hm Hs].
    apply Z.leb_le in Hm, Hs.
    destruct (Z.gtb_spec (ReputationResult.malicious v) 0); [lia |].
    destruct (Z.gtb_spec (ReputationResult.suspicious v) 0); [lia |].
    simpl. apply IH. assumption.
Qed.

(** The two ways a lookup answers with a verdict: from the network on a
    miss, from the cache on a hit. *)
Lemma lookup_domain_fetch (s : UrlReputationService.t) (x : Exchange) (d : pystr)
    (m su h u : Z) :
  UrlReputationService.enabled s = true ->
  lower (strip d) <> [] ->
  fst (TTLCache.get (UrlReputationService.cache s) (cache_key d) (clock_get x)) = None ->
  http x = HttpStats m su h u ->
  UrlReputationService.lookup_domain s x d
  = (Ret (Some (ReputationResult.mk (lower (strip d)) m su h u)),
     UrlReputationService.with_cache s
       (TTLCache.set
          (snd (TTLCache.get (UrlReputationService.cache s) (cache_key d) (clock_get x)))
          (cache_key d) (Some (ReputationResult.mk (lower (strip d)) m su h u))
          (clock_set x))).
Proof.
  intros Hen Hd Hmiss Hx. unfold UrlReputationService.lookup_domain, cache_key in *.
  destruct (lower (strip d)) as [| c0 d0]; [congruence |].
  rewrite Hen. simpl negb. cbv iota.
  destruct (TTLCache.get (UrlReputationService.cache s) (lit "vt:domain:" ++ c0 :: d0)
                         (clock_get x)) as [cached c1].
  simpl in Hmiss. subst cached. rewrite Hx. reflexivity.
Qed.

Lemma lookup_domain_hit (s : UrlReputationService.t) (x : Exchange) (d : pystr)
    (r : ReputationResult.t) :
  UrlReputationService.enabled s = true ->
  lower (strip d) <> [] ->
  fst (TTLCache.get (UrlReputationService.cache s) (cache_key d) (clock_get x)) = Some r ->
  fst (UrlReputationService.lookup_domain s x d) = Ret (Some r).
Proof.
  intros Hen Hd Hhit. unfold UrlReputationService.lookup_domain, cache_key in *.
  destruct (lower (strip d)) as [| c0 d0]; [congruence |].
  rewrite Hen. simpl negb. cbv iota.
  destruct (TTLCache.get (UrlReputationService.cache s) (lit "vt:domain:" ++ c0 :: d0)
                         (clock_get x)) as [cached c1].
  simpl in Hhit. subst cached. reflexivity.
Qed.

(** X4: a verdict fetched for a domain is served from the cache while it
    has not expired: the second lookup returns the same verdict whatever the
    network would answer then, be it a failure or unreadable data. *)
Theorem X4_verdict_served_from_cache :
  forall (s : UrlReputationService.t) (x1 x2 : Exchange) (d : pystr) (m su h u : Z),
    UrlReputationService.enabled s = true ->
    lower (strip d) <> [] ->
    fst (TTLCache.get (UrlReputationService.cache s) (cache_key d) (clock_get x1)) = None ->
    http x1 = HttpStats m su h u ->
    (clock_get x2 < clock_set x1 + TTLCache.ttl (UrlReputationService.cache s))%Z ->
    let res := ReputationResult.mk (lower (strip d)) m su h u in
    fst (UrlReputationService.lookup_domain s x1 d) = Ret (Some res)
    /\ fst (UrlReputationService.lookup_domain
              (snd (UrlReputationService.lookup_domain s x1 d)) x2 d)
       = Ret (Some res).
Proof.
  intros s x1 x2 d m su h u Hen Hd Hmiss Hx1 Hfresh res. subst res.
  rewrite (@lookup_domain_fetch s x1 d m su h u Hen Hd Hmiss Hx1).
  split; [reflexivity |]. cbn [snd].
  apply lookup_domain_hit; [exact Hen | exact Hd |].
  cbn [UrlReputationService.with_cache UrlReputationService.cache].
  destruct (get_facts (UrlReputationService.cache s) (cache_key d) (clock_get x1))
    as [Httl _]. cbv zeta in Httl.
  set (c1 := snd (TTLCache.get (UrlReputationService.cache s) (cache_key d) (clock_get x1)))
    in *.
  destruct (set_facts c1 (cache_key d)
              (Some (ReputationResult.mk (lower (strip d)) m su h u)) (clock_set x1))
    as [_ [_ [G _]]]. cbv zeta in G.
  unfold TTLCache.get. rewrite G. cbn [TTLCache.expires_at TTLCache.value].
  destruct (Z.leb_spec (clock_set x1 + TTLCache.ttl c1) (clock_get x2)); [lia |].
  reflexivity.
Qed.

Lemma X4_verdict_served_from_cache_witness :
  let s := UrlReputationService.init (Some (lit "secret")) None in
  let x1 := mkExchange 0 (HttpStats 2 0 0 0) 1 in
  let x2 := mkExchange 3000 HttpUnreadable 3000 in
  let res := ReputationResult.mk (lower (strip (lit "Bad.Example"))) 2 0 0 0 in
  fst (UrlReputationService.lookup_domain s x1 (lit "Bad.Example")) = Ret (Some res)
  /\ fst (UrlReputationService.lookup_domain
            (snd (UrlReputationService.lookup_domain s x1 (lit "Bad.Example"))) x2
            (lit "Bad.Example"))
     = Ret (Some res).
Proof.
  apply (@X4_verdict_served_from_cache (UrlReputationService.init (Some (lit "secret")) None)
           (mkExchange 0 (HttpStats 2 0 0 0) 1) (mkExchange 3000 HttpUnreadable 3000)
           (lit "Bad.Example") 2 0 0 0).
  - reflexivity.
  - vm_compute. discriminate.
  - reflexivity.
  - reflexivity.
  - simpl. lia.
Defined.

(** X5: when no lookup brings a flagging verdict (each fails, answers 404,
    or returns counts that are not positive) and the cache holds none, the
    context rules raise nothing and return the hits of the three artifact
    rules only, none of which is a reputation hit; the match returns what it
    returns with the reputation service switched off. *)
Theorem X5_clean_verdicts_add_no_hit :
  forall (engine : RuleEngine) (env : nat -> Exchange) (text haystack : pystr)
         (ctx : AnalysisContext.t),
    cache_clean (UrlReputationService.cache (_reputation engine)) = true ->
    (forall k, quiet (env k) = true) ->
    (exists s',
       _context_hits (_reputation engine) env text haystack ctx
       = (Ret (artifact_hits text haystack ctx), s')
       /\ cache_clean (UrlReputationService.cache s') = true)
    /\ (forall h, In h (artifact_hits text haystack ctx) ->
                  RuleHit.rule_id h <> CTX_URL_REPUTATION)
    /\ exists s',
         match_ engine env text (Some ctx)
         = (fst (match_ (reputation_disabled engine) env text (Some ctx)), s').
Proof.
  intros engine env text hay ctx Hc Henv.
  assert (Hctx : forall t y, exists s',
             _context_hits (_reputation engine) env t y ctx
             = (Ret (artifact_hits t y ctx), s')
             /\ cache_clean (UrlReputationService.cache s') = true).
  { intros t y. unfold _context_hits, reputation_hits.
    destruct (UrlReputationService.enabled (_reputation engine)).
    - destruct (@lookup_flagged_quiet env (AnalysisContext.domains ctx) Henv
                  (_reputation engine) 0 [] Hc) as [s' [E Hc']].
      rewrite E, app_nil_r. eauto.
    - rewrite app_nil_r. eauto. }
  split; [apply Hctx |]. split; [intros h; apply artifact_hits_not_reputation |].
  rewrite match_reputation_disabled.
  unfold match_. destruct text as [| c text]; [eauto |].
  destruct (Hctx (c :: text) (normalize_for_matching (c :: text))) as [s' [E _]].
  rewrite E, app_nil_r. eauto.
Qed.

Lemma X5_clean_verdicts_add_no_hit_witness :
  let env := fun _ : nat => mkExchange 0 (HttpStats 0 0 50 10) 0 in
  let ctx := AnalysisContext.mk [lit "https://clean.example/article"] [lit "clean.example"] [] [] in
  let text := lit "Read more at https://clean.example/article" in
  let haystack := normalize_for_matching text in
  (exists s',
     _context_hits (_reputation keyed_engine) env text haystack ctx
     = (Ret (artifact_hits text haystack ctx), s')
     /\ cache_clean (UrlReputationService.cache s') = true)
  /\ (forall h, In h (artifact_hits text haystack ctx) ->
                RuleHit.rule_id h <> CTX_URL_REPUTATION)
  /\ exists s',
       match_ keyed_engine env text (Some ctx)
       = (fst (match_ (reputation_disabled keyed_engine) env text (Some ctx)), s').
Proof.
  apply (@X5_clean_verdicts_add_no_hit keyed_engine
           (fun _ : nat => mkExchange 0 (HttpStats 0 0 50 10) 0)
           (lit "Read more at https://clean.example/article")
           (normalize_for_matching (lit "Read more at https://clean.example/article"))
           (AnalysisContext.mk [lit "https://clean.example/article"] [lit "clean.example"] [] [])).
  - reflexivity.
  - intros k. reflexivity.
Defined.

(** ** Context rules *)

Lemma find_none_iff hay needle :
  find hay needle 0 = None <-> forall i, ~ occurs_at hay needle i.
Proof.
  split.
  - intros H i Hocc.
    destruct (@find_complete hay needle 0 i ltac:(lia) Hocc) as [j Hj]. congruence.
  - intros H. destruct (find hay needle 0) as [j |] eqn:E; [| reflexivity].
    exfalso. apply find_sound in E. destruct E as [_ [Hocc _]]. exact (H j Hocc).
Qed.

Lemma first_located_none hay tokens :
  first_located hay tokens = None <-> none_located hay tokens.
Proof.
  unfold none_located. induction tokens as [| t tokens IH]; simpl.
  - split; [intros _ t [] | reflexivity].
  - destruct t as [| c t].
    + rewrite IH. split.
      * intros H t' [<- | Hin] Hne; [congruence | apply H; assumption].
      * intros H t' Hin. apply H. right. assumption.
    + destruct (find hay (lower (c :: t)) 0) as [idx |] eqn:E.
      * split; [discriminate |]. intros H. exfalso.
        apply find_sound in E. destruct E as [_ [Hocc _]].
        apply (H (c :: t) (or_introl eq_refl) ltac:(discriminate) idx Hocc).
      * rewrite IH. split.
        -- intros H t' [<- | Hin] Hne; [apply find_none_iff; exact E | apply H; assumption].
        -- intros H t' Hin. apply H. right. assumption.
Qed.

Lemma first_located_split hay tokens idx u :
  first_located hay tokens = Some (idx, u) -> first_locatable hay tokens u idx.
Proof.
  unfold first_locatable. induction tokens as [| t tokens IH]; cbn [first_located];
    [discriminate |].
  assert (Hskip : (forall i, ~ occurs_at hay (lower t) i) \/ t = [] ->
                  first_located hay tokens = Some (idx, u) ->
                  exists before after,
                    t :: tokens = before ++ u :: after
                    /\ none_located hay before /\ located_first hay u idx).
  { intros Ht H. destruct (IH H) as [before [after [E [Hnone Hloc]]]].
    exists (t :: before), after. split; [rewrite E; reflexivity |].
    split; [| exact Hloc]. intros t' [<- | Hin] Hne i.
    - destruct Ht as [Ht | Ht]; [apply Ht | congruence].
    - apply Hnone; assumption. }
  destruct t as [| c t]; [apply Hskip; right; reflexivity |].
  destruct (find hay (lower (c :: t)) 0) as [i |] eqn:E.
  - intros H. injection H as <- <-. exists [], tokens.
    split; [reflexivity |]. split; [intros t' [] |].
    apply find_sound in E. destruct E as [_ [Hocc Hfirst]].
    split; [discriminate |]. split; [exact Hocc |].
    intros k Hk. apply Hfirst. lia.
  - apply Hskip. left. apply find_none_iff. exact E.
Qed.

(** The evidence of a context rule: a URL if one can be located, the first
    such in the list at its first occurrence; a domain only otherwise. *)
Lemma evidence_for_any_token_located text hay urls domains kind ev :
  _evidence_for_any_token text hay urls domains kind = Some ev ->
  Evidence.kind ev = kind
  /\ Evidence.match_ ev = slice text (Evidence.start ev) (Evidence.end_ ev)
  /\ Evidence.snippet ev = _snippet text (Evidence.start ev) (Evidence.end_ ev)
  /\ ((exists u, first_locatable hay urls u (Evidence.start ev)
                 /\ Evidence.end_ ev = Evidence.start ev + length u
                 /\ Evidence.label ev = Some (lit "url")
                 /\ Evidence.pattern ev = lit "context:url")
      \/ (none_located hay urls
          /\ exists d, first_locatable hay domains d (Evidence.start ev)
                       /\ Evidence.end_ ev = Evidence.start ev + length d
                       /\ Evidence.label ev = Some (lit "domain")
                       /\ Evidence.pattern ev = lit "context:domain")).
Proof.
  unfold _evidence_for_any_token.
  destruct (first_located hay urls) as [[idx u] |] eqn:Eu.
  - intros H. injection H as <-. cbn.
    apply first_located_split in Eu.
    split; [reflexivity |]. split; [reflexivity |]. split; [reflexivity |].
    left. exists u. auto.
  - apply first_located_none in Eu.
    destruct (first_located hay domains) as [[idx d] |] eqn:Ed; [| discriminate].
    intros H. injection H as <-. cbn.
    apply first_located_split in Ed.
    split; [reflexivity |]. split; [reflexivity |]. split; [reflexivity |].
    right. split; [exact Eu |]. exists d. auto.
Qed.

Lemma reputation_key_lt_iff (a b : ReputationResult.t) :
  reputation_key_lt a b = true
  <-> (ReputationResult.malicious a < ReputationResult.malicious b
       \/ (ReputationResult.malicious a = ReputationResult.malicious b
           /\ ReputationResult.suspicious a < ReputationResult.suspicious b))%Z.
Proof.
  unfold reputation_key_lt.
  rewrite orb_true_iff, andb_true_iff, !Z.ltb_lt, Z.eqb_eq. tauto.
Qed.

Lemma reputation_key_lt_false (a b : ReputationResult.t) :
  reputation_key_lt a b = false
  <-> (ReputationResult.malicious b < ReputationResult.malicious a
       \/ (ReputationResult.malicious a = ReputationResult.malicious b
           /\ ReputationResult.suspicious b <= ReputationResult.suspicious a))%Z.
Proof.
  rewrite <- not_true_iff_false, reputation_key_lt_iff. lia.
Qed.

(** [top_flagged] returns a verdict of the list that no verdict of the list
    exceeds. *)
Lemma top_flagged_max best rest :
  In (top_flagged best rest) (best :: rest)
  /\ forall r, In r (best :: rest) -> reputation_key_lt (top_flagged best rest) r = false.
Proof.
  revert best. induction rest as [| x rest IH]; intros best; simpl.
  - split; [left; reflexivity |]. intros r [<- | []].
    apply reputation_key_lt_false. lia.
  - destruct (reputation_key_lt best x) eqn:E.
    + destruct (IH x) as [Hin Hmax]. split.
      * right. exact Hin.
      * intros r [<- | Hr]; [| apply Hmax, Hr].
        specialize (Hmax x (or_introl eq_refl)).
        apply reputation_key_lt_iff in E. apply reputation_key_lt_false in Hmax.
        apply reputation_key_lt_false. lia.
    + destruct (IH best) as [Hin Hmax]. split.
      * destruct Hin as [<- | Hin]; [left; reflexivity | right; right; exact Hin].
      * intros r [<- | [<- | Hr]].
        -- apply Hmax. left. reflexivity.
        -- specialize (Hmax best (or_introl eq_refl)).
           apply reputation_key_lt_false in E, Hmax.
           apply reputation_key_lt_false. lia.
        -- apply Hmax. right. exact Hr.
Qed.

(** Only verdicts with a positive malicious or suspicious count are
    flagged. *)
Lemma lookup_flagged_positive env domains :
  forall s k flagged flagged' s',
    lookup_flagged s env k domains flagged = (Ret flagged', s') ->
    (forall r, In r flagged ->
       (0 < ReputationResult.malicious r \/ 0 < ReputationResult.suspicious r)%Z) ->
    forall r, In r flagged' ->
      (0 < ReputationResult.malicious r \/ 0 < ReputationResult.suspicious r)%Z.
Proof.
  induction domains as [| d domains IH]; intros s k flagged flagged' s'; simpl.
  - intros H. injection H as <- _. auto.
  - destruct (UrlReputationService.lookup_domain s (env k) d) as [[res |] s1]; [| discriminate].
    intros H Hpos. apply (IH _ _ _ _ _ H).
    destruct res as [v |]; [| exact Hpos].
    destruct ((ReputationResult.malicious v >? 0) || (ReputationResult.suspicious v >? 0))%Z
      eqn:E; [| exact Hpos].
    intros r Hr. apply in_app_or in Hr. destruct Hr as [Hr | [<- | []]]; [auto |].
    apply orb_true_iff in E. destruct E as [E | E]; apply Z.gtb_lt in E; lia.
Qed.

(** X6: when the reputation rule fires, its single hit stands for a flagged
    verdict that no other flagged verdict exceeds in the pair (malicious,
    suspicious); that verdict has a positive malicious or suspicious count;
    and the weight is 25 when its malicious count is positive and 18
    otherwise.  The one evidence item is not tied to the domain of that
    verdict: it spans the first URL of the message that can be located,
    whatever its domain, and only when no URL can be located the first
    occurrence of the domain of the verdict. *)
Theorem X6_reputation_hit_represents_top_verdict :
  forall (s : UrlReputationService.t) (env : nat -> Exchange) (text haystack : pystr)
         (ctx : AnalysisContext.t) (hits : list RuleHit.t),
    fst (reputation_hits s env text haystack ctx) = Ret hits ->
    hits = []
    \/ exists flagged top ev,
         fst (lookup_flagged s env 0 (AnalysisContext.domains ctx) []) = Ret flagged
         /\ In top flagged
         /\ (forall r, In r flagged -> reputation_key_lt top r = false)
         /\ (0 < ReputationResult.malicious top \/ 0 < ReputationResult.suspicious top)%Z
         /\ hits = [reputation_hit
                      (if (0 <? ReputationResult.malicious top)%Z then 25%Z else 18%Z) [ev]]
         /\ Evidence.match_ ev = slice text (Evidence.start ev) (Evidence.end_ ev)
         /\ ((exists u, first_locatable haystack (AnalysisContext.urls ctx) u
                                        (Evidence.start ev)
                        /\ Evidence.end_ ev = Evidence.start ev + length u
                        /\ Evidence.label ev = Some (lit "url"))
             \/ (none_located haystack (AnalysisContext.urls ctx)
                 /\ located_first haystack (ReputationResult.domain top) (Evidence.start ev)
                 /\ Evidence.end_ ev
                    = Evidence.start ev + length (ReputationResult.domain top)
                 /\ Evidence.label ev = Some (lit "domain"))).
Proof.
  intros s env text hay ctx hits. unfold reputation_hits.
  destruct (UrlReputationService.enabled s).
  2:{ intros H. injection H as <-. left. reflexivity. }
  destruct (lookup_flagged s env 0 (AnalysisContext.domains ctx) []) as [[flagged |] s1] eqn:E;
    [| discriminate].
  destruct flagged as [| f fs]; [intros H; injection H as <-; left; reflexivity |].
  destruct (top_flagged_max f fs) as [Hin Hmax].
  destruct (_evidence_for_any_token text hay (AnalysisContext.urls ctx)
              [ReputationResult.domain (top_flagged f fs)] PatternType.keyword)
    as [ev |] eqn:Ev.
  - intros H. injection H as <-. right.
    exists (f :: fs), (top_flagged f fs), ev.
    split; [reflexivity |]. split; [exact Hin |]. split; [exact Hmax |].
    split; [apply (@lookup_flagged_positive env _ _ _ _ _ _ E); [intros r [] | exact Hin] |].
    split; [rewrite Z.gtb_ltb; reflexivity |].
    apply evidence_for_any_token_located in Ev.
    destruct Ev as [_ [Hm [_ [[u [Hu [He [Hl _]]]] | [Hnone [d [Hd [He [Hl _]]]]]]]]].
    + split; [exact Hm |]. left. exists u. auto.
    + split; [exact Hm |]. right.
      destruct Hd as [before [after [Hsplit [_ Hloc]]]].
      assert (Ed : d = ReputationResult.domain (top_flagged f fs)).
      { destruct before as [| b0 before].
        - cbn [app] in Hsplit. injection Hsplit as Hd _. symmetry. exact Hd.
        - cbn [app] in Hsplit. injection Hsplit as _ Hnil.
          destruct before; discriminate Hnil. }
      subst d. auto.
  - intros H. injection H as <-. left. reflexivity.
Qed.

Lemma X6_reputation_hit_represents_top_verdict_witness :
  let s := UrlReputationService.init (Some (lit "secret")) None in
  let env := fun k : nat =>
    mkExchange 0 (match k with 0 => HttpStats 0 0 70 5 | _ => HttpStats 5 0 60 10 end) 0 in
  let text := lit "See https://good.example/ and https://evil.example/x" in
  let haystack := normalize_for_matching text in
  let ctx := AnalysisContext.mk [lit "https://good.example/"; lit "https://evil.example/x"]
                                [lit "good.example"; lit "evil.example"] [] [] in
  let hits := [reputation_hit 25
                 [Evidence.mk PatternType.keyword (lit "context:url")
                              (lit "https://good.example/") 4 25
                              (_snippet text 4 25) (Some (lit "url"))]] in
  hits = []
  \/ exists flagged top ev,
       fst (lookup_flagged s env 0 (AnalysisContext.domains ctx) []) = Ret flagged
       /\ In top flagged
       /\ (forall r, In r flagged -> reputation_key_lt top r = false)
       /\ (0 < ReputationResult.malicious top \/ 0 < ReputationResult.suspicious top)%Z
       /\ hits = [reputation_hit
                    (if (0 <? ReputationResult.malicious top)%Z then 25%Z else 18%Z) [ev]]
       /\ Evidence.match_ ev = slice text (Evidence.start ev) (Evidence.end_ ev)
       /\ ((exists u, first_locatable haystack (AnalysisContext.urls ctx) u
                                      (Evidence.start ev)
                      /\ Evidence.end_ ev = Evidence.start ev + length u
                      /\ Evidence.label ev = Some (lit "url"))
           \/ (none_located haystack (AnalysisContext.urls ctx)
               /\ located_first haystack (ReputationResult.domain top) (Evidence.start ev)
               /\ Evidence.end_ ev
                  = Evidence.start ev + length (ReputationResult.domain top)
               /\ Evidence.label ev = Some (lit "domain"))).
Proof.
  apply (@X6_reputation_hit_represents_top_verdict
           (UrlReputationService.init (Some (lit "secret")) None)
           (fun k : nat =>
              mkExchange 0 (match k with 0 => HttpStats 0 0 70 5 | _ => HttpStats 5 0 60 10 end)
                         0)
           (lit "See https://good.example/ and https://evil.example/x")
           (normalize_for_matching (lit "See https://good.example/ and https://evil.example/x"))
           (AnalysisContext.mk [lit "https://good.example/"; lit "https://evil.example/x"]
                               [lit "good.example"; lit "evil.example"] [] [])).
  vm_compute. reflexivity.
Defined.

Lemma artifact_hit_cases text hay ctx test mk_hit :
  artifact_hit text hay ctx test mk_hit = []
  \/ exists ev, artifact_hit text hay ctx test mk_hit = [mk_hit [ev]].
Proof.
  unfold artifact_hit. destruct (filter test _); [left; reflexivity |].
  destruct (_evidence_for_any_token _ _ _ _ _) as [ev |]; [right; eauto | left; reflexivity].
Qed.

Lemma reputation_hits_cases s env text hay ctx hits s' :
  reputation_hits s env text hay ctx = (Ret hits, s') ->
  hits = [] \/ exists w ev, hits = [reputation_hit w [ev]] /\ (w = 25%Z \/ w = 18%Z).
Proof.
  unfold reputation_hits. destruct (UrlReputationService.enabled s).
  - destruct (lookup_flagged _ _ _ _ _) as [[flagged |] s1]; [| discriminate].
    destruct flagged as [| f fs]; [intros H; injection H as <- _; auto |].
    destruct (_evidence_for_any_token _ _ _ _ _) as [ev |].
    + intros H. injection H as <- _. right. eexists. exists ev. split; [reflexivity |].
      destruct (_ >? 0)%Z; auto.
    + intros H. injection H as <- _. auto.
  - intros H. injection H as <- _. auto.
Qed.

(** X7: the context rules return at most four hits, at most one per
    context rule id; each hit carries exactly one evidence item and the
    weight, severity and action of its rule: shortener 14 high block,
    punycode 12 high block, subdomains 10 medium verify-out-of-band,
    reputation 25 or 18 high block. *)
Theorem X7_context_hits_shape :
  forall (s : UrlReputationService.t) (env : nat -> Exchange) (text haystack : pystr)
         (ctx : AnalysisContext.t) (hits : list RuleHit.t),
    fst (_context_hits s env text haystack ctx) = Ret hits ->
    length hits <= 4
    /\ NoDup (List.map RuleHit.rule_id hits)
    /\ forall h, In h hits -> context_hit_shape h.
Proof.
  intros s env text hay ctx hits. unfold _context_hits.
  destruct (reputation_hits s env text hay ctx) as [[rep |] s1] eqn:Er; [| discriminate].
  simpl fst. intros H. injection H as <-.
  unfold artifact_hits.
  destruct (artifact_hit_cases text hay ctx is_shortener_domain shortener_hit)
    as [-> | [e1 ->]];
  destruct (artifact_hit_cases text hay ctx is_punycode_domain punycode_hit)
    as [-> | [e2 ->]];
  destruct (artifact_hit_cases text hay ctx (fun d => 5 <=? subdomain_count d) subdomains_hit)
    as [-> | [e3 ->]];
  destruct (reputation_hits_cases _ _ _ _ _ Er) as [-> | [w [e4 [-> Hw]]]];
  (split; [simpl; lia |]);
  (split; [simpl; repeat constructor; simpl; intuition discriminate |]);
  simpl; intros h Hin;
  repeat (destruct Hin as [<- | Hin]; [unfold context_hit_shape; simpl; split; [eauto | tauto] |]);
  destruct Hin.
Qed.

Lemma X7_context_hits_shape_witness :
  let s := UrlReputationService.init None None in
  let text := lit "Please verify here: https://bit.ly/abc123" in
  let haystack := normalize_for_matching text in
  let ctx := AnalysisContext.mk [lit "https://bit.ly/abc123"] [lit "bit.ly"] [] [] in
  let hits := [shortener_hit
                 [Evidence.mk PatternType.keyword (lit "context:url")
                              (lit "https://bit.ly/abc123") 20 41
                              (_snippet text 20 41) (Some (lit "url"))]] in
  length hits <= 4
  /\ NoDup (List.map RuleHit.rule_id hits)
  /\ forall h, In h hits -> context_hit_shape h.
Proof.
  apply (@X7_context_hits_shape (UrlReputationService.init None None) failing_world
           (lit "Please verify here: https://bit.ly/abc123")
           (normalize_for_matching (lit "Please verify here: https://bit.ly/abc123"))
           (AnalysisContext.mk [lit "https://bit.ly/abc123"] [lit "bit.ly"] [] [])).
  vm_compute. reflexivity.
Defined.

(** ** Locating the evidence of a context rule *)

(** X8: a context rule gets no evidence exactly when none of the URLs and
    none of the domains can be located in the haystack.  Otherwise a URL is
    preferred: if some URL can be located, the evidence is labelled [url]
    and spans the first occurrence of the first URL of the list that can be
    located; only if no URL can be located is it labelled [domain], and it
    spans the first occurrence of the first domain of the list that can be
    located.  The span has the length of the token, the match is the slice
    of the text and the snippet is taken around the span. *)
Theorem X8_evidence_prefers_url :
  forall (text haystack : pystr) (urls domains : list pystr) (kind : PatternType.t),
    (_evidence_for_any_token text haystack urls domains kind = None
     <-> none_located haystack urls /\ none_located haystack domains)
    /\ forall ev,
         _evidence_for_any_token text haystack urls domains kind = Some ev ->
         Evidence.kind ev = kind
         /\ Evidence.match_ ev = slice text (Evidence.start ev) (Evidence.end_ ev)
         /\ Evidence.snippet ev = _snippet text (Evidence.start ev) (Evidence.end_ ev)
         /\ ((exists u, first_locatable haystack urls u (Evidence.start ev)
                        /\ Evidence.end_ ev = Evidence.start ev + length u
                        /\ Evidence.label ev = Some (lit "url")
                        /\ Evidence.pattern ev = lit "context:url")
             \/ (none_located haystack urls
                 /\ exists d, first_locatable haystack domains d (Evidence.start ev)
                              /\ Evidence.end_ ev = Evidence.start ev + length d
                              /\ Evidence.label ev = Some (lit "domain")
                              /\ Evidence.pattern ev = lit "context:domain")).
Proof.
  intros text hay urls domains kind. split.
  - unfold _evidence_for_any_token.
    destruct (first_located hay urls) as [[idx u] |] eqn:Eu.
    + split; [discriminate |]. intros [H _].
      apply first_located_none in H. congruence.
    + apply first_located_none in Eu.
      destruct (first_located hay domains) as [[idx d] |] eqn:Ed.
      * split; [discriminate |]. intros [_ H].
        apply first_located_none in H. congruence.
      * apply first_located_none in Ed. split; [auto | reflexivity].
  - intros ev. apply evidence_for_any_token_located.
Qed.

(** ** Evidence of one pattern *)

Lemma find_keyword_loop_facts remaining text hay needle label pattern start :
  needle <> [] ->
  let evs := _find_keyword_loop remaining text hay needle label pattern start in
  length evs <= remaining
  /\ (forall ev, In ev evs ->
        start <= Evidence.start ev
        /\ occurs_at hay needle (Evidence.start ev)
        /\ Evidence.end_ ev = Evidence.start ev + length needle
        /\ Evidence.match_ ev = slice text (Evidence.start ev) (Evidence.end_ ev)
        /\ Evidence.kind ev = PatternType.keyword
        /\ Evidence.pattern ev = pattern /\ Evidence.label ev = label)
  /\ StronglySorted (fun a b => Evidence.end_ a <= Evidence.start b) evs.
Proof.
  intros Hne. revert start. induction remaining as [| n IH]; intros start; simpl.
  - split; [lia |]. split; [intros ev [] | constructor].
  - destruct (find hay needle start) as [idx |] eqn:E; simpl.
    + destruct (IH (idx + length needle)) as [H1 [H2 H3]]. cbv zeta in H1, H2, H3.
      apply find_sound in E. destruct E as [Hs [Hocc _]].
      split; [lia |]. split.
      * intros ev [<- | Hin]; simpl.
        -- split; [exact Hs |]. split; [exact Hocc |]. repeat split.
        -- destruct (H2 ev Hin) as [Hge Hrest]. split; [lia | exact Hrest].
      * constructor; [exact H3 |]. apply Forall_forall. intros ev Hin. simpl.
        destruct (H2 ev Hin) as [Hge _]. exact Hge.
    + split; [lia |]. split; [intros ev [] | constructor].
Qed.

(** X9: [_find_keyword] returns at most 8 evidence items, none for the
    empty needle.  Every item spans an occurrence of the needle in the
    haystack, records the slice of the text under that span, and carries the
    pattern and the label it was given; the items are in ascending order and
    do not overlap; and the first item, if any, is the first occurrence of
    the needle. *)
Theorem X9_find_keyword_evidence :
  forall (text haystack needle : pystr) (label : option pystr) (pattern : pystr),
    let evs := _find_keyword text haystack needle label pattern in
    length evs <= 8
    /\ (needle = [] -> evs = [])
    /\ (forall ev, In ev evs ->
          occurs_at haystack needle (Evidence.start ev)
          /\ Evidence.end_ ev = Evidence.start ev + length needle
          /\ Evidence.match_ ev = slice text (Evidence.start ev) (Evidence.end_ ev)
          /\ Evidence.kind ev = PatternType.keyword
          /\ Evidence.pattern ev = pattern /\ Evidence.label ev = label)
    /\ StronglySorted (fun a b => Evidence.end_ a <= Evidence.start b) evs
    /\ (forall ev rest, evs = ev :: rest ->
          forall k, k < Evidence.start ev -> ~ occurs_at haystack needle k).
Proof.
  intros text hay needle label pattern evs. subst evs. unfold _find_keyword.
  destruct needle as [| c needle].
  - split; [simpl; lia |]. split; [reflexivity |].
    split; [intros ev [] |]. split; [constructor | intros ev rest H; discriminate].
  - destruct (@find_keyword_loop_facts 8 text hay (c :: needle) label pattern 0
                ltac:(discriminate)) as [H1 [H2 H3]].
    cbv zeta in H1, H2, H3.
    split; [exact H1 |]. split; [discriminate |].
    split; [intros ev Hin; apply (H2 ev Hin) |]. split; [exact H3 |].
    intros ev rest Heq k Hk. simpl in Heq.
    destruct (find hay (c :: needle) 0) as [idx |] eqn:E; [| discriminate].
    injection Heq as <- _. simpl in Hk.
    apply find_sound in E. destruct E as [_ [_ Hfirst]]. apply Hfirst. lia.
Qed.

Lemma find_regex_loop_spec m text spans label pattern out :
  length out < m ->
  _find_regex_loop m text spans label pattern out
  = out ++ firstn (m - length out)
             (List.map (fun se => Evidence.mk PatternType.regex pattern
                                    (slice text (fst se) (snd se)) (fst se) (snd se)
                                    (_snippet text (fst se) (snd se)) label)
                       (filter (fun se => negb (fst se =? snd se)) spans)).
Proof.
  revert out. induction spans as [| [s e] spans IH]; intros out Hlt; simpl.
  - rewrite firstn_nil, app_nil_r. reflexivity.
  - destruct (s =? e); simpl; [apply IH; assumption |].
    destruct (Nat.leb_spec m (length (out ++ [Evidence.mk PatternType.regex pattern
                 (slice text s e) s e (_snippet text s e) label]))) as [Hc | Hc];
      rewrite length_app in Hc; simpl in Hc.
    + replace (m - length out) with 1 by lia. simpl. reflexivity.
    + rewrite IH by (rewrite length_app; simpl; lia).
      rewrite length_app. simpl. rewrite <- app_assoc. simpl.
      replace (m - length out) with (S (m - (length out + 1))) by lia. reflexivity.
Qed.

(** X10: [_find_regex] reports the matches of the pattern in order, skips
    those of length zero and keeps the first 10 of the others; each
    evidence item holds the span of its match and the slice of the text
    under it, with the pattern and the label it was given. *)
Theorem X10_find_regex_evidence :
  forall (text : pystr) (rx : Re.Pattern) (label : option pystr) (pattern : pystr),
    _find_regex text rx label pattern
    = List.map (fun se => Evidence.mk PatternType.regex pattern
                            (slice text (fst se) (snd se)) (fst se) (snd se)
                            (_snippet text (fst se) (snd se)) label)
               (firstn 10 (filter (fun se => negb (fst se =? snd se))
                                  (Re.finditer rx text)))
    /\ length (_find_regex text rx label pattern) <= 10
    /\ forall ev, In ev (_find_regex text rx label pattern) ->
                  In (Evidence.start ev, Evidence.end_ ev) (Re.finditer rx text)
                  /\ Evidence.start ev <> Evidence.end_ ev.
Proof.
  intros text rx label pattern.
  assert (E : _find_regex text rx label pattern
              = List.map (fun se => Evidence.mk PatternType.regex pattern
                            (slice text (fst se) (snd se)) (fst se) (snd se)
                            (_snippet text (fst se) (snd se)) label)
                   (firstn 10 (filter (fun se => negb (fst se =? snd se))
                                      (Re.finditer rx text)))).
  { unfold _find_regex. rewrite find_regex_loop_spec by (simpl; lia).
    cbn [length app]. rewrite Nat.sub_0_r. apply firstn_map. }
  split; [exact E |]. rewrite E. split.
  - rewrite length_map. apply firstn_le_length.
  - intros ev Hin. apply in_map_iff in Hin. destruct Hin as [[s e] [<- Hse]]. simpl.
    assert (Hf : In (s, e) (filter (fun se => negb (fst se =? snd se)) (Re.finditer rx text))).
    { clear E. revert Hse. generalize (filter (fun se => negb (fst se =? snd se))
                                              (Re.finditer rx text)).
      generalize 10. intros n. induction n as [| n IH]; intros [| x l]; simpl; try tauto.
      intros [H | H]; [left; exact H | right; apply IH; exact H]. }
    apply filter_In in Hf. destruct Hf as [H1 H2]. simpl in H2.
    split; [exact H1 |]. apply negb_true_iff, Nat.eqb_neq in H2. exact H2.
Qed.

(** ** The [any] mode *)

Lemma append_until_cap_firstn cap evs evidence :
  1 <= cap -> length evidence < cap ->
  append_until_cap cap evs evidence = evidence ++ firstn (cap - length evidence) evs.
Proof.
  intros Hcap. revert evidence.
  induction evs as [| e0 evs IH]; intros evidence Hlen; cbn [append_until_cap].
  - rewrite firstn_nil, app_nil_r. reflexivity.
  - assert (Hl : length (evidence ++ [e0]) = S (length evidence))
      by (rewrite length_app; cbn [length]; lia).
    destruct (Nat.leb_spec cap (length (evidence ++ [e0]))) as [Hc | Hc].
    + replace (cap - length evidence) with 1 by lia. reflexivity.
    + rewrite IH by exact Hc. rewrite Hl, <- app_assoc.
      replace (cap - length evidence) with (S (cap - S (length evidence))) by lia.
      reflexivity.
Qed.

Lemma match_any_loop_firstn cap cps text hay evidence :
  1 <= cap -> length evidence < cap ->
  match_any_loop cap cps text hay evidence
  = evidence ++ firstn (cap - length evidence)
                       (flat_map (fun cp => _match_one cp text hay) cps).
Proof.
  intros Hcap. revert evidence.
  induction cps as [| cp cps IH]; intros evidence Hlen;
    cbn [match_any_loop flat_map].
  - rewrite firstn_nil, app_nil_r. reflexivity.
  - rewrite append_until_cap_firstn by assumption.
    set (evs := _match_one cp text hay).
    set (k := cap - length evidence).
    assert (Hl : length (evidence ++ firstn k evs) = length evidence + Nat.min k (length evs))
      by (rewrite length_app, length_firstn; reflexivity).
    rewrite firstn_app.
    destruct (Nat.leb_spec cap (length (evidence ++ firstn k evs))) as [Hc | Hc].
    + replace (k - length evs) with 0 by (unfold k in *; lia).
      cbn [firstn]. rewrite app_nil_r. reflexivity.
    + rewrite IH by exact Hc.
      assert (Hk : length evs < k) by (unfold k in *; lia).
      rewrite Hl, Nat.min_r by lia.
      rewrite (firstn_all2 (n := k) evs) by lia.
      rewrite <- app_assoc. f_equal. f_equal. f_equal.
      unfold k. lia.
Qed.

(** X11: with a cap of at least one, a rule in [any] mode collects the
    evidence of its patterns in pattern order and keeps the first [cap]
    items: it does not fire when no pattern yields evidence, and otherwise
    its hit carries exactly the first [cap] items of the concatenation. *)
Theorem X11_any_mode_keeps_first_cap_items cap cr text hay :
  1 <= cap ->
  cr_match_mode cr = match_any ->
  let found := flat_map (fun cp => _match_one cp text hay) (cr_patterns cr) in
  (found = [] -> match_rule cap cr text hay = None)
  /\ (found <> [] ->
      match_rule cap cr text hay = Some (_to_hit (cr_rule cr) (firstn cap found))
      /\ 1 <= length (firstn cap found) <= cap).
Proof.
  intros Hcap Hmode found. unfold match_rule. rewrite Hmode.
  rewrite match_any_loop_firstn by (cbn [length]; lia).
  cbn [length app]. rewrite Nat.sub_0_r. fold found. split.
  - intros ->. rewrite firstn_nil. reflexivity.
  - intros Hne. destruct found as [| e0 rest] eqn:E; [congruence |].
    destruct cap as [| cap']; [lia |]. cbn [firstn]. split; [reflexivity |].
    cbn [length]. split; [lia |]. pose proof (firstn_le_length cap' rest).
    rewrite length_firstn. lia.
Qed.

Lemma X11_any_mode_keeps_first_cap_items_witness :
  let text := lit "Pay now or pay later" in
  let hay := normalize_for_matching text in
  let found := flat_map (fun cp => _match_one cp text hay) (cr_patterns pay_compiled) in
  (found = [] -> match_rule 1 pay_compiled text hay = None)
  /\ (found <> [] ->
      match_rule 1 pay_compiled text hay = Some (_to_hit (cr_rule pay_compiled) (firstn 1 found))
      /\ 1 <= length (firstn 1 found) <= 1).
Proof.
  apply (@X11_any_mode_keeps_first_cap_items 1 pay_compiled (lit "Pay now or pay later")
           (normalize_for_matching (lit "Pay now or pay later"))).
  - lia.
  - reflexivity.
Defined.

(** ** The hits of a match and the model validators *)

Lemma match_rule_has_evidence cap cr text hay h :
  match_rule cap cr text hay = Some h -> RuleHit.evidence h <> [].
Proof.
  unfold match_rule. destruct (cr_match_mode cr).
  - destruct (match_any_loop cap (cr_patterns cr) text hay []) as [| e0 evs];
      [discriminate |].
    intros H. injection H as <-. discriminate.
  - destruct (all_ok _); [| discriminate].
    destruct (all_evidence _) as [| e0 evs]; [discriminate |].
    intros H. injection H as <-. discriminate.
Qed.

Lemma match_hit_has_evidence engine env text ctx hits s' h :
  match_ engine env text ctx = (Ret hits, s') -> In h hits -> RuleHit.evidence h <> [].
Proof.
  unfold match_. destruct text as [| c text].
  - intros H. injection H as <- _. intros [].
  - set (t := c :: text).
    assert (Hyaml : In h (yaml_hits engine t (normalize_for_matching t)) ->
                    RuleHit.evidence h <> []).
    { intros Hin. unfold yaml_hits in Hin. apply in_flat_map in Hin.
      destruct Hin as [cr [_ Hh]].
      destruct (match_rule _ cr t _) as [h1 |] eqn:E; [| destruct Hh].
      destruct Hh as [<- | []]. eapply match_rule_has_evidence; exact E. }
    destruct ctx as [ctx |].
    + unfold _context_hits.
      destruct (reputation_hits _ _ _ _ _) as [[rep |] s1] eqn:Er; [| discriminate].
      intros H. injection H as <- _. rewrite !in_app_iff.
      intros [Hin | [Hin | Hin]]; [apply Hyaml; assumption | |].
      * unfold artifact_hits in Hin. rewrite !in_app_iff in Hin.
        destruct Hin as [Hin | [Hin | Hin]];
          match type of Hin with
          | In _ (artifact_hit ?t ?hy ?c ?test ?mk) =>
              destruct (artifact_hit_cases t hy c test mk) as [E | [ev E]];
              rewrite E in Hin; [destruct Hin | destruct Hin as [<- | []]; discriminate]
          end.
      * destruct (@reputation_hits_cases _ _ _ _ _ _ _ Er) as [-> | [w [ev [-> _]]]];
          [destruct Hin | destruct Hin as [<- | []]; discriminate].
    + intros H. injection H as <- _. exact Hyaml.
Qed.

(** X12: every hit that [match] returns passes the model validators of
    [RuleHit] and [Evidence]: it carries at least one evidence item, and
    the span of each item is ordered.  A regex is taken to report ordered
    spans within the text, as [finditer] does. *)
Theorem X12_match_hits_pass_validators engine env text ctx hits :
  regexes_sound engine ->
  fst (match_ engine env text ctx) = Ret hits ->
  forallb hit_valid hits = true.
Proof.
  intros Hrx Hm. destruct (match_ engine env text ctx) as [r s'] eqn:E.
  cbn [fst] in Hm. subst r. apply forallb_forall. intros h Hh.
  unfold hit_valid. apply andb_true_iff. split.
  - unfold RuleHit._ensure_evidence.
    pose proof (@match_hit_has_evidence engine env text ctx hits s' h E Hh) as Hne.
    destruct (RuleHit.evidence h); [congruence | reflexivity].
  - apply forallb_forall. intros ev Hev. unfold Evidence._validate_span.
    apply Nat.leb_le.
    destruct (@match_evidence_in_haystack engine env text ctx hits s' h ev Hrx E Hh Hev)
      as [Hle _]. exact Hle.
Qed.

Lemma X12_match_hits_pass_validators_witness :
  forallb hit_valid
    [_to_hit pay_rule
       [Evidence.mk PatternType.keyword (lit "pay") (lit "pay") 7 10
                    (_snippet (lit "Please pay now") 7 10) (Some (lit "keyword"))]] = true.
Proof.
  apply (@X12_match_hits_pass_validators pay_engine failing_world (lit "Please pay now") None).
  - intros cr cp rx [<- | []] [<- | []] H. discriminate H.
  - vm_compute. reflexivity.
Defined.

(** ** Severity, action and recommendations of a result *)

(** X13: the severity of a result is never below the severity of a hit it
    reports nor below the severity of its score, and it is one of these; a
    result of high severity blocks and recommends [block, report], a result
    of medium severity asks at least for verification out of band, and a
    result allows only when its severity is low and every reported hit
    allows. *)
Theorem X13_severity_escalation :
  forall hits : list RuleHit.t,
    let r := score_to_result hits in
    (forall h, In h (AnalysisResult.hits r) ->
       (_SEVERITY_ORDER (RuleHit.severity h) <= _SEVERITY_ORDER (AnalysisResult.severity r))%Z)
    /\ (_SEVERITY_ORDER (severity_from_score (AnalysisResult.score r))
        <= _SEVERITY_ORDER (AnalysisResult.severity r))%Z
    /\ (AnalysisResult.severity r = severity_from_score (AnalysisResult.score r)
        \/ exists h, In h (AnalysisResult.hits r)
                     /\ AnalysisResult.severity r = RuleHit.severity h)
    /\ (AnalysisResult.severity r = high ->
        AnalysisResult.action r = block
        /\ AnalysisResult.recommendations r = [lit "block"; lit "report"])
    /\ (AnalysisResult.severity r = medium ->
        AnalysisResult.action r = verify_out_of_band \/ AnalysisResult.action r = block)
    /\ (AnalysisResult.action r = allow ->
        AnalysisResult.severity r = low
        /\ forall h, In h (AnalysisResult.hits r) -> RuleHit.action h = allow).
Proof.
  intros hits r. unfold r, score_to_result.
  cbn [AnalysisResult.hits AnalysisResult.severity AnalysisResult.score
       AnalysisResult.action AnalysisResult.recommendations].
  set (u := unique_hits hits). set (sc := normalize_score (raw_points hits)).
  pose proof (final_severity_order sc u) as Hord.
  destruct (choose_action_spec (final_severity sc u) u) as [Hbase [Hhit _]].
  split; [| split; [| split; [| split; [| split]]]].
  - intros h Hh. pose proof (max_severity_ge u h Hh). lia.
  - lia.
  - unfold final_severity.
    destruct (_SEVERITY_ORDER (_max_severity u) >? _SEVERITY_ORDER (severity_from_score sc))%Z
      eqn:E; [| left; reflexivity].
    right. destruct (max_severity_fold u low) as [_ [_ [Hlow | [h [Hin Hsev]]]]].
    + fold (_max_severity u) in Hlow. rewrite Hlow in E.
      destruct (severity_from_score sc); discriminate E.
    + exists h. split; [exact Hin | exact Hsev].
  - intros Hsev. rewrite Hsev in Hbase |- *.
    assert (Ha : choose_action high u = block)
      by (destruct (choose_action high u); cbn in Hbase; solve [reflexivity | lia]).
    rewrite Ha. split; reflexivity.
  - intros Hsev. rewrite Hsev in Hbase |- *.
    destruct (choose_action medium u); cbn in Hbase; solve [auto | lia].
  - intros Hact. rewrite Hact in Hbase, Hhit. split.
    + destruct (final_severity sc u); cbn in Hbase; solve [reflexivity | lia].
    + intros h Hh. specialize (Hhit h Hh).
      destruct (RuleHit.action h); cbn in Hhit; solve [reflexivity | lia].
Qed.

(** ** Scoring again *)

Lemma dict_set_fresh (V : Type) (d : Dict.t V) key (v : V) :
  ~ In key (Dict.keys d) -> Dict.set d key v = d ++ [(key, v)].
Proof.
  induction d as [| [k v'] d IH]; intros Hnin; cbn [Dict.set app]; [reflexivity |].
  destruct (str_eqb k key) eqn:E.
  - apply str_eqb_eq in E. subst k. exfalso. apply Hnin. left. reflexivity.
  - rewrite IH; [reflexivity |]. intros Hin. apply Hnin. right. exact Hin.
Qed.

Lemma unique_dict_fresh hits d0 :
  NoDup (List.map RuleHit.rule_id hits) ->
  (forall h, In h hits -> ~ In (RuleHit.rule_id h) (Dict.keys d0)) ->
  unique_dict hits d0 = d0 ++ List.map (fun h => (RuleHit.rule_id h, h)) hits.
Proof.
  revert d0. induction hits as [| h hits IH]; intros d0 Hnd Hfresh; cbn [unique_dict fold_left map].
  - rewrite app_nil_r. reflexivity.
  - inversion Hnd as [| x l Hx Hnd' Heq]; subst.
    fold (unique_dict hits (Dict.set d0 (RuleHit.rule_id h) h)).
    rewrite dict_set_fresh by (apply Hfresh; left; reflexivity).
    rewrite IH; [rewrite <- app_assoc; reflexivity | exact Hnd' |].
    intros h' Hh'. unfold Dict.keys. rewrite map_app, in_app_iff. cbn [map fst In].
    intros [Hin | [Heq' | []]].
    + apply (Hfresh h'); [right; exact Hh' | exact Hin].
    + apply Hx. rewrite Heq'. apply in_map. exact Hh'.
Qed.

Lemma unique_hits_of_distinct hits :
  NoDup (List.map RuleHit.rule_id hits) -> unique_hits hits = hits.
Proof.
  intros Hnd. unfold unique_hits. fold (unique_dict hits []).
  rewrite unique_dict_fresh; [| exact Hnd | intros h _ []].
  cbn [app]. unfold Dict.values. rewrite map_map. cbn [snd]. apply map_id.
Qed.

(** X14: scoring the hits that a result reports gives the same result
    again: the reported hits are already unique per rule id, so nothing is
    dropped, reordered or weighed differently the second time. *)
Theorem X14_scoring_is_idempotent :
  forall hits : list RuleHit.t,
    score_to_result (AnalysisResult.hits (score_to_result hits)) = score_to_result hits.
Proof.
  intros hits.
  assert (Hu : unique_hits (unique_hits hits) = unique_hits hits)
    by (apply unique_hits_of_distinct, unique_hits_NoDup).
  unfold score_to_result at 2. cbn [AnalysisResult.hits].
  unfold score_to_result, raw_points. rewrite Hu. reflexivity.
Qed.

(** X15: when the hits carry pairwise distinct rule ids, the result reports
    exactly these hits, in the same order, and scores the sum of their
    weights. *)
Theorem X15_distinct_hits_are_all_reported :
  forall hits : list RuleHit.t,
    NoDup (List.map RuleHit.rule_id hits) ->
    AnalysisResult.hits (score_to_result hits) = hits
    /\ AnalysisResult.score (score_to_result hits) = normalize_score (total_weight hits).
Proof.
  intros hits Hnd. unfold score_to_result, raw_points, total_weight.
  cbn [AnalysisResult.hits AnalysisResult.score].
  rewrite unique_hits_of_distinct by exact Hnd. split; reflexivity.
Qed.

Lemma X15_distinct_hits_are_all_reported_witness :
  let ev := Evidence.mk PatternType.keyword (lit "context:domain") (lit "bit.ly") 4 10
                        (lit "see bit.ly") (Some (lit "domain")) in
  let hits := [shortener_hit [ev]; subdomains_hit [ev]] in
  AnalysisResult.hits (score_to_result hits) = hits
  /\ AnalysisResult.score (score_to_result hits) = normalize_score (total_weight hits).
Proof.
  apply (@X15_distinct_hits_are_all_reported
           [shortener_hit [Evidence.mk PatternType.keyword (lit "context:domain") (lit "bit.ly")
                                       4 10 (lit "see bit.ly") (Some (lit "domain"))];
            subdomains_hit [Evidence.mk PatternType.keyword (lit "context:domain") (lit "bit.ly")
                                        4 10 (lit "see bit.ly") (Some (lit "domain"))]]).
  repeat constructor; cbn; intuition discriminate.
Defined.

(** ** The highlights of a result *)

Lemma highlight_seen_iff s e id out :
  highlight_seen s e id out = true <-> In (s, e, id) (List.map highlight_key out).
Proof.
  unfold highlight_seen. rewrite existsb_exists, in_map_iff. split.
  - intros [x [Hin H]]. apply andb_true_iff in H. destruct H as [H Hid].
    apply andb_true_iff in H. destruct H as [Hs He].
    apply Nat.eqb_eq in Hs, He. apply str_eqb_eq in Hid.
    exists x. split; [| exact Hin]. unfold highlight_key. congruence.
  - intros [x [Hk Hin]]. exists x. split; [exact Hin |].
    unfold highlight_key in Hk. injection Hk as -> -> ->.
    rewrite !Nat.eqb_refl, str_eqb_refl. reflexivity.
Qed.

Lemma highlights_of_hit h evs out :
  let step := fun out ev =>
    if highlight_seen (Evidence.start ev) (Evidence.end_ ev) (RuleHit.rule_id h) out
    then out
    else out ++ [TextHighlight.mk (Evidence.start ev) (Evidence.end_ ev)
                                  (RuleHit.rule_id h) (RuleHit.title h)] in
  NoDup (List.map highlight_key out) ->
  NoDup (List.map highlight_key (fold_left step evs out))
  /\ (forall k, In k (List.map highlight_key out) ->
                In k (List.map highlight_key (fold_left step evs out)))
  /\ (forall ev, In ev evs ->
        In (Evidence.start ev, Evidence.end_ ev, RuleHit.rule_id h)
           (List.map highlight_key (fold_left step evs out))).
Proof.
  intros step. revert out. induction evs as [| ev evs IH]; intros out Hnd; cbn [fold_left].
  - split; [exact Hnd |]. split; [auto | intros ev []].
  - assert (Hstep : NoDup (List.map highlight_key (step out ev))
                    /\ (forall k, In k (List.map highlight_key out) ->
                                  In k (List.map highlight_key (step out ev)))
                    /\ In (Evidence.start ev, Evidence.end_ ev, RuleHit.rule_id h)
                          (List.map highlight_key (step out ev))).
    { unfold step.
      destruct (highlight_seen (Evidence.start ev) (Evidence.end_ ev) (RuleHit.rule_id h) out)
        eqn:E.
      - apply highlight_seen_iff in E. auto.
      - assert (Hnin : ~ In (Evidence.start ev, Evidence.end_ ev, RuleHit.rule_id h)
                            (List.map highlight_key out)).
        { intros Hin. apply highlight_seen_iff in Hin. congruence. }
        rewrite map_app. cbn [map highlight_key TextHighlight.start TextHighlight.end_
                                  TextHighlight.rule_id].
        split; [| split].
        + apply NoDup_app; [exact Hnd | repeat constructor; intros [] |].
          intros k Hk [<- | []]. exact (Hnin Hk).
        + intros k Hk. apply in_or_app. left. exact Hk.
        + apply in_or_app. right. left. reflexivity. }
    destruct Hstep as [Hnd1 [Hkeep1 Hin1]].
    destruct (IH (step out ev) Hnd1) as [Hnd2 [Hkeep2 Hin2]].
    split; [exact Hnd2 |]. split.
    + intros k Hk. apply Hkeep2, Hkeep1, Hk.
    + intros ev' [<- | Hin]; [apply Hkeep2, Hin1 | apply Hin2, Hin].
Qed.

Lemma highlights_of_hits hits out :
  let step := fun out h =>
    fold_left (fun out ev =>
      if highlight_seen (Evidence.start ev) (Evidence.end_ ev) (RuleHit.rule_id h) out
      then out
      else out ++ [TextHighlight.mk (Evidence.start ev) (Evidence.end_ ev)
                                    (RuleHit.rule_id h) (RuleHit.title h)])
      (RuleHit.evidence h) out in
  NoDup (List.map highlight_key out) ->
  NoDup (List.map highlight_key (fold_left step hits out))
  /\ (forall k, In k (List.map highlight_key out) ->
                In k (List.map highlight_key (fold_left step hits out)))
  /\ (forall h ev, In h hits -> In ev (RuleHit.evidence h) ->
        In (Evidence.start ev, Evidence.end_ ev, RuleHit.rule_id h)
           (List.map highlight_key (fold_left step hits out))).
Proof.
  intros step. revert out. induction hits as [| h hits IH]; intros out Hnd; cbn [fold_left].
  - split; [exact Hnd |]. split; [auto | intros h ev []].
  - destruct (@highlights_of_hit h (RuleHit.evidence h) out Hnd) as [Hnd1 [Hkeep1 Hin1]].
    cbv zeta in Hnd1, Hkeep1, Hin1. fold (step out h) in Hnd1, Hkeep1, Hin1.
    destruct (IH (step out h) Hnd1) as [Hnd2 [Hkeep2 Hin2]].
    split; [exact Hnd2 |]. split.
    + intros k Hk. apply Hkeep2, Hkeep1, Hk.
    + intros h' ev [<- | Hh] Hev; [apply Hkeep2, Hin1, Hev | apply (Hin2 h' ev Hh Hev)].
Qed.

Lemma highlight_key_le_total a b :
  highlight_key_le a b = false -> highlight_key_le b a = true.
Proof.
  unfold highlight_key_le. intros H. apply orb_false_iff in H. destruct H as [H1 H2].
  apply Nat.ltb_ge in H1. apply orb_true_iff.
  destruct (Nat.eq_dec (TextHighlight.start a) (TextHighlight.start b)) as [E | E].
  - right. rewrite E in H2 |- *. rewrite Nat.eqb_refl in H2 |- *. cbn [andb] in H2 |- *.
    apply Nat.leb_gt in H2. apply Nat.leb_le. lia.
  - left. apply Nat.ltb_lt. lia.
Qed.

Lemma highlight_key_le_trans a b c :
  highlight_key_le a b = true -> highlight_key_le b c = true -> highlight_key_le a c = true.
Proof.
  unfold highlight_key_le. rewrite !orb_true_iff, !andb_true_iff, !Nat.ltb_lt, !Nat.eqb_eq,
    !Nat.leb_le. lia.
Qed.

Lemma insert_highlight_sorted x l :
  StronglySorted (fun a b => highlight_key_le a b = true) l ->
  StronglySorted (fun a b => highlight_key_le a b = true) (insert_highlight x l).
Proof.
  induction l as [| y l IH]; intros Hs; cbn [insert_highlight].
  - repeat constructor.
  - inversion Hs as [| y' l' Hs' Hall]; subst.
    destruct (highlight_key_le y x) eqn:E.
    + constructor; [apply IH, Hs' |]. apply Forall_forall. intros z Hz.
      apply insert_highlight_In in Hz. destruct Hz as [-> | Hz]; [exact E |].
      rewrite Forall_forall in Hall. apply Hall, Hz.
    + apply highlight_key_le_total in E. constructor; [exact Hs |].
      constructor; [exact E |]. rewrite Forall_forall in Hall |- *. intros z Hz.
      apply (@highlight_key_le_trans x y z E). apply Hall, Hz.
Qed.

Lemma insert_highlight_perm x l : Permutation (insert_highlight x l) (x :: l).
Proof.
  induction l as [| y l IH]; cbn [insert_highlight]; [reflexivity |].
  destruct (highlight_key_le y x); [| reflexivity].
  rewrite IH. apply perm_swap.
Qed.

Lemma sort_highlights_facts l acc :
  StronglySorted (fun a b => highlight_key_le a b = true) acc ->
  StronglySorted (fun a b => highlight_key_le a b = true)
                 (fold_left (fun sorted x => insert_highlight x sorted) l acc)
  /\ Permutation (fold_left (fun sorted x => insert_highlight x sorted) l acc) (acc ++ l).
Proof.
  revert acc. induction l as [| x l IH]; intros acc Hs; cbn [fold_left].
  - split; [exact Hs | rewrite app_nil_r; reflexivity].
  - destruct (IH (insert_highlight x acc) (@insert_highlight_sorted x acc Hs)) as [H1 H2].
    split; [exact H1 |]. rewrite H2, insert_highlight_perm.
    apply Permutation_middle.
Qed.

(** X16: the highlights of a result are sorted by start and then by end,
    no two of them share start, end and rule id, every evidence item of
    every hit is shown by a highlight with its span and rule id, and every
    highlight shows such an item. *)
Theorem X16_highlights_sorted_unique_complete :
  forall hits : list RuleHit.t,
    let hl := build_highlights hits in
    StronglySorted (fun a b => highlight_key_le a b = true) hl
    /\ NoDup (List.map highlight_key hl)
    /\ (forall h ev, In h hits -> In ev (RuleHit.evidence h) ->
          In (Evidence.start ev, Evidence.end_ ev, RuleHit.rule_id h)
             (List.map highlight_key hl))
    /\ (forall x, In x hl ->
          exists h ev, In h hits /\ In ev (RuleHit.evidence h)
                       /\ highlight_key x
                          = (Evidence.start ev, Evidence.end_ ev, RuleHit.rule_id h)).
Proof.
  intros hits hl. unfold hl, build_highlights.
  destruct (@highlights_of_hits hits [] (NoDup_nil _)) as [Hnd [_ Hall]].
  cbv zeta in Hnd, Hall.
  set (out := fold_left _ hits []) in *.
  destruct (@sort_highlights_facts out [] (SSorted_nil _)) as [Hsorted Hperm].
  cbn [app] in Hperm. fold (sort_highlights out) in Hsorted, Hperm.
  split; [exact Hsorted |]. split; [| split].
  - apply (Permutation_NoDup (l := List.map highlight_key out)); [| exact Hnd].
    apply Permutation_map. symmetry. exact Hperm.
  - intros h ev Hh Hev.
    apply (Permutation_in (l := List.map highlight_key out)); [| apply Hall; assumption].
    apply Permutation_map. symmetry. exact Hperm.
  - intros x Hx.
    destruct (@build_highlights_from_evidence hits x Hx) as [h [ev [Hh [Hev [Hs [He Hid]]]]]].
    exists h, ev. split; [exact Hh |]. split; [exact Hev |].
    unfold highlight_key. congruence.
Qed.

(** ** The analysed text *)

Lemma lstrip_by_nil p s : lstrip_by p s = [] <-> forallb p s = true.
Proof.
  induction s as [| c s IH]; cbn [lstrip_by forallb]; [tauto |].
  destruct (p c); cbn [andb]; [exact IH |]. split; discriminate.
Qed.

Lemma strip_by_nil p s : strip_by p s = [] <-> forallb p s = true.
Proof.
  unfold strip_by, rstrip_by. split.
  - intros H. apply (f_equal (@rev char)) in H. rewrite rev_involutive in H. cbn [rev] in H.
    apply lstrip_by_nil in H. rewrite forallb_forall in H |- *.
    intros c Hc. destruct (p c) eqn:E; [reflexivity |]. exfalso.
    assert (Hin : In c (lstrip_by p s)).
    { clear H. induction s as [| d s IH]; [destruct Hc |]. cbn [lstrip_by].
      destruct Hc as [-> | Hc]; [rewrite E; left; reflexivity |].
      destruct (p d); [apply IH, Hc | right; exact Hc]. }
    apply in_rev in Hin. apply H in Hin. congruence.
  - intros H. apply lstrip_by_nil in H. rewrite H. reflexivity.
Qed.

Lemma strip_nil s : strip s = [] <-> forallb is_space s = true.
Proof. apply strip_by_nil. Qed.

Lemma join_head sep c s rest : exists tail, join sep ((c :: s) :: rest) = c :: tail.
Proof.
  destruct rest as [| p rest]; cbn [join]; [exists s; reflexivity |].
  eexists. cbn [app]. reflexivity.
Qed.

Lemma strip_join_headed sep c s rest :
  is_space c = false -> strip (join sep ((c :: s) :: rest)) <> [].
Proof.
  intros Hc H. destruct (join_head sep c s rest) as [tail E]. rewrite E in H.
  apply strip_nil in H. cbn [forallb] in H. rewrite Hc in H. discriminate H.
Qed.

Lemma strip_join_nonempty sep parts p rest :
  parts = p :: rest -> (exists c s, p = c :: s /\ is_space c = false) ->
  strip (join sep parts) <> [].
Proof.
  intros -> [c [s [-> Hc]]]. apply strip_join_headed. exact Hc.
Qed.

Lemma truthy_cases f :
  (truthy f = None /\ empty_field f) \/ exists c s, f = Some (c :: s).
Proof.
  destruct f as [[| c s] |]; unfold empty_field; cbn [truthy]; eauto.
Qed.

Ltac headed_text H :=
  exfalso; revert H; cbn [truthy app];
  eapply strip_join_nonempty;
  [ reflexivity | eexists; eexists; split; [reflexivity | reflexivity] ].

Lemma join_message_parts_nonempty subject body from_email reply_to headers_raw attachments :
  _join_message_parts subject body from_email reply_to headers_raw attachments = [] ->
  empty_field subject /\ empty_field body /\ empty_field from_email
  /\ empty_field reply_to /\ empty_field headers_raw /\ no_attachments attachments.
Proof.
  intros H. unfold _join_message_parts in H. cbv beta zeta in H.
  destruct (truthy_cases subject) as [[Es Hs] | [c [s ->]]]; [| headed_text H].
  rewrite Es in H. cbn [app] in H.
  destruct (truthy_cases from_email) as [[Ef Hf] | [c [s ->]]]; [| headed_text H].
  rewrite Ef in H. cbn [app] in H.
  destruct (truthy_cases reply_to) as [[Er Hr] | [c [s ->]]]; [| headed_text H].
  rewrite Er in H. cbn [app] in H.
  destruct (truthy_cases headers_raw) as [[Eh Hh] | [c [s ->]]]; [| headed_text H].
  rewrite Eh in H. cbn [app] in H.
  destruct (truthy_cases body) as [[Eb Hb] | [c [s ->]]]; [| headed_text H].
  rewrite Eb in H. cbn [app] in H.
  assert (Ha : no_attachments attachments).
  { unfold no_attachments. destruct attachments as [[| fn fns] |]; auto. headed_text H. }
  auto 10.
Qed.

(** X17: the text composed from a message is empty exactly when every
    field is [None] or the empty string and there is no attachment; a
    single field with content, even blank content, or a single attachment
    gives a text that is not empty. *)
Theorem X17_text_empty_iff_message_empty :
  forall (subject body from_email reply_to headers_raw : option pystr)
         (attachments : option (list pystr)),
    _join_message_parts subject body from_email reply_to headers_raw attachments = []
    <-> (empty_field subject /\ empty_field body /\ empty_field from_email
         /\ empty_field reply_to /\ empty_field headers_raw /\ no_attachments attachments).
Proof.
  intros. split.
  - apply join_message_parts_nonempty.
  - intros [Hs [Hb [Hf [Hr [Hh Ha]]]]]. apply join_message_parts_empty; assumption.
Qed.

(** X18: a request that the model validator [_require_some_content]
    accepts is analysed on a text that is not empty: the route hands the
    rule engine this text and the artifacts extracted from it, and scores
    the hits. *)
Theorem X18_accepted_request_has_text :
  forall (emails phones : pystr -> list pystr) (a : Analyzer.t) (env : nat -> Exchange)
         (payload : AnalyzeRequest.t),
    AnalyzeRequest._require_some_content payload = true ->
    exists text,
      text <> []
      /\ analyze_route emails phones a env payload
         = match match_ (Analyzer.engine a) env text (Some (extract_all emails phones text)) with
           | (Exc, s') => (Exc, s')
           | (Ret hits, s') => (Ret (score_to_result hits), s')
           end.
Proof.
  intros emails phones a env payload Hok. unfold analyze_route, Analyzer.analyze.
  eexists. split; [| reflexivity].
  intros Htext. apply join_message_parts_nonempty in Htext.
  destruct Htext as [Hs [Hb [_ [_ [Hh Ha]]]]].
  unfold AnalyzeRequest._require_some_content in Hok.
  assert (Es : AnalyzeRequest.subject payload = [])
    by (destruct Hs as [Hs | Hs]; [discriminate Hs | injection Hs as ->; reflexivity]).
  assert (Eb : AnalyzeRequest.body payload = [])
    by (destruct Hb as [Hb | Hb]; [discriminate Hb | injection Hb as ->; reflexivity]).
  assert (Ea : AnalyzeRequest.attachments payload = []).
  { destruct Ha as [Ha | Ha]; [discriminate Ha |]. injection Ha as Ha.
    destruct (AnalyzeRequest.attachments payload); [reflexivity | discriminate Ha]. }
  rewrite Es, Eb, Ea in Hok.
  destruct Hh as [Hh | Hh]; rewrite Hh in Hok; discriminate Hok.
Qed.

Lemma X18_accepted_request_has_text_witness :
  exists text,
    text <> []
    /\ analyze_route (fun _ => []) (fun _ => []) (Analyzer.mk bare_engine) failing_world
         (AnalyzeRequest.mk (lit "Invoice") [] None None None [])
       = match match_ bare_engine failing_world text
                      (Some (extract_all (fun _ => []) (fun _ => []) text)) with
         | (Exc, s') => (Exc, s')
         | (Ret hits, s') => (Ret (score_to_result hits), s')
         end.
Proof.
  apply (@X18_accepted_request_has_text (fun _ => []) (fun _ => []) (Analyzer.mk bare_engine)
           failing_world (AnalyzeRequest.mk (lit "Invoice") [] None None None [])).
  reflexivity.
Defined.

(** ** The extractors *)

Lemma unique_nonempty_spec (cands out : list pystr) :
  NoDup out -> ~ In [] out ->
  NoDup (unique_nonempty cands out)
  /\ (forall x, In x (unique_nonempty cands out) <-> In x out \/ (In x cands /\ x <> []))
  /\ length (unique_nonempty cands out) <= length out + length cands.
Proof.
  revert out. induction cands as [| c cands IH]; intros out Hnd Hne; cbn [unique_nonempty].
  - split; [exact Hnd |]. split; [| cbn [length]; lia].
    intros x. split; [auto | intros [H | [[] _]]; exact H].
  - destruct c as [| c0 c].
    + destruct (IH out Hnd Hne) as [H1 [H2 H3]]. split; [exact H1 |]. split.
      * intros x. rewrite H2. split.
        -- intros [H | [H Hx]]; [left | right; split; [right |]]; assumption.
        -- intros [H | [[<- | H] Hx]]; [left; exact H | congruence | right; split; assumption].
      * cbn [length]. unfold pystr in *. lia.
    + destruct (str_in (c0 :: c) out) eqn:E.
      * apply existsb_str_eqb_In in E.
        destruct (IH out Hnd Hne) as [H1 [H2 H3]]. split; [exact H1 |]. split.
        -- intros x. rewrite H2. split.
           ++ intros [H | [H Hx]]; [left | right; split; [right |]]; assumption.
           ++ intros [H | [[<- | H] Hx]];
                [left; exact H | left; exact E | right; split; assumption].
        -- cbn [length]. unfold pystr in *. lia.
      * assert (Hnin : ~ In (c0 :: c) out).
        { intros Hin. apply existsb_str_eqb_In in Hin. unfold str_in in E. congruence. }
        destruct (IH (out ++ [c0 :: c])) as [H1 [H2 H3]].
        -- apply NoDup_app; [exact Hnd | repeat constructor; intros [] |].
           intros k Hk [<- | []]. exact (Hnin Hk).
        -- rewrite in_app_iff. intros [H | [H | []]]; [exact (Hne H) | discriminate H].
        -- split; [exact H1 |]. split.
           ++ intros x. rewrite H2, in_app_iff. cbn [In]. split.
              ** intros [[H | [<- | []]] | [H Hx]].
                 --- left; exact H.
                 --- right. split; [left; reflexivity | discriminate].
                 --- right. split; [right; exact H | exact Hx].
              ** intros [H | [[<- | H] Hx]]; [left; left; exact H | left; right; left; reflexivity
                                               | right; split; assumption].
           ++ rewrite length_app in H3. cbn [length] in H3 |- *. unfold pystr in *. lia.
Qed.

Lemma substring_of_refl s : substring_of s s.
Proof. exists [], []. rewrite app_nil_r. reflexivity. Qed.

Lemma substring_of_trans a b c : substring_of a b -> substring_of b c -> substring_of a c.
Proof.
  intros [x [y ->]] [u [v ->]]. exists (u ++ x), (y ++ v).
  rewrite <- !app_assoc. reflexivity.
Qed.

Lemma slice_substring text i j : substring_of (slice text i j) text.
Proof.
  unfold slice. exists (firstn i text), (skipn (j - i) (skipn i text)).
  rewrite firstn_skipn, firstn_skipn. reflexivity.
Qed.

Lemma lstrip_by_suffix p s : exists a, s = a ++ lstrip_by p s.
Proof.
  induction s as [| c s [a IH]]; cbn [lstrip_by]; [exists []; reflexivity |].
  destruct (p c); [exists (c :: a); cbn [app]; f_equal; exact IH | exists []; reflexivity].
Qed.

Lemma lstrip_by_substring p s : substring_of (lstrip_by p s) s.
Proof.
  destruct (lstrip_by_suffix p s) as [a E]. exists a, []. rewrite app_nil_r. exact E.
Qed.

Lemma rstrip_by_prefix p s : exists b, s = rstrip_by p s ++ b.
Proof.
  unfold rstrip_by. destruct (lstrip_by_suffix p (rev s)) as [a E].
  exists (rev a). rewrite <- rev_app_distr, <- E, rev_involutive. reflexivity.
Qed.

Lemma rstrip_by_substring p s : substring_of (rstrip_by p s) s.
Proof. destruct (rstrip_by_prefix p s) as [b E]. exists [], b. exact E. Qed.

Lemma strip_by_substring p s : substring_of (strip_by p s) s.
Proof.
  unfold strip_by.
  eapply substring_of_trans; [apply rstrip_by_substring | apply lstrip_by_substring].
Qed.

Lemma strip_balanced_wrappers_substring s : substring_of (_strip_balanced_wrappers s) s.
Proof.
  unfold _strip_balanced_wrappers. destruct (length s <? 2); [apply substring_of_refl |].
  destruct (List.find _ _); [| apply substring_of_refl].
  eapply substring_of_trans; [apply strip_by_substring | apply slice_substring].
Qed.

Lemma clean_url_cases url :
  _clean_url url = []
  \/ (substring_of (_clean_url url) url /\ looks_like_url (_clean_url url)).
Proof.
  unfold _clean_url. destruct url as [| c0 url0]; [left; reflexivity |].
  set (url := c0 :: url0).
  set (s := _strip_balanced_wrappers _).
  assert (Hsub : substring_of s url).
  { unfold s.
    eapply substring_of_trans; [apply strip_balanced_wrappers_substring |].
    eapply substring_of_trans; [apply rstrip_by_substring |].
    eapply substring_of_trans; [apply rstrip_by_substring |].
    eapply substring_of_trans; [apply strip_by_substring |].
    apply strip_by_substring. }
  destruct (startswith (lower s) (lit "http://") || startswith (lower s) (lit "https://")) eqn:E;
    cbn [negb]; [| left; reflexivity].
  destruct (Lib.urlsplit s) as [parts |] eqn:Eu; [| left; reflexivity].
  destruct (Lib.netloc parts) as [| n0 nl] eqn:En; [left; reflexivity |].
  right. split; [exact Hsub |]. split; [exact E |].
  exists parts. split; [exact Eu |]. rewrite En. discriminate.
Qed.

(** X19: the URLs extracted from a text are pairwise distinct and not
    empty; each one is a contiguous part of the text, starts with the scheme
    [http://] or [https://] in any case, and has a network location for
    [urlsplit]. *)
Theorem X19_extracted_urls_are_clean :
  forall text : pystr,
    NoDup (extract_urls text)
    /\ Forall (fun u => u <> [] /\ substring_of u text /\ looks_like_url u)
              (extract_urls text).
Proof.
  intros text. unfold extract_urls. destruct text as [| c0 text0].
  - split; constructor.
  - set (text := c0 :: text0).
    destruct (@unique_nonempty_spec
                (List.map (fun se => _clean_url (slice text (fst se) (snd se)))
                          (_URL_RE_finditer text)) [] (NoDup_nil _) (fun H => H))
      as [Hnd [Hin _]].
    split; [exact Hnd |]. apply Forall_forall. intros u Hu.
    apply Hin in Hu. destruct Hu as [[] | [Hu Hne]].
    apply in_map_iff in Hu. destruct Hu as [[s e] [Hclean _]]. cbn [fst snd] in Hclean.
    destruct (clean_url_cases (slice text s e)) as [Hnil | [Hsub Hlooks]];
      [congruence |].
    rewrite Hclean in Hsub, Hlooks. split; [exact Hne |]. split; [| exact Hlooks].
    eapply substring_of_trans; [exact Hsub | apply slice_substring].
Qed.

Lemma lstrip_by_head p s :
  lstrip_by p s = [] \/ exists c rest, lstrip_by p s = c :: rest /\ p c = false.
Proof.
  induction s as [| c s IH]; cbn [lstrip_by]; [left; reflexivity |].
  destruct (p c) eqn:E; [exact IH |]. right. exists c, s. split; [reflexivity | exact E].
Qed.

Lemma rstrip_by_last p s :
  rstrip_by p s = [] \/ exists c rest, rev (rstrip_by p s) = c :: rest /\ p c = false.
Proof.
  unfold rstrip_by. destruct (lstrip_by_head p (rev s)) as [-> | [c [rest [E Hc]]]].
  - left. reflexivity.
  - right. exists c, rest. rewrite rev_involutive. split; assumption.
Qed.

Lemma domain_from_url_no_trailing_dot url :
  domain_from_url url <> [] -> endswith (domain_from_url url) [46%N] = false.
Proof.
  unfold domain_from_url. destruct url as [| c0 url0]; [congruence |].
  destruct (Lib.urlsplit _) as [parts |]; [| congruence].
  destruct (lower (strip _)) as [| h0 host0]; [congruence |].
  set (host := if startswith (h0 :: host0) (lit "www.") then _ else _).
  intros Hne. destruct (rstrip_by_last (N.eqb 46) host) as [E | [c [rest [E Hc]]]];
    [congruence |].
  unfold endswith. rewrite E. cbn [rev app startswith]. rewrite Hc. reflexivity.
Qed.

(** X20: the domains extracted from a list of URLs are pairwise distinct,
    not empty, and no more than the URLs; each is the normalized host of one
    of the URLs and does not end with a dot; and the host of every URL that
    has one is among them. *)
Theorem X20_extracted_domains :
  forall urls : list pystr,
    NoDup (extract_domains urls)
    /\ length (extract_domains urls) <= length urls
    /\ Forall (fun d => d <> [] /\ endswith d [46%N] = false
                        /\ exists u, In u urls /\ domain_from_url u = d)
              (extract_domains urls)
    /\ (forall u, In u urls -> domain_from_url u <> [] ->
                  In (domain_from_url u) (extract_domains urls)).
Proof.
  intros urls. unfold extract_domains.
  destruct (@unique_nonempty_spec (List.map domain_from_url urls) [] (NoDup_nil _) (fun H => H))
    as [Hnd [Hin Hlen]].
  rewrite length_map in Hlen. cbn [length] in Hlen.
  split; [exact Hnd |]. split; [exact Hlen |]. split.
  - apply Forall_forall. intros d Hd. apply Hin in Hd. destruct Hd as [[] | [Hd Hne]].
    apply in_map_iff in Hd. destruct Hd as [u [Hu Hinu]]. split; [exact Hne |]. split.
    + rewrite <- Hu in Hne |- *. apply domain_from_url_no_trailing_dot. exact Hne.
    + exists u. split; assumption.
  - intros u Hu Hne. apply Hin. right. split; [apply in_map; exact Hu | exact Hne].
Qed.

Lemma in_ranges_disjoint (t1 t2 : list (N * N)) (c : char) :
  forallb (fun r => forallb (fun q => (snd q <? fst r) || (snd r <? fst q))%N t2) t1 = true ->
  Lib.in_ranges c t1 = true -> Lib.in_ranges c t2 = true -> False.
Proof.
  unfold Lib.in_ranges. rewrite forallb_forall, !existsb_exists.
  intros Hdis [r [Hr Hcr]] [q [Hq Hcq]].
  specialize (Hdis r Hr). rewrite forallb_forall in Hdis. specialize (Hdis q Hq).
  apply andb_true_iff in Hcr, Hcq. rewrite !N.leb_le in Hcr, Hcq.
  apply orb_true_iff in Hdis. rewrite !N.ltb_lt in Hdis. lia.
Qed.

Lemma is_space_ranges c :
  is_space c = true ->
  Lib.in_ranges c [(9, 13); (28, 32); (0x85, 0x85); (0xA0, 0xA0); (0x1680, 0x1680);
                   (0x2000, 0x200A); (0x2028, 0x2029); (0x202F, 0x202F);
                   (0x205F, 0x205F); (0x3000, 0x3000)]%N = true.
Proof.
  unfold is_space, Lib.in_ranges. cbn [existsb fst snd].
  rewrite !orb_true_iff, !andb_true_iff, !N.leb_le, !N.eqb_eq. lia.
Qed.

Lemma digit_not_space c : Lib.is_digit c = true -> is_space c = false.
Proof.
  intros Hd. destruct (is_space c) eqn:Hs; [| reflexivity]. exfalso.
  apply is_space_ranges in Hs.
  revert Hd Hs. apply in_ranges_disjoint. vm_compute. reflexivity.
Qed.

Lemma unique_in_order_spec (cands out : list pystr) :
  NoDup out ->
  NoDup (unique_in_order cands out)
  /\ (forall x, In x (unique_in_order cands out) <-> In x out \/ In x cands).
Proof.
  revert out. induction cands as [| c cands IH]; intros out Hnd; cbn [unique_in_order].
  - split; [exact Hnd |]. intros x. split; [auto | intros [H | []]; exact H].
  - destruct (str_in c out) eqn:E.
    + apply existsb_str_eqb_In in E. destruct (IH out Hnd) as [H1 H2].
      split; [exact H1 |]. intros x. rewrite H2. cbn [In]. split.
      * intros [H | H]; auto.
      * intros [H | [<- | H]]; auto.
    + assert (Hnin : ~ In c out).
      { intros Hin. apply existsb_str_eqb_In in Hin. unfold str_in in E. congruence. }
      destruct (IH (out ++ [c])) as [H1 H2].
      * apply NoDup_app; [exact Hnd | repeat constructor; intros [] |].
        intros k Hk [<- | []]. exact (Hnin Hk).
      * split; [exact H1 |]. intros x. rewrite H2, in_app_iff. cbn [In]. tauto.
Qed.

Lemma strip_by_fixed p s :
  (forall c rest, s = c :: rest -> p c = false) ->
  (forall c rest, rev s = c :: rest -> p c = false) ->
  strip_by p s = s.
Proof.
  intros Hhead Hlast. unfold strip_by, rstrip_by.
  assert (E1 : lstrip_by p s = s).
  { destruct s as [| c rest]; [reflexivity |]. cbn [lstrip_by].
    rewrite (Hhead c rest eq_refl). reflexivity. }
  rewrite E1.
  assert (E2 : lstrip_by p (rev s) = rev s).
  { destruct (rev s) as [| c rest] eqn:E; [reflexivity |]. cbn [lstrip_by].
    rewrite (Hlast c rest eq_refl). reflexivity. }
  rewrite E2. apply rev_involutive.
Qed.

Lemma filter_digits_fixed (digits : pystr) :
  forallb Lib.is_digit digits = true -> filter Lib.is_digit digits = digits.
Proof.
  induction digits as [| d digits IH]; cbn [forallb filter]; [reflexivity |].
  intros H. apply andb_true_iff in H. destruct H as [Hd H]. rewrite Hd, IH by exact H.
  reflexivity.
Qed.

Lemma normalize_phone_cases s :
  _normalize_phone s = [] \/ phone_shape (_normalize_phone s).
Proof.
  unfold _normalize_phone. destruct s as [| c0 s0]; [left; reflexivity |].
  set (s := strip (c0 :: s0)).
  destruct (Nat.ltb_spec (length (filter Lib.is_digit s)) 9) as [Hlt | Hge];
    [left; reflexivity |].
  right. exists (filter Lib.is_digit s). split; [| split].
  - destruct (startswith s [43%N]); [right | left]; reflexivity.
  - exact Hge.
  - apply forallb_forall. intros d Hd. apply filter_In in Hd. apply Hd.
Qed.

Lemma normalize_phone_fixed p : phone_shape p -> _normalize_phone p = p.
Proof.
  intros [digits [Hp [Hlen Hdig]]].
  assert (Hns : forall c, In c p -> is_space c = false).
  { intros c Hc. destruct Hp as [-> | ->].
    - apply digit_not_space. rewrite forallb_forall in Hdig. apply Hdig, Hc.
    - destruct Hc as [<- | Hc]; [reflexivity |].
      apply digit_not_space. rewrite forallb_forall in Hdig. apply Hdig, Hc. }
  assert (Hstrip : strip p = p).
  { apply strip_by_fixed.
    - intros c rest E. apply Hns. rewrite E. left. reflexivity.
    - intros c rest E. apply Hns. apply in_rev. rewrite E. left. reflexivity. }
  assert (Hp0 : p <> []).
  { destruct Hp as [-> | ->]; [| discriminate]. destruct digits; [cbn in Hlen; lia | discriminate]. }
  unfold _normalize_phone. destruct p as [| c0 p0] eqn:Ep; [congruence |].
  rewrite <- Ep in *. rewrite Hstrip.
  destruct Hp as [Hp | Hp]; rewrite Hp.
  - rewrite filter_digits_fixed by exact Hdig.
    destruct (Nat.ltb_spec (length digits) 9) as [Hlt | _]; [lia |].
    assert (Hplus : startswith digits [43%N] = false).
    { destruct digits as [| d digits']; [reflexivity |]. cbn [startswith].
      cbn [forallb] in Hdig. apply andb_true_iff in Hdig. destruct Hdig as [Hd _].
      destruct (N.eqb_spec 43%N d) as [<- | _]; [discriminate Hd | reflexivity]. }
    rewrite Hplus. reflexivity.
  - cbn [filter startswith].
    replace (Lib.is_digit 43%N) with false by (vm_compute; reflexivity).
    rewrite filter_digits_fixed by exact Hdig. rewrite N.eqb_refl. cbn [andb].
    destruct (Nat.ltb_spec (length digits) 9) as [Hlt | _]; [lia |]. reflexivity.
Qed.

(** X21: whatever the phone pattern matches, the phone numbers extracted
    are pairwise distinct and each is an optional plus sign followed by at
    least nine decimal digits, of whatever script, and nothing else; the
    normalizer returns the empty string or such a number, and it leaves such
    a number as it is.  The emails extracted are pairwise distinct, and each
    is the lowercase of a match of the email pattern. *)
Theorem X21_extracted_phones_are_normalized :
  forall (emails phones : pystr -> list pystr) (text s : pystr),
    NoDup (extract_phones phones text)
    /\ Forall phone_shape (extract_phones phones text)
    /\ (_normalize_phone s = [] \/ phone_shape (_normalize_phone s))
    /\ _normalize_phone (_normalize_phone s) = _normalize_phone s
    /\ NoDup (extract_emails emails text)
    /\ Forall (fun e => exists m, In m (emails text) /\ e = lower m)
              (extract_emails emails text).
Proof.
  intros emails phones text s.
  assert (Hp : NoDup (extract_phones phones text)
               /\ Forall phone_shape (extract_phones phones text)).
  { unfold extract_phones. destruct text as [| c0 text0]; [split; constructor |].
    destruct (@unique_nonempty_spec
                (List.map (fun raw => _normalize_phone (strip raw)) (phones (c0 :: text0)))
                [] (NoDup_nil _) (fun H => H)) as [Hnd [Hin _]].
    split; [exact Hnd |]. apply Forall_forall. intros p Hpin.
    apply Hin in Hpin. destruct Hpin as [[] | [Hpin Hne]].
    apply in_map_iff in Hpin. destruct Hpin as [raw [E _]].
    destruct (normalize_phone_cases (strip raw)) as [Hnil | Hshape]; [congruence |].
    rewrite E in Hshape. exact Hshape. }
  assert (He : NoDup (extract_emails emails text)
               /\ Forall (fun e => exists m, In m (emails text) /\ e = lower m)
                         (extract_emails emails text)).
  { unfold extract_emails. destruct text as [| c0 text0]; [split; constructor |].
    destruct (@unique_in_order_spec (List.map lower (emails (c0 :: text0)))
                [] (NoDup_nil _)) as [Hnd Hin].
    split; [exact Hnd |]. apply Forall_forall. intros e Hein.
    apply Hin in Hein. destruct Hein as [[] | Hein].
    apply in_map_iff in Hein. destruct Hein as [m [E Hm]]. exists m. auto. }
  destruct Hp as [Hp1 Hp2]. destruct He as [He1 He2].
  split; [exact Hp1 |]. split; [exact Hp2 |]. split; [apply normalize_phone_cases |].
  split; [| split; assumption].
  destruct (normalize_phone_cases s) as [-> | Hshape]; [reflexivity |].
  apply normalize_phone_fixed. exact Hshape.
Qed.

(** ** The normalizer *)

Lemma lower_simple_not_zero_width c :
  char_in c _ZERO_WIDTH = false -> char_in (lower_simple c) _ZERO_WIDTH = false.
Proof.
  unfold char_in, _ZERO_WIDTH, lower_simple. cbn [existsb]. intros H.
  destruct ((65 <=? c) && (c <=? 90))%N eqn:E1.
  - apply andb_true_iff in E1. rewrite !N.leb_le in E1.
    repeat (apply orb_false_iff; split); try reflexivity; apply N.eqb_neq; lia.
  - destruct ((192 <=? c) && (c <=? 222) && negb (c =? 215))%N eqn:E2; [| exact H].
    apply andb_true_iff in E2. destruct E2 as [E2 _]. apply andb_true_iff in E2.
    rewrite !N.leb_le in E2.
    repeat (apply orb_false_iff; split); try reflexivity; apply N.eqb_neq; lia.
Qed.

Lemma lower_length_exact (s : pystr) :
  length (lower s) = length s + count_occ N.eq_dec s 0x130%N.
Proof.
  unfold lower. induction s as [| c s IH]; [reflexivity |].
  cbn [flat_map count_occ length]. rewrite length_app, IH. unfold lower_full.
  destruct (N.eq_dec c 0x130) as [-> | Hne].
  - cbn [N.eqb Pos.eqb length]. lia.
  - destruct (N.eqb_spec c 0x130) as [E | _]; [congruence |]. cbn [length]. lia.
Qed.

(** X22: the normalizer lengthens a text by one character for each capital
    dotted I, U+0130, that it holds, and by nothing else: the length of the
    normalized text is the length of the text plus the number of these
    characters.  No zero-width character is left in the normalized text. *)
Theorem X22_normalized_length_and_zero_width :
  forall text : pystr,
    length (normalize_for_matching text)
    = length text + count_occ N.eq_dec text 0x130%N
    /\ Forall (fun c => char_in c _ZERO_WIDTH = false) (normalize_for_matching text).
Proof.
  intros text.
  set (out := List.map (fun ch => if char_in ch _ZERO_WIDTH then 32%N else ch) text).
  assert (E : normalize_for_matching text = lower out) by (destruct text; reflexivity).
  rewrite E. clear E. split.
  - rewrite lower_length_exact. unfold out. rewrite length_map. f_equal.
    clear. induction text as [| c text IH]; [reflexivity |].
    cbn [map count_occ]. rewrite IH.
    destruct (char_in c _ZERO_WIDTH) eqn:Ez.
    + destruct (N.eq_dec 32 0x130) as [E | _]; [discriminate E |].
      destruct (N.eq_dec c 0x130) as [-> | _]; [discriminate Ez | reflexivity].
    + reflexivity.
  - apply Forall_forall. intros c Hc. unfold lower in Hc. apply in_flat_map in Hc.
    destruct Hc as [ch [Hch Hc]]. unfold out in Hch. apply in_map_iff in Hch.
    destruct Hch as [ch0 [<- _]].
    assert (Hz : char_in (if char_in ch0 _ZERO_WIDTH then 32%N else ch0) _ZERO_WIDTH = false)
      by (destruct (char_in ch0 _ZERO_WIDTH) eqn:Ez; [reflexivity | exact Ez]).
    unfold lower_full in Hc.
    destruct (_ =? 0x130)%N.
    + destruct Hc as [<- | [<- | []]]; reflexivity.
    + destruct Hc as [<- | []]. apply lower_simple_not_zero_width. exact Hz.
Qed.

(** ** Snippets and regex flags *)

Lemma firstn_plus (A : Type) (a b : nat) (l : list A) :
  firstn (a + b) l = firstn a l ++ firstn b (skipn a l).
Proof.
  revert l. induction a as [| a IH]; intros l; [reflexivity |].
  destruct l as [| x l]; cbn [Nat.add firstn skipn app].
  - rewrite firstn_nil. reflexivity.
  - rewrite IH. reflexivity.
Qed.

Lemma slice_split (t : pystr) i j k :
  i <= j -> j <= k -> slice t i k = slice t i j ++ slice t j k.
Proof.
  intros Hij Hjk. unfold slice.
  replace (k - i) with ((j - i) + (k - j)) by lia.
  rewrite firstn_plus. f_equal. rewrite skipn_skipn.
  replace (j - i + i) with j by lia. reflexivity.
Qed.

Lemma slice_length_le (t : pystr) i j : length (slice t i j) <= j - i.
Proof. unfold slice. rewrite length_firstn. lia. Qed.

(** X23: the snippet of a span that lies in the text shows the span between
    at most 48 characters of the text on either side, with an ellipsis where
    the text goes on: it is made of at most 49 characters, the characters of
    the span, and at most 49 characters. *)
Theorem X23_snippet_shows_the_span :
  forall (text : pystr) (start end_ : nat),
    start <= end_ -> end_ <= length text ->
    exists before after,
      _snippet text start end_ = before ++ slice text start end_ ++ after
      /\ length before <= 49 /\ length after <= 49
      /\ (start <= 48 -> before = firstn start text)
      /\ (length text <= end_ + 48 -> after = skipn end_ text).
Proof.
  intros text start end_ Hse Hel. unfold _snippet.
  rewrite Nat.max_0_l.
  set (left := start - 48). set (right := Nat.min (length text) (end_ + 48)).
  assert (Hl : left <= start) by (unfold left; lia).
  assert (Hr : end_ <= right) by (unfold right; lia).
  rewrite (@slice_split text left start right) by lia.
  rewrite (@slice_split text start end_ right) by lia.
  exists ((if 0 <? left then [0x2026%N] else []) ++ slice text left start),
         (slice text end_ right ++ (if right <? length text then [0x2026%N] else [])).
  split; [rewrite <- !app_assoc; reflexivity |].
  pose proof (slice_length_le text left start) as H1.
  pose proof (slice_length_le text end_ right) as H2.
  split; [| split; [| split]].
  - rewrite length_app. destruct (0 <? left); cbn [length]; unfold left, pystr, char in *; lia.
  - rewrite length_app. destruct (right <? length text); cbn [length]; unfold right, pystr, char in *; lia.
  - intros H48. replace left with 0 by (unfold left; lia). cbn [Nat.ltb Nat.leb app].
    unfold slice. rewrite Nat.sub_0_r. reflexivity.
  - intros H48. replace right with (length text) by (unfold right; lia).
    rewrite Nat.ltb_irrefl, app_nil_r. unfold slice.
    apply firstn_all2. rewrite length_skipn. lia.
Qed.

Lemma X23_snippet_shows_the_span_witness :
  exists before after,
    _snippet (lit "Please pay now") 7 10 = before ++ slice (lit "Please pay now") 7 10 ++ after
    /\ length before <= 49 /\ length after <= 49
    /\ (7 <= 48 -> before = firstn 7 (lit "Please pay now"))
    /\ (length (lit "Please pay now") <= 10 + 48 -> after = skipn 10 (lit "Please pay now")).
Proof.
  apply (@X23_snippet_shows_the_span (lit "Please pay now") 7 10).
  - lia.
  - vm_compute. lia.
Defined.

Lemma flag_of_char ch :
  _FLAG_MAP_get (lower [ch])
  = (if has_flag 105%N [ch] then 2
     else if has_flag 109%N [ch] then 8
     else if has_flag 115%N [ch] then 16 else 0)%Z.
Proof.
  unfold lower, has_flag. cbn [flat_map existsb app]. unfold lower_full.
  destruct (N.eqb_spec ch 0x130) as [-> | Hdot]; [reflexivity |].
  unfold _FLAG_MAP_get. cbn [lit List.map list_ascii_of_string app str_eqb].
  rewrite !andb_true_r, !orb_false_r.
  assert (H : forall l, (97 <= l <= 122)%N ->
              (lower_simple ch =? l)%N = ((ch =? l) || (ch =? l - 32))%N).
  { intros l Hl. unfold lower_simple.
    destruct ((65 <=? ch) && (ch <=? 90))%N eqn:E1.
    - apply andb_true_iff in E1. rewrite !N.leb_le in E1.
      destruct (N.eqb_spec (ch + 32) l), (N.eqb_spec ch l), (N.eqb_spec ch (l - 32));
        cbn [orb]; solve [reflexivity | lia].
    - destruct ((192 <=? ch) && (ch <=? 222) && negb (ch =? 215))%N eqn:E2.
      + apply andb_true_iff in E2. destruct E2 as [E2 _]. apply andb_true_iff in E2.
        rewrite !N.leb_le in E2.
        destruct (N.eqb_spec (ch + 32) l), (N.eqb_spec ch l), (N.eqb_spec ch (l - 32));
          cbn [orb]; solve [reflexivity | lia].
      + apply andb_false_iff in E1. rewrite !N.leb_gt in E1.
        destruct (N.eqb_spec ch l), (N.eqb_spec ch (l - 32)); cbn [orb];
          solve [reflexivity | lia]. }
  change (N_of_ascii "i") with 105%N. change (N_of_ascii "m") with 109%N.
  change (N_of_ascii "s") with 115%N.
  rewrite !H by lia. reflexivity.
Qed.

Lemma compile_flags_fold (fl : pystr) (v : Z) :
  fold_left (fun value ch => Z.lor value (_FLAG_MAP_get (lower [ch]))) fl v
  = Z.lor v (Z.lor (if has_flag 105%N fl then 2 else 0)
                   (Z.lor (if has_flag 109%N fl then 8 else 0)
                          (if has_flag 115%N fl then 16 else 0))).
Proof.
  revert v. induction fl as [| ch fl IH]; intros v; cbn [fold_left].
  - cbn [has_flag existsb]. cbn [Z.lor]. apply eq_sym, Z.lor_0_r.
  - rewrite IH, <- Z.lor_assoc. f_equal. rewrite flag_of_char.
    unfold has_flag. cbn [existsb]. rewrite !orb_false_r.
    change (105 - 32)%N with 73%N. change (109 - 32)%N with 77%N.
    change (115 - 32)%N with 83%N.
    generalize (existsb (fun c => (c =? 105) || (c =? 73))%N fl).
    generalize (existsb (fun c => (c =? 109) || (c =? 77))%N fl).
    generalize (existsb (fun c => (c =? 115) || (c =? 83))%N fl).
    intros x y z.
    destruct (N.eqb_spec ch 105), (N.eqb_spec ch 73), (N.eqb_spec ch 109),
      (N.eqb_spec ch 77), (N.eqb_spec ch 115), (N.eqb_spec ch 83);
      try lia; destruct x, y, z; reflexivity.
Qed.

(** X24: without a flag string a regex is compiled with [IGNORECASE] and
    [MULTILINE]; with a flag string, with exactly the flags whose letters
    occur in it, [i] for [IGNORECASE], [m] for [MULTILINE], [s] for
    [DOTALL], in either case: the order and the repetition of the letters
    do not matter, and every other character is ignored. *)
Theorem X24_compile_flags_by_letter :
  _compile_flags None = 10%Z
  /\ forall flags : pystr,
       _compile_flags (Some flags)
       = Z.lor (if has_flag 105%N flags then 2 else 0)
               (Z.lor (if has_flag 109%N flags then 8 else 0)
                      (if has_flag 115%N flags then 16 else 0)).
Proof.
  split; [reflexivity |]. intros flags. unfold _compile_flags.
  rewrite compile_flags_fold. apply Z.lor_0_l.
Qed.

(** ** The analysis as a whole *)

(** X25: a result that [Analyzer.analyze] returns passes the validators of
    the response model: its score lies between 0 and 100, every hit carries
    evidence with ordered spans, and every highlight has an ordered span.
    A regex is taken to report ordered spans within the text, as
    [finditer] does. *)
Theorem X25_analysis_result_is_valid :
  forall (emails phones : pystr -> list pystr) (a : Analyzer.t) (env : nat -> Exchange)
         (subject body from_email reply_to headers_raw : option pystr)
         (attachments : option (list pystr)) (r : AnalysisResult.t),
    regexes_sound (Analyzer.engine a) ->
    fst (Analyzer.analyze emails phones a env
           subject body from_email reply_to headers_raw attachments) = Ret r ->
    result_valid r = true.
Proof.
  intros emails phones a env subject body from_email reply_to headers_raw attachments r
         Hrx Hr.
  unfold Analyzer.analyze in Hr.
  set (text := _join_message_parts _ _ _ _ _ _) in Hr.
  destruct (match_ (Analyzer.engine a) env text (Some (extract_all emails phones text)))
    as [[hits |] s'] eqn:Em; cbn [fst] in Hr; [| discriminate Hr].
  injection Hr as <-.
  assert (Hhit : forall h, In h (unique_hits hits) -> hit_valid h = true).
  { intros h Hh. apply unique_hits_spec, last_with_id_Some in Hh. destruct Hh as [Hh _].
    unfold hit_valid. apply andb_true_iff. split.
    - unfold RuleHit._ensure_evidence.
      pose proof (@match_hit_has_evidence _ _ _ _ _ _ h Em Hh) as Hne.
      destruct (RuleHit.evidence h); [congruence | reflexivity].
    - apply forallb_forall. intros ev Hev. apply Nat.leb_le.
      destruct (@match_evidence_in_haystack _ _ _ _ _ _ h ev Hrx Em Hh Hev) as [Hle _].
      exact Hle. }
  unfold result_valid, score_to_result.
  cbn [AnalysisResult.score AnalysisResult.hits AnalysisResult.highlights].
  repeat (apply andb_true_iff; split).
  - apply Z.leb_le. unfold normalize_score. lia.
  - apply Z.leb_le. unfold normalize_score. lia.
  - apply forallb_forall. exact Hhit.
  - apply forallb_forall. intros hl Hhl.
    destruct (@build_highlights_from_evidence _ hl Hhl) as [h [ev [Hh [Hev [Hs [He _]]]]]].
    specialize (Hhit h Hh). unfold hit_valid in Hhit. apply andb_true_iff in Hhit.
    destruct Hhit as [_ Hspans]. rewrite forallb_forall in Hspans.
    specialize (Hspans ev Hev). unfold Evidence._validate_span in Hspans.
    rewrite Hs, He. exact Hspans.
Qed.

Lemma X25_analysis_result_is_valid_witness :
  result_valid
    (score_to_result
       [_to_hit pay_rule
          [Evidence.mk PatternType.keyword (lit "pay") (lit "pay") 13 16
                       (_snippet (lit "Body:" ++ [10%N] ++ lit "Please pay now") 13 16)
                       (Some (lit "keyword"))]]) = true.
Proof.
  apply (@X25_analysis_result_is_valid (fun _ => []) (fun _ => []) (Analyzer.mk pay_engine)
           failing_world None (Some (lit "Please pay now")) None None None None).
  - intros cr cp rx [<- | []] [<- | []] H. discriminate H.
  - unfold Analyzer.analyze. run_match. reflexivity.
Defined.

Lemma lookup_flagged_returns (env : nat -> Exchange) domains :
  answers_readable env ->
  forall s k flagged,
    exists fl s', lookup_flagged s env k domains flagged = (Ret fl, s').
Proof.
  intros Hread. induction domains as [| d domains IH]; intros s k flagged;
    cbn [lookup_flagged]; [eauto |].
  assert (Hd : exists res s1, UrlReputationService.lookup_domain s (env k) d = (Ret res, s1)).
  { unfold UrlReputationService.lookup_domain.
    destruct (lower (strip d)); [eauto |].
    destruct (negb (UrlReputationService.enabled s)); [eauto |].
    destruct (TTLCache.get _ _ _) as [[r |] c1]; [eauto |].
    specialize (Hread k). destruct (http (env k)); [eauto | eauto | eauto | congruence]. }
  destruct Hd as [res [s1 ->]]. apply IH.
Qed.

(** X26: when every answer of the reputation service can be read,
    [Analyzer.analyze] returns a result, whatever the message, the rule
    pack and the outcome of the lookups: a lookup that fails or finds
    nothing does not break the analysis. *)
Theorem X26_analysis_returns :
  forall (emails phones : pystr -> list pystr) (a : Analyzer.t) (env : nat -> Exchange)
         (subject body from_email reply_to headers_raw : option pystr)
         (attachments : option (list pystr)),
    answers_readable env ->
    exists r s',
      Analyzer.analyze emails phones a env
        subject body from_email reply_to headers_raw attachments = (Ret r, s').
Proof.
  intros emails phones a env subject body from_email reply_to headers_raw attachments Hread.
  unfold Analyzer.analyze. set (text := _join_message_parts _ _ _ _ _ _).
  set (ctx := extract_all emails phones text).
  assert (Hm : exists hits s', match_ (Analyzer.engine a) env text (Some ctx) = (Ret hits, s')).
  { unfold match_. destruct text as [| c0 text0]; [eauto |].
    unfold _context_hits, reputation_hits.
    destruct (UrlReputationService.enabled _); [| eauto].
    destruct (@lookup_flagged_returns env (AnalysisContext.domains ctx) Hread
                (_reputation (Analyzer.engine a)) 0 []) as [fl [s1 ->]].
    destruct fl as [| f fs]; [eauto |].
    destruct (_evidence_for_any_token _ _ _ _ _); eauto. }
  destruct Hm as [hits [s' ->]]. eauto.
Qed.

Lemma X26_analysis_returns_witness :
  exists r s',
    Analyzer.analyze (fun _ => []) (fun _ => []) (Analyzer.mk keyed_engine) failing_world
      None (Some bad_body) None None None None = (Ret r, s').
Proof.
  apply (@X26_analysis_returns (fun _ => []) (fun _ => []) (Analyzer.mk keyed_engine)
           failing_world None (Some bad_body) None None None None).
  intros k. discriminate.
Defined.

(** ** Exceptions of the regex compiler *)


